(** * The block-sealing worker of go-wemix: [miner/worker.go]

    A shallow embedding of the worker's environment, transaction committer,
    uncle admission, resubmit controller, pacing controller and pending
    snapshot, followed by the properties proved about them.

    Conventions of the embedding.
    - Go's [int64], [uint64] and [time.Duration] are [Z]; every operation that
      can leave the range is wrapped with [wrap64] or [wrapU64].
    - A [float64] is the rational number it denotes ([Q]); an arithmetic
      operation computes the exact rational result and rounds it to the
      nearest binary64 value, ties to even (module [Float64]).  Infinities and
      NaN have no counterpart: the properties below carry the range
      conditions under which binary64 arithmetic stays finite.
    - Go maps are [gmap], [mapset.Set] is [gset]; slices are lists.
    - A method that mutates its receiver returns the new receiver.
    - Packages the worker imports but that are not part of this file
      ([params], [wemixminer], [core], [types]) are the fields of the class
      [Externals]; the collaborators a worker holds ([chain], [engine]) are
      records of functions stored in the worker. *)

From Stdlib Require Import ZArith QArith Qround Qabs Qpower Lia Lqa Sorted.
From stdpp Require Import gmap list strings.
Close Scope Q_scope.
Local Open Scope Z_scope.

(** ** Machine integers *)

Module Int.
(** Two's complement wrap-around of [int64] arithmetic. *)
Definition wrap64 (z : Z) : Z := (z + 2 ^ 63) mod 2 ^ 64 - 2 ^ 63.
(** Wrap-around of [uint64] arithmetic, and the conversion [uint64(x)]. *)
Definition wrapU64 (z : Z) : Z := z mod 2 ^ 64.

Definition add64 (a b : Z) : Z := wrap64 (a + b).
Definition sub64 (a b : Z) : Z := wrap64 (a - b).
Definition mul64 (a b : Z) : Z := wrap64 (a * b).
(** Go's [/] and [%] on integers truncate toward zero. *)
Definition quot64 (a b : Z) : Z := wrap64 (Z.quot a b).
Definition rem64 (a b : Z) : Z := Z.rem a b.

Definition is_int64 (z : Z) : Prop := - 2 ^ 63 <= z < 2 ^ 63.
Definition is_uint64 (z : Z) : Prop := 0 <= z < 2 ^ 64.
End Int.

(** ** IEEE-754 binary64 arithmetic on finite values *)

Module Float64.
Local Open Scope Q_scope.

Definition pow2 (z : Z) : Q := 2 ^ z.

(** [ilog2 q] is the integer [e] with [2^e <= q < 2^(e+1)], for [0 < q]. *)
Definition ilog2 (q : Q) : Z :=
  let k := (Z.log2 (Qnum q) - Z.log2 (Zpos (Qden q)))%Z in
  if Qle_bool (pow2 k) q then k else (k - 1)%Z.

(** Rounding to the nearest integer, ties to the even one. *)
Definition rne (x : Q) : Z :=
  let f := Qfloor x in
  match Qcompare (x - inject_Z f) (1 # 2) with
  | Lt => f
  | Gt => (f + 1)%Z
  | Eq => if Z.even f then f else (f + 1)%Z
  end.

(** Exponent of the unit in the last place: 53 significant bits, and the
    subnormal spacing [2^-1074] at the bottom of the range. *)
Definition ulp_exp (q : Q) : Z := Z.max (ilog2 (Qabs q) - 52) (-1074).

(** The binary64 value nearest to [q]. *)
Definition round64 (q : Q) : Q :=
  if Qeq_bool q 0 then 0
  else inject_Z (rne (q / pow2 (ulp_exp q))) * pow2 (ulp_exp q).

Definition fadd (x y : Q) : Q := round64 (x + y).
Definition fsub (x y : Q) : Q := round64 (x - y).
Definition fmul (x y : Q) : Q := round64 (x * y).
Definition fdiv (x y : Q) : Q := round64 (x / y).
Definition flt (x y : Q) : bool := negb (Qle_bool y x).
Definition fgt (x y : Q) : bool := negb (Qle_bool x y).

(** An untyped constant used as a [float64]. *)
Definition const (c : Q) : Q := round64 c.
(** The conversions [float64(n)] of an [int64] or [uint64]. *)
Definition of_int (n : Z) : Q := round64 (inject_Z n).

(** Truncation toward zero. *)
Definition trunc (q : Q) : Z := Z.quot (Qnum q) (Zpos (Qden q)).

(** The conversion [int64(f)] discards the fraction; when the result does
    not fit, Go leaves the value to the implementation: [out_of_range]. *)
Definition to_int64 (out_of_range : Q -> Z) (q : Q) : Z :=
  let t := trunc q in
  if ((- 2 ^ 63 <=? t) && (t <? 2 ^ 63))%Z then t else out_of_range q.
End Float64.

(** ** Basic data *)

Abbreviation Hash := N.
Abbreviation Address := N.
Abbreviation Signer := N.
(** [time.Duration] and [time.Time] (as [UnixNano]), in nanoseconds. *)
Abbreviation Duration := Z.
Abbreviation Time := Z.

(** The empty hash [common.Hash{}] and address [common.Address{}]. *)
Definition emptyHash : Hash := 0%N.
Definition emptyAddress : Address := 0%N.

(** Errors: the sentinels of package [core] that the committer tells apart
    with [errors.Is], and errors made on the spot from a message. *)
Inductive error : Type :=
  | ErrGasLimitReached
  | ErrNonceTooLow
  | ErrNonceTooHigh
  | ErrTxTypeNotSupported
  | ErrMsg (msg : string).

Record Header : Type := mkHeader {
  ParentHash : Hash;
  Root : Hash;
  Coinbase : Address;
  Number : Z;            (* *big.Int *)
  GasLimit : Z;          (* uint64 *)
  GasUsed : Z;           (* uint64 *)
  Fees : Z;              (* *big.Int *)
  Time_ : Z;             (* uint64 *)
  Extra : list Z;        (* []byte *)
  MixDigest : Hash;
  BaseFee : option Z     (* *big.Int, nil before London *)
}.

Record Transaction : Type := mkTx {
  tx_hash : Hash;
  tx_nonce : Z;
  tx_type : Z;
  tx_protected : bool
}.

Record Log : Type := mkLog {
  log_address : Address;
  log_data : list Z;
  log_BlockHash : Hash
}.

Record Receipt : Type := mkReceipt {
  r_status : Z;
  r_gasUsed : Z;
  r_Logs : list Log;
  r_BlockHash : Hash;
  r_BlockNumber : Z;
  r_TransactionIndex : Z
}.

Record Block : Type := mkBlock {
  b_header : Header;
  b_uncles : list Header;
  b_transactions : list Transaction
}.

(** [Block.Number], [NumberU64], [Time], [GasLimit], [Root], [ParentHash]:
    accessors that return a copy of the header field. *)
Definition b_Number (b : Block) : Z := Number (b_header b).
Definition b_NumberU64 (b : Block) : Z := Int.wrapU64 (Number (b_header b)).
Definition b_Time (b : Block) : Z := Time_ (b_header b).
Definition b_GasLimit (b : Block) : Z := GasLimit (b_header b).
Definition b_Root (b : Block) : Hash := Root (b_header b).

(** ** The state database

    Modelled from the spec: [state.StateDB] lives in package [core/state];
    the spec describes it as "owned, mutable, with rollback snapshots" and
    its [Copy] as a deep copy.  The content is what the journal tracks
    (accounts and logs); a revision remembers the content at the time of
    [Snapshot], which is what replaying the journal backwards restores. *)

Record StateContent : Type := mkContent {
  accounts : gmap Address Z;
  logs : list Log
}.

Record StateDB : Type := mkStateDB {
  content : StateContent;
  thash : Hash;
  txIndex : Z;
  validRevisions : list (Z * StateContent);
  nextRevisionId : Z;
  prefetching : bool
}.

Module State.
(** [Snapshot] returns an identifier for the current revision. *)
Definition Snapshot (s : StateDB) : Z * StateDB :=
  let id := nextRevisionId s in
  (id, mkStateDB (content s) (thash s) (txIndex s)
         (validRevisions s ++ [(id, content s)]) (id + 1) (prefetching s)).

(** The index [sort.Search] finds: the first revision whose identifier is
    at least [revid] (revisions are kept in increasing order). *)
Fixpoint search (revs : list (Z * StateContent)) (revid : Z) : nat :=
  match revs with
  | [] => 0%nat
  | (id, _) :: rest => if revid <=? id then 0%nat else S (search rest revid)
  end.

(** [RevertToSnapshot] panics ([None]) on an unknown identifier; otherwise
    it restores the content and drops the revision and everything after. *)
Definition RevertToSnapshot (s : StateDB) (revid : Z) : option StateDB :=
  let idx := search (validRevisions s) revid in
  match validRevisions s !! idx with
  | Some (id, saved) =>
      if id =? revid
      then Some (mkStateDB saved (thash s) (txIndex s)
                   (take idx (validRevisions s)) (nextRevisionId s) (prefetching s))
      else None
  | None => None
  end.

(** [Prepare] sets the transaction the following logs belong to. *)
Definition Prepare (s : StateDB) (h : Hash) (ti : Z) : StateDB :=
  mkStateDB (content s) h ti (validRevisions s) (nextRevisionId s) (prefetching s).

Definition StartPrefetcher (s : StateDB) : StateDB :=
  mkStateDB (content s) (thash s) (txIndex s) (validRevisions s) (nextRevisionId s) true.

Definition StopPrefetcher (s : StateDB) : StateDB :=
  mkStateDB (content s) (thash s) (txIndex s) (validRevisions s) (nextRevisionId s) false.

(** [Copy]: an independent state with the same content and no journal;
    the copy does not inherit the prefetcher. *)
Definition Copy (s : StateDB) : StateDB :=
  mkStateDB (content s) (thash s) (txIndex s) [] 0 false.
End State.

(** ** The environment of one block-build attempt *)

Record environment : Type := mkEnv {
  signer : Signer;
  state : StateDB;             (* apply state changes here *)
  ancestors : gset Hash;       (* ancestor set (uncle parent validity) *)
  family : gset Hash;          (* family set (uncle invalidity) *)
  tcount : Z;                  (* tx count in cycle *)
  gasPool : option Z;          (* *core.GasPool: nil until the first commit *)
  coinbase : Address;
  header : Header;
  txs : list Transaction;
  receipts : list Receipt;
  uncles : gmap Hash Header;
  till : option Time;          (* until when block generation holds *)
  blockInterval : Z;
  blockGasLimit : Z;
  baseFeeMaxChangeRate : Z;
  gasTargetPercentage : Z
}.

(** Assignments to single fields of an environment or a header. *)
Definition set_state (env : environment) (s : StateDB) : environment :=
  mkEnv (signer env) s (ancestors env) (family env) (tcount env) (gasPool env)
    (coinbase env) (header env) (txs env) (receipts env) (uncles env) (till env)
    (blockInterval env) (blockGasLimit env) (baseFeeMaxChangeRate env)
    (gasTargetPercentage env).
Definition set_ancestors (env : environment) (a : gset Hash) : environment :=
  mkEnv (signer env) (state env) a (family env) (tcount env) (gasPool env)
    (coinbase env) (header env) (txs env) (receipts env) (uncles env) (till env)
    (blockInterval env) (blockGasLimit env) (baseFeeMaxChangeRate env)
    (gasTargetPercentage env).
Definition set_family (env : environment) (f : gset Hash) : environment :=
  mkEnv (signer env) (state env) (ancestors env) f (tcount env) (gasPool env)
    (coinbase env) (header env) (txs env) (receipts env) (uncles env) (till env)
    (blockInterval env) (blockGasLimit env) (baseFeeMaxChangeRate env)
    (gasTargetPercentage env).
Definition set_tcount (env : environment) (n : Z) : environment :=
  mkEnv (signer env) (state env) (ancestors env) (family env) n (gasPool env)
    (coinbase env) (header env) (txs env) (receipts env) (uncles env) (till env)
    (blockInterval env) (blockGasLimit env) (baseFeeMaxChangeRate env)
    (gasTargetPercentage env).
Definition set_gasPool (env : environment) (g : option Z) : environment :=
  mkEnv (signer env) (state env) (ancestors env) (family env) (tcount env) g
    (coinbase env) (header env) (txs env) (receipts env) (uncles env) (till env)
    (blockInterval env) (blockGasLimit env) (baseFeeMaxChangeRate env)
    (gasTargetPercentage env).
Definition set_header (env : environment) (h : Header) : environment :=
  mkEnv (signer env) (state env) (ancestors env) (family env) (tcount env) (gasPool env)
    (coinbase env) h (txs env) (receipts env) (uncles env) (till env)
    (blockInterval env) (blockGasLimit env) (baseFeeMaxChangeRate env)
    (gasTargetPercentage env).
Definition set_txs (env : environment) (l : list Transaction) : environment :=
  mkEnv (signer env) (state env) (ancestors env) (family env) (tcount env) (gasPool env)
    (coinbase env) (header env) l (receipts env) (uncles env) (till env)
    (blockInterval env) (blockGasLimit env) (baseFeeMaxChangeRate env)
    (gasTargetPercentage env).
Definition set_receipts (env : environment) (l : list Receipt) : environment :=
  mkEnv (signer env) (state env) (ancestors env) (family env) (tcount env) (gasPool env)
    (coinbase env) (header env) (txs env) l (uncles env) (till env)
    (blockInterval env) (blockGasLimit env) (baseFeeMaxChangeRate env)
    (gasTargetPercentage env).
Definition set_uncles (env : environment) (u : gmap Hash Header) : environment :=
  mkEnv (signer env) (state env) (ancestors env) (family env) (tcount env) (gasPool env)
    (coinbase env) (header env) (txs env) (receipts env) u (till env)
    (blockInterval env) (blockGasLimit env) (baseFeeMaxChangeRate env)
    (gasTargetPercentage env).
Definition set_till (env : environment) (t : option Time) : environment :=
  mkEnv (signer env) (state env) (ancestors env) (family env) (tcount env) (gasPool env)
    (coinbase env) (header env) (txs env) (receipts env) (uncles env) t
    (blockInterval env) (blockGasLimit env) (baseFeeMaxChangeRate env)
    (gasTargetPercentage env).
Definition set_buildParameters (env : environment) (bi bgl rate pct : Z) : environment :=
  mkEnv (signer env) (state env) (ancestors env) (family env) (tcount env) (gasPool env)
    (coinbase env) (header env) (txs env) (receipts env) (uncles env) (till env)
    bi bgl rate pct.

Definition set_GasLimit (h : Header) (g : Z) : Header :=
  mkHeader (ParentHash h) (Root h) (Coinbase h) (Number h) g (GasUsed h) (Fees h)
    (Time_ h) (Extra h) (MixDigest h) (BaseFee h).
Definition set_Extra (h : Header) (e : list Z) : Header :=
  mkHeader (ParentHash h) (Root h) (Coinbase h) (Number h) (GasLimit h) (GasUsed h)
    (Fees h) (Time_ h) e (MixDigest h) (BaseFee h).
Definition set_MixDigest (h : Header) (m : Hash) : Header :=
  mkHeader (ParentHash h) (Root h) (Coinbase h) (Number h) (GasLimit h) (GasUsed h)
    (Fees h) (Time_ h) (Extra h) m (BaseFee h).
Definition set_BaseFee (h : Header) (f : option Z) : Header :=
  mkHeader (ParentHash h) (Root h) (Coinbase h) (Number h) (GasLimit h) (GasUsed h)
    (Fees h) (Time_ h) (Extra h) (MixDigest h) f.
Definition set_GasUsed_Fees (h : Header) (used fees : Z) : Header :=
  mkHeader (ParentHash h) (Root h) (Coinbase h) (Number h) (GasLimit h) used fees
    (Time_ h) (Extra h) (MixDigest h) (BaseFee h).

(** [task]: what the sealer is handed. *)
Record task : Type := mkTask {
  t_receipts : list Receipt;
  t_state : StateDB;
  t_block : Block;
  t_createdAt : Time
}.

(** Interrupt codes. *)
Definition commitInterruptNone : Z := 0.
Definition commitInterruptNewHead : Z := 1.
Definition commitInterruptResubmit : Z := 2.

(** [intervalAdjust]: a resubmitting interval adjustment. *)
Record intervalAdjust : Type := mkAdjust {
  ratio : Q;
  inc : bool
}.

(** [generateParams]: the settings for generating a sealing task. *)
Record generateParams : Type := mkGenParams {
  gp_timestamp : Z;
  gp_forceTime : bool;
  gp_parentHash : Hash;
  gp_coinbase : Address;
  gp_random : Hash;
  gp_noUncle : bool;
  gp_noExtra : bool
}.

(** ** Collaborators *)

Record ChainConfig : Type := mkChainConfig {
  IsEIP155 : Z -> bool;
  IsLondon : Z -> bool;
  TerminalTotalDifficulty : option Z;
  CliquePeriod : option Z
}.

Record BlockChain : Type := mkBlockChain {
  CurrentBlock : Block;
  GetBlockByHash : Hash -> option Block;
  GetHeaderByNumber : Z -> option Header;
  GetBlocksFromHash : Hash -> Z -> list Block;
  StateAt : Hash -> error + StateDB;
  GetTd : Hash -> Z -> option Z;
  Config : ChainConfig
}.

Record Engine : Type := mkEngine {
  (** [Prepare] fills consensus fields of the header in place. *)
  Prepare : BlockChain -> Header -> Header * option error;
  SealHash : Header -> Hash
}.

Record Backend : Type := mkBackend {
  StateAtBlock : Block -> Z -> error + StateDB
}.

(** What [core.ApplyTransaction] leaves behind: the state, the gas left in the
    pool, the header's [GasUsed] and [Fees] (all passed by pointer), and the
    receipt or the error it returns. *)
Record applied : Type := mkApplied {
  a_state : StateDB;
  a_gasPool : Z;
  a_gasUsed : Z;
  a_fees : Z;
  a_result : error + Receipt
}.

(** The packages [worker.go] imports, and the one choice Go leaves to the
    implementation. *)
Class Externals : Type := {
  (* package params *)
  TxGas : Z;
  MaxTxsPerBlock : Z;
  BlockMinBuildTxs : Z;
  BlockMinBuildTime : Z;
  BlockTrailTime : Z;
  BlockTimeAdjBlocks : Z;
  BlockTimeAdjMultiple : Z;
  PrefetchCount : Z;
  ElasticityMultiplier : Z;
  (* package wemixminer *)
  IsPoW : bool;
  GetBlockBuildParameters : Z -> Z * Z * Z * Z;
  (* package types *)
  Header_Hash : Header -> Hash;
  MakeSigner : ChainConfig -> Z -> Signer;
  (* packages core and misc *)
  CalcGasLimit : Z -> Z -> Z;
  CalcBaseFee : ChainConfig -> Header -> Z;
  ApplyTransaction :
    ChainConfig -> BlockChain -> Address -> option Z -> StateDB -> Header ->
    Transaction -> applied;
  (* int64(f) for a float64 f outside the int64 range *)
  int64_out_of_range : Q -> Z
}.

Definition Block_Hash `{Externals} (b : Block) : Hash := Header_Hash (b_header b).

(** The worker.  [localUncles] and [remoteUncles] are maps; each is listed in
    the order in which a [range] statement visits it.  [snapshotState] points
    into the heap of state databases. *)
Record worker : Type := mkWorker {
  config_GasCeil : Z;
  chainConfig : ChainConfig;
  engine : Engine;
  eth : Backend;
  chain : BlockChain;
  current : option environment;
  localUncles : list (Hash * Block);
  remoteUncles : list (Hash * Block);
  w_coinbase : Address;
  w_extra : list Z;
  pendingTasks : gmap Hash task;
  snapshotBlock : option Block;
  snapshotReceipts : list Receipt;
  snapshotState : option N;
  running : bool;
  newTxs : Z;
  noempty : Z
}.

(** ** Constants *)

Definition second : Duration := 1000000000.
Definition millisecond : Duration := 1000000.
(** The minimal and maximal time interval to recreate the sealing block. *)
Definition minRecommitInterval : Duration := 1 * second.
Definition maxRecommitInterval : Duration := 15 * second.
(** The impact a single interval adjustment has on the resubmitting interval. *)
Definition intervalAdjustRatio : Q := (1 # 10)%Q.
(** The bias applied in favour of the reachable limit: [200 * 1000.0 * 1000.0]. *)
Definition intervalAdjustBias : Q := inject_Z (200 * 1000 * 1000).
(** The maximum depth of the acceptable stale block. *)
Definition staleThreshold : Z := 7.

(** ** Environment methods *)

(** [copyReceipts] makes a deep copy of the given receipts. *)
Definition copyReceipts (receipts : list Receipt) : list Receipt :=
  map (fun l => l) receipts.

(** [environment.copy] creates a deep copy of the environment.  The copy
    leaves [till] and the build parameters at their zero values. *)
Definition copy (env : environment) : environment :=
  let cpy :=
    mkEnv (signer env) (State.Copy (state env)) (ancestors env) (family env)
      (tcount env) None (coinbase env) (header env) [] (copyReceipts (receipts env))
      ∅ None 0 0 0 0 in
  let cpy := match gasPool env with
             | Some gasPool => set_gasPool cpy (Some gasPool)
             | None => cpy
             end in
  let cpy := set_txs cpy (take (length (txs env)) (txs env)) in
  set_uncles cpy (map_fold (fun hash uncle acc => <[hash := uncle]> acc) ∅ (uncles env)).

(** [unclelist] returns the contained uncles as a list. *)
Definition unclelist (env : environment) : list Header :=
  map snd (map_to_list (uncles env)).

(** [discard] terminates the background prefetcher. *)
Definition discard (env : environment) : environment :=
  set_state env (State.StopPrefetcher (state env)).

Section Worker.
Context `{Externals}.

(** ** The resubmit controller *)

(** [recalcRecommit] recalculates the resubmitting interval upon feedback. *)
Definition recalcRecommit (minRecommit prev : Duration) (target : Q) (inc : bool)
  : Duration :=
  let prevF := Float64.of_int prev in
  let next :=
    if inc then
      let next :=
        Float64.fadd
          (Float64.fmul prevF (Float64.const (1 - intervalAdjustRatio)%Q))
          (Float64.fmul (Float64.const intervalAdjustRatio)
             (Float64.fadd target (Float64.const intervalAdjustBias))) in
      let max := Float64.of_int maxRecommitInterval in
      if Float64.fgt next max then max else next
    else
      let next :=
        Float64.fadd
          (Float64.fmul prevF (Float64.const (1 - intervalAdjustRatio)%Q))
          (Float64.fmul (Float64.const intervalAdjustRatio)
             (Float64.fsub target (Float64.const intervalAdjustBias))) in
      let min := Float64.of_int minRecommit in
      if Float64.flt next min then min else next in
  Float64.to_int64 int64_out_of_range next.

(** [clearPending] cleans the stale pending tasks (the closure of both
    work loops). *)
Definition clearPending (pendingTasks : gmap Hash task) (number : Z) : gmap Hash task :=
  filter
    (fun ht => ¬ (Int.wrapU64 (b_NumberU64 (t_block (snd ht)) + staleThreshold) <= number))
    pendingTasks.

(** [newWorkReq]: a request for new sealing work with its interrupt notifier. *)
Record newWorkReq : Type := mkNewWorkReq {
  req_interrupt : option N;
  req_noempty : bool;
  req_timestamp : Z
}.

(** The variables of [newWorkLoop], the interrupt cells it allocated, the
    requests it pushed and the duration its timer is armed with. *)
Record workLoop : Type := mkWorkLoop {
  wl_worker : worker;
  wl_interrupt : option N;
  wl_minRecommit : Duration;
  wl_recommit : Duration;
  wl_timestamp : Z;
  wl_cells : gmap N Z;
  wl_newWorkCh : list newWorkReq;
  wl_timer : option Duration
}.

Definition set_pendingTasks_newTxs (w : worker) (p : gmap Hash task) (n : Z) : worker :=
  mkWorker (config_GasCeil w) (chainConfig w) (engine w) (eth w) (chain w) (current w)
    (localUncles w) (remoteUncles w) (w_coinbase w) (w_extra w) p
    (snapshotBlock w) (snapshotReceipts w) (snapshotState w) (running w) n (noempty w).

(** [commit] aborts in-flight transaction execution with the given signal
    and resubmits a new one. *)
Definition commit (l : workLoop) (noempty : bool) (s : Z) : workLoop :=
  let cells := match wl_interrupt l with
               | Some p => <[p := s]> (wl_cells l)
               | None => wl_cells l
               end in
  let interrupt := fresh (dom cells) in
  let cells := <[interrupt := 0]> cells in
  let w := wl_worker l in
  mkWorkLoop (set_pendingTasks_newTxs w (pendingTasks w) 0) (Some interrupt)
    (wl_minRecommit l) (wl_recommit l) (wl_timestamp l) cells
    (wl_newWorkCh l ++ [mkNewWorkReq (Some interrupt) noempty (wl_timestamp l)])
    (Some (wl_recommit l)).

Definition set_clearPending (l : workLoop) (number : Z) (timestamp : Z) : workLoop :=
  let w := wl_worker l in
  mkWorkLoop (set_pendingTasks_newTxs w (clearPending (pendingTasks w) number) (newTxs w))
    (wl_interrupt l) (wl_minRecommit l) (wl_recommit l) timestamp (wl_cells l)
    (wl_newWorkCh l) (wl_timer l).

Definition set_recommit (l : workLoop) (minRecommit recommit : Duration) : workLoop :=
  mkWorkLoop (wl_worker l) (wl_interrupt l) minRecommit recommit (wl_timestamp l)
    (wl_cells l) (wl_newWorkCh l) (wl_timer l).

Definition set_timer (l : workLoop) (d : Duration) : workLoop :=
  mkWorkLoop (wl_worker l) (wl_interrupt l) (wl_minRecommit l) (wl_recommit l)
    (wl_timestamp l) (wl_cells l) (wl_newWorkCh l) (Some d).

(** What [newWorkLoop] selects on ([exitCh] ends the loop). *)
Inductive workEvent : Type :=
  | startCh
  | chainHeadCh (head : Block)
  | timerC
  | resubmitIntervalCh (interval : Duration)
  | resubmitAdjustCh (adjust : intervalAdjust).

(** One round of the [select] of [newWorkLoop]; [now] is [time.Now().Unix()]. *)
Definition newWorkLoop (l : workLoop) (now : Z) (ev : workEvent) : workLoop :=
  match ev with
  | startCh =>
      let l := set_clearPending l (b_NumberU64 (CurrentBlock (chain (wl_worker l)))) now in
      commit l false commitInterruptNewHead
  | chainHeadCh head =>
      let l := set_clearPending l (b_NumberU64 head) now in
      commit l false commitInterruptNewHead
  | timerC =>
      let w := wl_worker l in
      if running w &&
         match CliquePeriod (chainConfig w) with
         | None => true
         | Some period => 0 <? period
         end
      then
        if newTxs w =? 0 then set_timer l (wl_recommit l)
        else commit l true commitInterruptResubmit
      else l
  | resubmitIntervalCh interval =>
      let interval := if interval <? minRecommitInterval
                      then minRecommitInterval else interval in
      set_recommit l interval interval
  | resubmitAdjustCh adjust =>
      let minRecommit := wl_minRecommit l in
      let recommit := wl_recommit l in
      if inc adjust then
        let target := Float64.fdiv (Float64.of_int recommit) (ratio adjust) in
        set_recommit l minRecommit (recalcRecommit minRecommit recommit target true)
      else
        set_recommit l minRecommit
          (recalcRecommit minRecommit recommit (Float64.of_int minRecommit) false)
  end.

(** ** Uncles *)

(** [isTTDReached] tells whether the given block has reached the total
    terminal difficulty for The Merge transition. *)
Definition isTTDReached (w : worker) (header : Header) : bool :=
  let td := GetTd (chain w) (ParentHash header)
              (Int.wrapU64 (Int.wrapU64 (Number header) - 1)) in
  let ttd := TerminalTotalDifficulty (Config (chain w)) in
  match td, ttd with
  | Some td, Some ttd => ttd <=? td
  | _, _ => false
  end.

(** [commitUncle] adds the given block to the uncle block set, and returns
    an error if it failed to add. *)
Definition commitUncle (w : worker) (env : environment) (uncle : Header)
  : environment * option error :=
  if negb IsPoW then (env, Some (ErrMsg "We do not call uncles"))
  else if isTTDReached w (header env)
  then (env, Some (ErrMsg "ignore uncle for beacon block"))
  else
    let hash := Header_Hash uncle in
    if bool_decide (is_Some (uncles env !! hash))
    then (env, Some (ErrMsg "uncle not unique"))
    else if bool_decide (ParentHash (header env) = ParentHash uncle)
    then (env, Some (ErrMsg "uncle is sibling"))
    else if negb (bool_decide (ParentHash uncle ∈ ancestors env))
    then (env, Some (ErrMsg "uncle's parent unknown"))
    else if bool_decide (hash ∈ family env)
    then (env, Some (ErrMsg "uncle already included"))
    else (set_uncles env (<[hash := uncle]> (uncles env)), None).

(** ** Creating the environment *)

(** [makeEnv] creates a new environment for the sealing block. *)
Definition makeEnv (w : worker) (parent : Block) (header : Header) (coinbase : Address)
  : error + environment :=
  let st := match StateAt (chain w) (b_Root parent) with
            | inr state => inr state
            | inl _ => StateAtBlock (eth w) parent 1024
            end in
  match st with
  | inl err => inl err
  | inr state =>
      let state := State.StartPrefetcher state in
      let env :=
        mkEnv (MakeSigner (chainConfig w) (Number header)) state ∅ ∅ 0 None coinbase
          header [] [] ∅ None 0 0 0 0 in
      let env :=
        fold_left
          (fun env ancestor =>
             let env :=
               fold_left
                 (fun env uncle => set_family env ({[Header_Hash uncle]} ∪ family env))
                 (b_uncles ancestor) env in
             let env := set_family env ({[Block_Hash ancestor]} ∪ family env) in
             set_ancestors env ({[Block_Hash ancestor]} ∪ ancestors env))
          (GetBlocksFromHash (chain w) (Block_Hash parent) 7) env in
      inr (set_tcount env 0)
  end.

(** ** The pacing controller *)

(** [time.Unix(sec, nsec)], as nanoseconds since the epoch. *)
Definition time_Unix (sec nsec : Z) : Time := sec * 1000000000 + nsec.

(** The closure [check] of [timeIt]: the offset at one look-back distance. *)
Definition timeIt_check (w : worker) (num nowInSeconds blockInterval heightToPeek : Z) : Z :=
  let maxPeekBack := 86400 in
  let tooBehindMultiple := 2 in
  let heightToPeek := if maxPeekBack <? heightToPeek then maxPeekBack else heightToPeek in
  let n := Int.sub64 (Int.wrap64 num) heightToPeek in
  if n <? 0 then 0
  else
    match GetHeaderByNumber (chain w) (Int.wrapU64 n) with
    | None => 0
    | Some h =>
        let stamp := Time_ h in
        let dt := Int.sub64 nowInSeconds (Int.wrap64 stamp) in
        if (Int.mul64 heightToPeek blockInterval <? dt) &&
           (dt <? Int.mul64 (Int.mul64 tooBehindMultiple heightToPeek) blockInterval)
        then -1
        else if dt <? Int.mul64 heightToPeek blockInterval
        then 1
        else 0
    end.

(** The [for] loop of [timeIt] over the look-back distances, with [n]
    rounds to go. *)
Fixpoint timeIt_loop (check : Z -> Z) (n : nat) (offset ahead adjBlocks : Z) : Z * Z :=
  match n with
  | O => (offset, ahead)
  | S n' =>
      let offset := check adjBlocks in
      if offset <? 0 then (offset, ahead)
      else
        let ahead := if 0 <? offset then ahead + 1 else ahead in
        timeIt_loop check n' offset ahead (Int.mul64 adjBlocks 10)
  end.

(** [timeIt] picks the timestamp of the next block and the deadline [till];
    [now] is [time.Now()]. *)
Definition timeIt (w : worker) (now : Time) (blockInterval : Z) : Z * Time :=
  let blockInterval := Int.quot64 blockInterval 1000 in
  let blockInterval := if blockInterval <=? 0 then 1 else blockInterval in
  let parent := CurrentBlock (chain w) in
  let num := b_Number parent + 1 in
  let nowInSeconds := now / 1000000000 in
  let nowInMilliSeconds := Int.quot64 now 1000000 in
  let check := timeIt_check w num nowInSeconds blockInterval in
  let ahead := 0 in
  let offset := check 1 in
  let '(offset, ahead) :=
    if 0 <=? offset then
      let ahead := if 0 <? offset then ahead + 1 else ahead in
      timeIt_loop check (Z.to_nat BlockTimeAdjMultiple) offset ahead BlockTimeAdjBlocks
    else (offset, ahead) in
  let offset := if (0 <=? offset) && (0 <? ahead) then 1 else offset in
  let timestamp := Int.wrapU64 nowInSeconds in
  let timestamp :=
    if timestamp <? Int.wrapU64 (b_Number parent)
    then Int.wrapU64 (b_Number parent) else timestamp in
  let tms :=
    if offset =? -1 then
      (* behind, i.e. too few blocks so far, need to make more *)
      let tms := Int.add64 nowInMilliSeconds BlockMinBuildTime in
      if Int.quot64 tms 1000 <=? Int.wrap64 (b_Time parent)
      then Int.mul64 (Int.add64 nowInSeconds 1) 1000
      else tms
    else if offset =? 1 then
      (* ahead, i.e. too many blocks, need to slow down *)
      let tms := Int.add64 (Int.add64 nowInMilliSeconds (Int.mul64 blockInterval 1000))
                   BlockMinBuildTime in
      if Int.add64 nowInSeconds blockInterval <? Int.quot64 tms 1000
      then Int.sub64 (Int.mul64 (Int.add64 (Int.add64 nowInSeconds blockInterval) 1) 1000)
             BlockTrailTime
      else tms
    else
      (* on schedule *)
      let tms := Int.sub64 (Int.add64 nowInMilliSeconds (Int.mul64 blockInterval 1000))
                   BlockTrailTime in
      if Int.add64 nowInSeconds 1 <? Int.quot64 tms 1000
      then Int.sub64 (Int.mul64 (Int.add64 nowInSeconds 2) 1000) BlockTrailTime
      else tms in
  (timestamp, time_Unix (Int.quot64 tms 1000) (Int.mul64 (Int.rem64 tms 1000) 1000000)).

(** ** Preparing work *)

(** The closure [commitUncles] of [prepareWork]. *)
Fixpoint commitUncles (w : worker) (env : environment) (blocks : list (Hash * Block))
  : environment :=
  match blocks with
  | [] => env
  | (hash, uncle) :: rest =>
      if bool_decide (size (uncles env) = 2%nat) then env
      else commitUncles w (fst (commitUncle w env (b_header uncle))) rest
  end.

(** [prepareWork] constructs the sealing task according to the given
    parameters; the pending transactions are not filled yet. *)
Definition prepareWork (w : worker) (now : Time) (genParams : generateParams)
  : error + environment :=
  let parent := if bool_decide (gp_parentHash genParams ≠ emptyHash)
                then GetBlockByHash (chain w) (gp_parentHash genParams)
                else Some (CurrentBlock (chain w)) in
  match parent with
  | None => inl (ErrMsg "missing parent")
  | Some parent =>
      let '(blockInterval, blockGasLimit, baseFeeMaxChangeRate, gasTargetPercentage) :=
        GetBlockBuildParameters (b_Number parent) in
      let timestamp := gp_timestamp genParams in
      let stale := IsPoW && (timestamp <=? b_Time parent) in
      if stale && gp_forceTime genParams then inl (ErrMsg "invalid timestamp")
      else
        let timestamp := if stale then Int.wrapU64 (b_Time parent + 1) else timestamp in
        let num := b_Number parent + 1 in
        let '(timestamp, till) :=
          if negb IsPoW then timeIt w now blockInterval else (timestamp, 0) in
        let header :=
          mkHeader (Block_Hash parent) emptyHash (gp_coinbase genParams) num
            (CalcGasLimit (b_GasLimit parent) (config_GasCeil w)) 0 0 timestamp []
            emptyHash None in
        let header :=
          if negb (gp_noExtra genParams) && negb (length (w_extra w) =? 0)%nat
          then set_Extra header (w_extra w) else header in
        let header :=
          if negb IsPoW
          then set_GasLimit header (CalcGasLimit (b_GasLimit parent) (Int.wrapU64 blockGasLimit))
          else header in
        let header :=
          if bool_decide (gp_random genParams ≠ emptyHash)
          then set_MixDigest header (gp_random genParams) else header in
        let header :=
          if IsLondon (chainConfig w) (Number header) then
            let header :=
              set_BaseFee header (Some (CalcBaseFee (chainConfig w) (b_header parent))) in
            if negb (IsLondon (chainConfig w) (b_Number parent)) then
              if IsPoW then
                let parentGasLimit := Int.wrapU64 (b_GasLimit parent * ElasticityMultiplier) in
                set_GasLimit header (CalcGasLimit parentGasLimit (config_GasCeil w))
              else set_GasLimit header (b_GasLimit parent)
            else header
          else header in
        match Prepare (engine w) (chain w) header with
        | (_, Some err) => inl err
        | (header, None) =>
            match makeEnv w parent header (gp_coinbase genParams) with
            | inl err => inl err
            | inr env =>
                let env := if negb IsPoW then set_till env (Some till) else env in
                let env := set_buildParameters env blockInterval blockGasLimit
                             baseFeeMaxChangeRate gasTargetPercentage in
                if negb (gp_noUncle genParams) then
                  let env := commitUncles w env (localUncles w) in
                  inr (commitUncles w env (remoteUncles w))
                else inr env
            end
        end
  end.
End Worker.

(** ** Transaction iterators

    Modelled from the spec: [types.TransactionsByPriceAndNonce] and
    [TxOrderer] are defined outside this file.  The spec gives the first
    "three navigation primitives: Peek, Pop (drop head account's remaining
    txs), Shift (advance within head account)", and has the second "track
    committed hashes internally".  [remaining] counts the transactions the
    iterator can still yield: [Peek] yields one only while some remain, and
    both [Shift] and [Pop] consume at least the head. *)

Class TxQueue (Q : Type) : Type := {
  Peek : Q -> option Transaction;
  Shift : Q -> Q;
  Pop : Q -> Q;
  remaining : Q -> nat;
  Peek_remaining : forall q tx, Peek q = Some tx -> (0 < remaining q)%nat;
  Shift_remaining : forall q, (remaining (Shift q) <= pred (remaining q))%nat;
  Pop_remaining : forall q, (remaining (Pop q) <= pred (remaining q))%nat
}.

Class TxOrdering (Q : Type) `{TxQueue Q} : Type := {
  MarkCommitted : Q -> Transaction -> Q;
  CommittedLength : Q -> Z;
  Close : Q -> Q;
  tx_prefetch : worker -> environment -> Q -> Z -> Q;
  MarkCommitted_remaining : forall q tx, remaining (MarkCommitted q tx) = remaining q;
  tx_prefetch_remaining : forall w env q n, remaining (tx_prefetch w env q n) = remaining q
}.

(** ** The transaction committer *)

(** How a piece of Go code leaves: it runs on, it panics, or (for the loops
    below, which are given the number of rounds they may take) it is cut. *)
Inductive result (A : Type) : Type :=
  | Done (a : A)
  | Panicked
  | OutOfFuel.
Arguments Done {A} a.
Arguments Panicked {A}.
Arguments OutOfFuel {A}.

(** How one round of a [for] loop ends. *)
Inductive flow (S : Type) : Type :=
  | Continue (s : S)
  | Break (s : S)
  | Return (b : bool) (s : S)
  | Panic.
Arguments Continue {S} s.
Arguments Break {S} s.
Arguments Return {S} b s.
Arguments Panic {S}.

(** What a run of the committer works on: the environment and the iterator
    it mutates, the map of committed transactions it is passed (or nil), the
    logs it collects, and what it has sent on [resubmitAdjustCh] and on
    [pendingLogsFeed].  The interrupt is a shared atomic and the deadline is
    compared with the clock: [c_loads] counts the atomic loads and [c_ticks]
    the clock readings made so far, so that each reading may differ. *)
Record committer (Q : Type) : Type := mkCommitter {
  c_env : environment;
  c_txs : Q;
  c_committedTxs : option (gmap Hash Transaction);
  c_coalescedLogs : list Log;
  c_loads : nat;
  c_ticks : nat;
  c_resubmitAdjustCh : list intervalAdjust;
  c_pendingLogsFeed : list (list Log)
}.
Arguments mkCommitter {Q}.
Arguments c_env {Q}.
Arguments c_txs {Q}.
Arguments c_committedTxs {Q}.
Arguments c_coalescedLogs {Q}.
Arguments c_loads {Q}.
Arguments c_ticks {Q}.
Arguments c_resubmitAdjustCh {Q}.
Arguments c_pendingLogsFeed {Q}.

Section Committer.
Context `{Externals}.

(** [commitTransaction] applies one transaction; [None] is the panic of
    [RevertToSnapshot] on an unknown revision. *)
Definition commitTransaction (w : worker) (env : environment) (tx : Transaction)
  : option (environment * (error + list Log)) :=
  let '(snap, st) := State.Snapshot (state env) in
  let r := ApplyTransaction (chainConfig w) (chain w) (coinbase env) (gasPool env) st
             (header env) tx in
  let env := set_state env (a_state r) in
  let env := set_gasPool env ((fun _ : Z => a_gasPool r) <$> gasPool env) in
  let env := set_header env (set_GasUsed_Fees (header env) (a_gasUsed r) (a_fees r)) in
  match a_result r with
  | inl err =>
      match State.RevertToSnapshot (state env) snap with
      | Some st => Some (set_state env st, inl err)
      | None => None
      end
  | inr receipt =>
      let env := set_txs env (txs env ++ [tx]) in
      let env := set_receipts env (receipts env ++ [receipt]) in
      Some (env, inr (r_Logs receipt))
  end.

(** Both committers start with [if env.gasPool == nil] and give the
    environment a pool of [gasLimit] gas then. *)
Definition initGasPool (env : environment) : environment :=
  match gasPool env with
  | None => set_gasPool env (Some (GasLimit (header env)))
  | Some _ => env
  end.

Context {Q : Type} `{TxQueue Q}.

Definition with_env (c : committer Q) (env : environment) : committer Q :=
  mkCommitter env (c_txs c) (c_committedTxs c) (c_coalescedLogs c) (c_loads c)
    (c_ticks c) (c_resubmitAdjustCh c) (c_pendingLogsFeed c).
Definition with_txs (c : committer Q) (q : Q) : committer Q :=
  mkCommitter (c_env c) q (c_committedTxs c) (c_coalescedLogs c) (c_loads c)
    (c_ticks c) (c_resubmitAdjustCh c) (c_pendingLogsFeed c).
Definition with_committedTxs (c : committer Q) (m : option (gmap Hash Transaction))
  : committer Q :=
  mkCommitter (c_env c) (c_txs c) m (c_coalescedLogs c) (c_loads c)
    (c_ticks c) (c_resubmitAdjustCh c) (c_pendingLogsFeed c).
Definition with_coalescedLogs (c : committer Q) (l : list Log) : committer Q :=
  mkCommitter (c_env c) (c_txs c) (c_committedTxs c) l (c_loads c)
    (c_ticks c) (c_resubmitAdjustCh c) (c_pendingLogsFeed c).
Definition with_loads (c : committer Q) (n : nat) : committer Q :=
  mkCommitter (c_env c) (c_txs c) (c_committedTxs c) (c_coalescedLogs c) n
    (c_ticks c) (c_resubmitAdjustCh c) (c_pendingLogsFeed c).
Definition with_ticks (c : committer Q) (n : nat) : committer Q :=
  mkCommitter (c_env c) (c_txs c) (c_committedTxs c) (c_coalescedLogs c) (c_loads c)
    n (c_resubmitAdjustCh c) (c_pendingLogsFeed c).
Definition send_adjust (c : committer Q) (a : intervalAdjust) : committer Q :=
  mkCommitter (c_env c) (c_txs c) (c_committedTxs c) (c_coalescedLogs c) (c_loads c)
    (c_ticks c) (c_resubmitAdjustCh c ++ [a]) (c_pendingLogsFeed c).
Definition send_pendingLogs (c : committer Q) (l : list Log) : committer Q :=
  mkCommitter (c_env c) (c_txs c) (c_committedTxs c) (c_coalescedLogs c) (c_loads c)
    (c_ticks c) (c_resubmitAdjustCh c) (c_pendingLogsFeed c ++ [l]).

(** The interrupt check that opens each round of both committers.
    [interrupt] gives the value each successive [atomic.LoadInt32] sees.
    [None] in the result means the round goes on. *)
Definition interruptCheck (interrupt : option (nat -> Z)) (gasLimit : Z) (c : committer Q)
  : committer Q * option (flow (committer Q)) :=
  match interrupt with
  | None => (c, None)
  | Some load =>
      let n := c_loads c in
      if negb (load n =? commitInterruptNone) then
        if load (S n) =? commitInterruptResubmit then
          match gasPool (c_env c) with
          | None => (c, Some Panic)
          | Some gas =>
              let ratio :=
                Float64.fdiv (Float64.of_int (Int.wrapU64 (gasLimit - gas)))
                  (Float64.of_int gasLimit) in
              let ratio := if Float64.flt ratio (Float64.const (1 # 10)%Q)
                           then Float64.const (1 # 10)%Q else ratio in
              let c := send_adjust c (mkAdjust ratio true) in
              (c, Some (Return (load (S (S n)) =? commitInterruptNewHead)
                          (with_loads c (S (S (S n))))))
          end
        else
          (c, Some (Return (load (S (S n)) =? commitInterruptNewHead)
                      (with_loads c (S (S (S n))))))
      else (with_loads c (S n), None)
  end.

(** The [switch] on the error of [commitTransaction], shared by both
    committers. *)
Definition dispatch (c : committer Q) (env : environment) (res : error + list Log)
  : flow (committer Q) :=
  let c := with_env c env in
  match res with
  | inl ErrGasLimitReached => Continue (with_txs c (Pop (c_txs c)))
  | inl ErrNonceTooLow => Continue (with_txs c (Shift (c_txs c)))
  | inl ErrNonceTooHigh => Continue (with_txs c (Pop (c_txs c)))
  | inr logs =>
      let c := with_coalescedLogs c (c_coalescedLogs c ++ logs) in
      let c := with_env c (set_tcount (c_env c) (tcount (c_env c) + 1)) in
      Continue (with_txs c (Shift (c_txs c)))
  | inl ErrTxTypeNotSupported => Continue (with_txs c (Pop (c_txs c)))
  | inl (ErrMsg _) => Continue (with_txs c (Shift (c_txs c)))
  end.

(** The deadline test: [tstart] and [env.till] are set, and the time until
    [env.till] is zero or negative; the clock is read only when both
    pointers are set. *)
Definition deadlinePassed (tstart : option Time) (clock : nat -> Time) (c : committer Q)
  : bool * committer Q :=
  match tstart, till (c_env c) with
  | Some _, Some till => (till - clock (c_ticks c) <=? 0, with_ticks c (S (c_ticks c)))
  | _, _ => (false, c)
  end.

(** The execution of the head transaction, shared by both committers. *)
Definition execute (w : worker) (c : committer Q) (tx : Transaction) : flow (committer Q) :=
  let env := c_env c in
  if tx_protected tx && negb (IsEIP155 (chainConfig w) (Number (header env)))
  then Continue (with_txs c (Pop (c_txs c)))
  else
    let env := set_state env (State.Prepare (state env) (tx_hash tx) (tcount env)) in
    match commitTransaction w env tx with
    | None => Panic
    | Some (env, res) => dispatch c env res
    end.

(** One round of the loop of [commitTransactions]. *)
Definition commitTransactions_round (w : worker) (interrupt : option (nat -> Z))
    (tstart : option Time) (clock : nat -> Time) (gasLimit : Z) (c : committer Q)
  : flow (committer Q) :=
  match interruptCheck interrupt gasLimit c with
  | (_, Some out) => out
  | (c, None) =>
      match gasPool (c_env c) with
      | None => Panic
      | Some gas =>
          if gas <? TxGas then Break c
          else
            match Peek (c_txs c) with
            | None => Break c
            | Some tx =>
                if (0 <? MaxTxsPerBlock) && (MaxTxsPerBlock <=? tcount (c_env c))
                then Break c
                else
                  let '(late, c) := deadlinePassed tstart clock c in
                  if late &&
                     (BlockMinBuildTxs <=?
                        match c_committedTxs c with
                        | Some m => Z.of_nat (size m)
                        | None => 0
                        end)
                  then Break c
                  else
                    let c := with_committedTxs c
                               ((fun m => <[tx_hash tx := tx]> m) <$> c_committedTxs c) in
                    execute w c tx
            end
      end
  end.

(** A [for] loop that is given [fuel] rounds. *)
Fixpoint loop (round : committer Q -> flow (committer Q)) (fuel : nat) (c : committer Q)
  : result (flow (committer Q)) :=
  match fuel with
  | O => OutOfFuel
  | S fuel' =>
      match round c with
      | Continue c' => loop round fuel' c'
      | Panic => Panicked
      | out => Done out
      end
  end.

(** What both committers do once the loop is left by [break]. *)
Definition afterLoop (w : worker) (interrupt : option (nat -> Z)) (c : committer Q)
  : committer Q :=
  let c := if negb (running w) && (0 <? length (c_coalescedLogs c))%nat
           then send_pendingLogs c (map (fun l => l) (c_coalescedLogs c))
           else c in
  match interrupt with
  | Some _ => send_adjust c (mkAdjust 0 false)
  | None => c
  end.

(** [commitTransactions]: the committer over the price and nonce ordering.
    The loop gets one round per remaining transaction and one to leave. *)
Definition commitTransactions (w : worker) (env : environment) (txs : Q)
    (interrupt : option (nat -> Z)) (tstart : option Time) (clock : nat -> Time)
    (committedTxs : option (gmap Hash Transaction))
  : result (bool * committer Q) :=
  let gasLimit := GasLimit (header env) in
  let env := initGasPool env in
  let c := mkCommitter env txs committedTxs [] 0%nat 0%nat [] [] in
  match loop (commitTransactions_round w interrupt tstart clock gasLimit)
          (S (remaining txs)) c with
  | Done (Return b c) => Done (b, c)
  | Done (Break c) => Done (false, afterLoop w interrupt c)
  | Done (Continue _) | Done Panic | Panicked => Panicked
  | OutOfFuel => OutOfFuel
  end.

Context `{!TxOrdering Q}.

(** One round of the loop of [commitTransactionsSimple]. *)
Definition commitTransactionsSimple_round (w : worker) (interrupt : option (nat -> Z))
    (tstart : option Time) (clock : nat -> Time) (gasLimit : Z) (c : committer Q)
  : flow (committer Q) :=
  match interruptCheck interrupt gasLimit c with
  | (_, Some out) => out
  | (c, None) =>
      match gasPool (c_env c) with
      | None => Panic
      | Some gas =>
          if gas <? TxGas then Break c
          else
            match Peek (c_txs c) with
            | None => Break c
            | Some tx =>
                let '(late, c) := deadlinePassed tstart clock c in
                if late && (BlockMinBuildTxs <=? CommittedLength (c_txs c))
                then Break c
                else
                  let c := with_txs c (MarkCommitted (c_txs c) tx) in
                  execute w c tx
            end
      end
  end.

(** [commitTransactionsSimple]: the committer over a [TxOrderer]; the
    deferred [txs.Close()] runs on every way out. *)
Definition commitTransactionsSimple (w : worker) (env : environment) (txs : Q)
    (interrupt : option (nat -> Z)) (tstart : option Time) (clock : nat -> Time)
  : result (bool * committer Q) :=
  let gasLimit := GasLimit (header env) in
  let env := initGasPool env in
  let txs := tx_prefetch w env txs PrefetchCount in
  let c := mkCommitter env txs None [] 0%nat 0%nat [] [] in
  match loop (commitTransactionsSimple_round w interrupt tstart clock gasLimit)
          (S (remaining txs)) c with
  | Done (Return b c) => Done (b, with_txs c (Close (c_txs c)))
  | Done (Break c) =>
      let c := afterLoop w interrupt c in
      Done (false, with_txs c (Close (c_txs c)))
  | Done (Continue _) | Done Panic | Panicked => Panicked
  | OutOfFuel => OutOfFuel
  end.
End Committer.

(** ** The pending snapshot

    The worker holds a pointer to the snapshot state; [heap] is the memory
    the pointers of state databases point into.  [StateDB.Copy] allocates a
    new database (see [State.Copy]). *)

Definition set_snapshot (w : worker) (b : option Block) (r : list Receipt) (s : option N)
  : worker :=
  mkWorker (config_GasCeil w) (chainConfig w) (engine w) (eth w) (chain w) (current w)
    (localUncles w) (remoteUncles w) (w_coinbase w) (w_extra w) (pendingTasks w)
    b r s (running w) (newTxs w) (noempty w).

(** [types.NewBlock] builds a block out of copies of its arguments. *)
Definition NewBlock (header : Header) (txs : list Transaction) (uncles : list Header)
  : Block := mkBlock header uncles txs.

(** [updateSnapshot] updates the pending snapshot block, receipts and state. *)
Definition updateSnapshot (w : worker) (heap : gmap N StateDB) (env : environment)
  : worker * gmap N StateDB :=
  let p := fresh (dom heap) in
  (set_snapshot w (Some (NewBlock (header env) (txs env) (unclelist env)))
     (copyReceipts (receipts env)) (Some p),
   <[p := State.Copy (state env)]> heap).

(** [pending] returns the pending state and the corresponding block; the
    result is [None] when the snapshot pointer is dangling, which a Go
    program cannot make. *)
Definition pending (w : worker) (heap : gmap N StateDB)
  : option (option Block * option N * gmap N StateDB) :=
  match snapshotState w with
  | None => Some (None, None, heap)
  | Some p =>
      match heap !! p with
      | None => None
      | Some s =>
          let q := fresh (dom heap) in
          Some (snapshotBlock w, Some q, <[q := State.Copy s]> heap)
      end
  end.

(** [pendingBlock] returns the pending block. *)
Definition pendingBlock (w : worker) : option Block := snapshotBlock w.

(** [pendingBlockAndReceipts] returns the pending block and its receipts. *)
Definition pendingBlockAndReceipts (w : worker) : option Block * list Receipt :=
  (snapshotBlock w, snapshotReceipts w).

(** The snapshot triple a reader of the worker observes. *)
Definition snapshot (w : worker) (heap : gmap N StateDB)
  : option Block * list Receipt * option StateDB :=
  (snapshotBlock w, snapshotReceipts w, p ← snapshotState w; heap !! p).

(** ** Conditions the properties refer to *)

(** The revisions of a state database are in increasing order and were all
    handed out by [Snapshot]. *)
Definition wf_db (s : StateDB) : Prop :=
  StronglySorted Z.lt (map fst (validRevisions s)) /\
  Forall (fun id => id < nextRevisionId s) (map fst (validRevisions s)).

(** [s'] was reached from [s] by journalled operations: whatever snapshots
    were taken and reverted in between, the revisions of [s] are still there. *)
Definition journal_extends (s s' : StateDB) : Prop :=
  wf_db s' /\ validRevisions s `prefix_of` validRevisions s' /\
  nextRevisionId s <= nextRevisionId s'.

(** [core.ApplyTransaction] changes the state through its journal only. *)
Definition journalled `{Externals} : Prop :=
  forall cfg bc cb gp s h tx,
    wf_db s -> journal_extends s (a_state (ApplyTransaction cfg bc cb gp s h tx)).

(** An interrupt is stored to once, when the work loop replaces it ([commit]
    of [newWorkLoop]): after the first load that sees a signal, every load
    sees the same one. *)
Definition write_once (interrupt : option (nat -> Z)) : Prop :=
  forall load, interrupt = Some load ->
    forall i j : nat, (i <= j)%nat -> load i <> commitInterruptNone -> load j = load i.

(** The states in which a loop can start a round: [reaches round c c'] when
    [c'] is [c] after some rounds that all ended in [continue]. *)
Inductive reaches {S : Type} (round : S -> flow S) : S -> S -> Prop :=
  | reaches_refl c : reaches round c c
  | reaches_step c c' c'' :
      round c = Continue c' -> reaches round c' c'' -> reaches round c c''.

(** The environments the worker can hold: made by [makeEnv] or
    [prepareWork], and then changed by the operations on environments. *)
Inductive reachable `{Externals} (w : worker) : environment -> Prop :=
  | reachable_makeEnv parent header coinbase env :
      makeEnv w parent header coinbase = inr env -> reachable w env
  | reachable_prepareWork now genParams env :
      prepareWork w now genParams = inr env -> reachable w env
  | reachable_commitUncle env uncle :
      reachable w env -> reachable w (fst (commitUncle w env uncle))
  | reachable_commitTransaction env tx env' res :
      reachable w env -> commitTransaction w env tx = Some (env', res) ->
      reachable w env'
  | reachable_commitTransactions (Q : Type) (TQ : TxQueue Q) env (txs : Q) interrupt tstart
      clock committedTxs b c :
      reachable w env ->
      commitTransactions w env txs interrupt tstart clock committedTxs = Done (b, c) ->
      reachable w (c_env c)
  | reachable_commitTransactionsSimple (Q : Type) (TQ : TxQueue Q) (TO : TxOrdering Q) env
      (txs : Q) interrupt tstart clock b c :
      reachable w env ->
      commitTransactionsSimple w env txs interrupt tstart clock = Done (b, c) ->
      reachable w (c_env c)
  | reachable_copy env : reachable w env -> reachable w (copy env)
  | reachable_discard env : reachable w env -> reachable w (discard env).

(** ** A small chain to evaluate the definitions on *)

Module Example.
(** A transfer that fails after it has touched the state: the nonce of
    account [1] is its balance, a transaction with another nonce is refused
    with [ErrNonceTooLow] or [ErrNonceTooHigh]; a transaction that does not
    fit the pool is refused with [ErrGasLimitReached]. *)
Definition apply (cfg : ChainConfig) (bc : BlockChain) (cb : Address) (gp : option Z)
    (s : StateDB) (h : Header) (tx : Transaction) : applied :=
  let nonce := default 0 (accounts (content s) !! 1%N) in
  let gas := default 0 gp in
  let touched :=
    mkStateDB (mkContent (<[2%N := tx_nonce tx]> (accounts (content s))) (logs (content s)))
      (thash s) (txIndex s) (validRevisions s) (nextRevisionId s) (prefetching s) in
  if gas <? 21000 then mkApplied touched gas (GasUsed h) (Fees h) (inl ErrGasLimitReached)
  else if tx_nonce tx <? nonce
  then mkApplied touched gas (GasUsed h) (Fees h) (inl ErrNonceTooLow)
  else if nonce <? tx_nonce tx
  then mkApplied touched gas (GasUsed h) (Fees h) (inl ErrNonceTooHigh)
  else
    let log := mkLog cb [tx_nonce tx] emptyHash in
    let done :=
      mkStateDB
        (mkContent (<[1%N := nonce + 1]> (accounts (content s))) (logs (content s) ++ [log]))
        (thash s) (txIndex s) (validRevisions s) (nextRevisionId s) (prefetching s) in
    mkApplied done (gas - 21000) (GasUsed h + 21000) (Fees h + 1)
      (inr (mkReceipt 1 21000 [log] emptyHash 0 0)).

#[export] Instance externals : Externals := {|
  TxGas := 21000;
  MaxTxsPerBlock := 0;
  BlockMinBuildTxs := 0;
  BlockMinBuildTime := 200;
  BlockTrailTime := 100;
  BlockTimeAdjBlocks := 10;
  BlockTimeAdjMultiple := 3;
  PrefetchCount := 0;
  ElasticityMultiplier := 2;
  IsPoW := true;
  GetBlockBuildParameters := fun _ => (1000, 30000000, 46, 100);
  Header_Hash := fun h => Z.to_N (Number h * 16 + Z.of_N (MixDigest h));
  MakeSigner := fun _ _ => 1%N;
  CalcGasLimit := fun parentGasLimit desired => desired;
  CalcBaseFee := fun _ _ => 1;
  ApplyTransaction := apply;
  int64_out_of_range := fun _ => - 2 ^ 63
|}.

Definition header (number : Z) (parent : Hash) (fork : Hash) : Header :=
  mkHeader parent emptyHash emptyAddress number 63000 0 0 (1000 + number) [] fork None.

(** The canonical chain: block [n] has hash [16 n] and parent [16 (n - 1)]. *)
Definition block (number : Z) : Block :=
  mkBlock (header number (Z.to_N ((number - 1) * 16)) 0%N) [] [].

Definition genesisState : StateDB :=
  mkStateDB (mkContent {[1%N := 0]} []) emptyHash 0 [] 0 false.

Definition theChain : BlockChain := {|
  CurrentBlock := block 100;
  GetBlockByHash := fun h => Some (block (Z.of_N h / 16));
  GetHeaderByNumber := fun n => Some (header n (Z.to_N ((n - 1) * 16)) 0%N);
  GetBlocksFromHash := fun h n =>
    map (fun i => block (Z.of_N h / 16 - Z.of_nat i)) (seq 0 (Z.to_nat n));
  StateAt := fun _ => inr genesisState;
  GetTd := fun _ _ => None;
  Config := mkChainConfig (fun _ => true) (fun _ => false) None None
|}.

Definition theWorker : worker := {|
  config_GasCeil := 63000;
  chainConfig := mkChainConfig (fun _ => true) (fun _ => false) None None;
  engine := mkEngine (fun _ h => (h, None)) Header_Hash;
  eth := mkBackend (fun _ _ => inr genesisState);
  chain := theChain;
  current := None;
  localUncles := [];
  remoteUncles := [];
  w_coinbase := 7%N;
  w_extra := [];
  pendingTasks := ∅;
  snapshotBlock := None;
  snapshotReceipts := [];
  snapshotState := None;
  running := true;
  newTxs := 0;
  noempty := 0
|}.

(** The per-account queues, head account first. *)
Definition queue : Type := list (list Transaction).

#[export, refine] Instance queue_TxQueue : TxQueue queue := {|
  Peek := fun q => match q with (tx :: _) :: _ => Some tx | _ => None end;
  Shift := fun q => match q with
                    | (_ :: (tx :: l)) :: rest => (tx :: l) :: rest
                    | _ :: rest => rest
                    | [] => []
                    end;
  Pop := fun q => tail q;
  remaining := fun q => (length (concat q) + length q)%nat
|}.
Proof.
  - intros [ | [ | tx' l] rest] tx Hq; simpl in *; try discriminate; lia.
  - intros [ | [ | tx [ | tx' l]] rest]; simpl; rewrite ?length_app; simpl; lia.
  - intros [ | l rest]; simpl; rewrite ?length_app; lia.
Defined.

#[export, refine] Instance queue_TxOrdering : TxOrdering queue := {|
  MarkCommitted := fun q _ => q;
  CommittedLength := fun _ => 0;
  Close := fun q => q;
  tx_prefetch := fun _ _ q _ => q
|}.
Proof.
  - reflexivity.
  - reflexivity.
Defined.

Definition tx (nonce : Z) : Transaction := mkTx (Z.to_N (nonce + 100)) nonce 0 true.

(** An environment for block 101, and the worker and heap after its
    snapshot was published. *)
Definition env101 : environment :=
  mkEnv 1%N genesisState ∅ ∅ 0 None 7%N (header 101 1600%N 0%N) [] [] ∅ None 0 0 0 0.

Definition published : worker * gmap N StateDB := updateSnapshot theWorker ∅ env101.
End Example.

(** ** The work loop over time *)

(** The sanitised recommit interval [newWorker] starts the work loop with. *)
Definition newWorker_recommit (config_Recommit : Duration) : Duration :=
  if config_Recommit <? minRecommitInterval then minRecommitInterval else config_Recommit.

(** The variables of [newWorkLoop] when it enters its loop: no interrupt
    yet, the initial tick of the timer discarded. *)
Definition newWorkLoop_start (w : worker) (recommit : Duration) : workLoop :=
  mkWorkLoop w None recommit recommit 0 ∅ [] None.

Definition with_worker (l : workLoop) (w : worker) : workLoop :=
  mkWorkLoop w (wl_interrupt l) (wl_minRecommit l) (wl_recommit l) (wl_timestamp l)
    (wl_cells l) (wl_newWorkCh l) (wl_timer l).

(** What happens around the work loop: the events it selects, each handled
    at some time, after the other goroutines did something to the worker. *)
Record occurrence : Type := mkOccurrence {
  oc_others : worker -> worker;
  oc_now : Z;
  oc_event : workEvent
}.

(** [newWorkLoop] over the events it receives, in their order. *)
Definition newWorkLoop_rounds `{Externals} (l : workLoop) (ocs : list occurrence)
  : workLoop :=
  fold_left
    (fun l oc =>
       newWorkLoop (with_worker l (oc_others oc (wl_worker l))) (oc_now oc) (oc_event oc))
    ocs l.

(** ** Possible uncles *)

Definition set_possibleUncles (w : worker) (l r : list (Hash * Block)) : worker :=
  mkWorker (config_GasCeil w) (chainConfig w) (engine w) (eth w) (chain w) (current w)
    l r (w_coinbase w) (w_extra w) (pendingTasks w)
    (snapshotBlock w) (snapshotReceipts w) (snapshotState w) (running w) (newTxs w)
    (noempty w).

(** One of the two loops of the [cleanTicker] case of [mainLoop]: the
    uncle blocks that fell [staleThreshold] behind the chain head are
    deleted from the map. *)
Definition cleanUncles (uncles : list (Hash * Block)) (chainHead : Block)
  : list (Hash * Block) :=
  filter
    (fun hu => ¬ (Int.wrapU64 (b_NumberU64 (snd hu) + staleThreshold)
                  <= b_NumberU64 chainHead))
    uncles.

(** The [cleanTicker] case of [mainLoop]. *)
Definition mainLoop_cleanTicker (w : worker) : worker :=
  let chainHead := CurrentBlock (chain w) in
  set_possibleUncles w (cleanUncles (localUncles w) chainHead)
    (cleanUncles (remoteUncles w) chainHead).

(** ** Sealing tasks and sealed blocks *)

(** The loop of [resultLoop] and of [commitEx] over the receipts of a task:
    each receipt is copied and given its place in the block, and each of its
    logs is copied and given the hash of the block; the logs of all receipts
    are collected. *)
Definition stampReceipts (hash : Hash) (number : Z) (taskReceipts : list Receipt)
  : list Receipt * list Log :=
  fold_left
    (fun (acc : list Receipt * list Log) (it : nat * Receipt) =>
       let '(receipts, logs) := acc in
       let '(i, taskReceipt) := it in
       let receiptLogs :=
         map (fun taskLog => mkLog (log_address taskLog) (log_data taskLog) hash)
           (r_Logs taskReceipt) in
       let receipt :=
         mkReceipt (r_status taskReceipt) (r_gasUsed taskReceipt) receiptLogs hash number
           (Int.wrapU64 (Z.of_nat i)) in
       (receipts ++ [receipt], logs ++ receiptLogs))
    (imap pair taskReceipts) ([], []).

(** What [resultLoop] passes to [chain.WriteBlockAndSetHead]. *)
Record written : Type := mkWritten {
  wr_block : Block;
  wr_receipts : list Receipt;
  wr_logs : list Log;
  wr_state : StateDB
}.

(** The [resultCh] case of [resultLoop], up to the call of
    [chain.WriteBlockAndSetHead]; [None] when the loop continues without
    writing.  [HasBlock] is [chain.HasBlock]. *)
Definition resultLoop `{Externals} (w : worker) (HasBlock : Hash -> Z -> bool)
    (block : option Block) : option written :=
  match block with
  | None => None
  | Some block =>
      if HasBlock (Block_Hash block) (b_NumberU64 block) then None
      else
        let sealhash := SealHash (engine w) (b_header block) in
        let hash := Block_Hash block in
        match pendingTasks w !! sealhash with
        | None => None
        | Some task =>
            let '(receipts, logs) :=
              stampReceipts hash (b_Number block) (t_receipts task) in
            Some (mkWritten block receipts logs (t_state task))
        end
  end.

(** The variables of [taskLoop]: the stop channel of the sealing in flight,
    the seal hash of the last task, the stop channels closed and the number
    of stop channels made so far. *)
Record taskLoopState : Type := mkTaskLoop {
  tl_worker : worker;
  tl_stopCh : option nat;
  tl_prev : Hash;
  tl_closed : list nat;
  tl_made : nat
}.

(** The closure [interrupt] of [taskLoop] aborts the in-flight sealing task. *)
Definition taskLoop_interrupt (s : taskLoopState) : taskLoopState :=
  match tl_stopCh s with
  | Some stopCh => mkTaskLoop (tl_worker s) None (tl_prev s) (tl_closed s ++ [stopCh])
                     (tl_made s)
  | None => s
  end.

(** [taskLoop] starts without a stop channel and with the zero hash as the
    seal hash of the last task. *)
Definition taskLoop_start (w : worker) : taskLoopState :=
  mkTaskLoop w None emptyHash [] 0.

(** The [taskCh] case of [taskLoop].  [Seal] is [engine.Seal], which is
    given the stop channel; [newTaskHook] only observes the task. *)
Definition taskLoop (skipSealHook : option (task -> bool))
    (Seal : BlockChain -> Block -> nat -> option error) (s : taskLoopState) (t : task)
  : taskLoopState :=
  let w := tl_worker s in
  let sealHash := SealHash (engine w) (b_header (t_block t)) in
  if bool_decide (sealHash = tl_prev s) then s
  else
    let s := taskLoop_interrupt s in
    let stopCh := tl_made s in
    let s := mkTaskLoop w (Some stopCh) sealHash (tl_closed s) (S (tl_made s)) in
    if match skipSealHook with Some hook => hook t | None => false end then s
    else
      let w := set_pendingTasks_newTxs w (<[sealHash := t]> (pendingTasks w)) (newTxs w) in
      let w :=
        match Seal (chain w) (t_block t) stopCh with
        | Some _ =>
            set_pendingTasks_newTxs w (delete sealHash (pendingTasks w)) (newTxs w)
        | None => w
        end in
      mkTaskLoop w (tl_stopCh s) (tl_prev s) (tl_closed s) (tl_made s).

(** ** Throttling *)


(** [throttleMining] returns the throttle delay, if one is necessary, and
    the seconds since the parent; [t] is [time.Now().Unix()], and [None] is
    the panic of an index out of range. *)
Definition throttleMining (t : Z) (ts : list Z) : option (Z * Z) :=
  ts0 ← ts !! 0%nat;
  let pt := Int.sub64 t ts0 in
  ts5 ← ts !! 5%nat;
  let dt := Int.sub64 t ts5 in
  if (0 <? ts5) && (dt <? 2000) then Some (Int.sub64 2000 dt, pt)
  else
    ts4 ← ts !! 4%nat;
    let dt := Int.sub64 t ts4 in
    if (0 <? ts4) && (dt <? 500) then Some (Int.sub64 500 dt, pt)
    else
      ts3 ← ts !! 3%nat;
      let dt := Int.sub64 t ts3 in
      if (0 <? ts3) && (dt <? 50) then Some (Int.sub64 50 dt, pt)
      else
        ts2 ← ts !! 2%nat;
        let dt := Int.sub64 t ts2 in
        if (0 <? ts2) && (dt <? 10) then Some (Int.sub64 10 dt, pt)
        else Some (0, pt).

(** ** The pending state between blocks *)






(** ** Filling a block *)

(** The split of the pending transactions into those of local accounts and
    the others, with which [fillTransactions] begins; [locals] is
    [TxPool().Locals()]. *)
Definition fillTransactions_split (pending : gmap Address (list Transaction))
    (locals : list Address)
  : gmap Address (list Transaction) * gmap Address (list Transaction) :=
  fold_left
    (fun (acc : gmap Address (list Transaction) * gmap Address (list Transaction))
         (account : Address) =>
       let '(localTxs, remoteTxs) := acc in
       match remoteTxs !! account with
       | Some txs =>
           if (0 <? length txs)%nat
           then (<[account := txs]> localTxs, delete account remoteTxs)
           else (localTxs, remoteTxs)
       | None => (localTxs, remoteTxs)
       end)
    locals (∅, pending).

(** What a run of [fillTransactions] leaves: the environment and what was
    sent on [resubmitAdjustCh] and on [pendingLogsFeed]. *)
Record filled : Type := mkFilled {
  f_env : environment;
  f_resubmitAdjustCh : list intervalAdjust;
  f_pendingLogsFeed : list (list Log)
}.

(** [fillTransactions] fills the pending transactions into the sealing
    block, those of local accounts first.  [ordered] is
    [types.NewTransactionsByPriceAndNonce]; the second run of the committer
    goes on reading the interrupt where the first stopped. *)
Definition fillTransactions `{Externals} {Q : Type} `{TxQueue Q}
    (ordered : Signer -> gmap Address (list Transaction) -> option Z -> Q)
    (w : worker) (env : environment) (pending : gmap Address (list Transaction))
    (locals : list Address) (interrupt : option (nat -> Z)) (clock : nat -> Time)
  : result filled :=
  let '(localTxs, remoteTxs) := fillTransactions_split pending locals in
  let first :=
    if (0 <? size localTxs)%nat then
      match commitTransactions w env (ordered (signer env) localTxs (BaseFee (header env)))
              interrupt None clock None with
      | Done (b, c) =>
          Done (b, mkFilled (c_env c) (c_resubmitAdjustCh c) (c_pendingLogsFeed c),
                c_loads c)
      | Panicked => Panicked
      | OutOfFuel => OutOfFuel
      end
    else Done (false, mkFilled env [] [], 0%nat) in
  match first with
  | Done (true, f, _) => Done f
  | Done (false, f, loads) =>
      if (0 <? size remoteTxs)%nat then
        let env := f_env f in
        match commitTransactions w env
                (ordered (signer env) remoteTxs (BaseFee (header env)))
                ((fun load (n : nat) => load (n + loads)%nat) <$> interrupt) None clock
                None with
        | Done (_, c) =>
            Done (mkFilled (c_env c) (f_resubmitAdjustCh f ++ c_resubmitAdjustCh c)
                    (f_pendingLogsFeed f ++ c_pendingLogsFeed c))
        | Panicked => Panicked
        | OutOfFuel => OutOfFuel
        end
      else Done f
  | Panicked => Panicked
  | OutOfFuel => OutOfFuel
  end.

(** ** Requests for work *)

(** The parameters [getSealingBlock] asks [generateWork] to work with. *)
Definition getSealingBlock_params (parent : Hash) (timestamp : Z) (coinbase : Address)
    (random : Hash) : generateParams :=
  mkGenParams timestamp true parent coinbase random true true.

(** The parameters [commitWork] prepares its work with; [timestamp] is
    [start.Unix()]. *)
Definition commitWork_params (timestamp : Z) (coinbase : Address) : generateParams :=
  mkGenParams (Int.wrapU64 timestamp) false emptyHash coinbase emptyHash false false.


(** ** A fork, a task and two more workers on the example chain *)

Module Scenario.
(** A block at height 100 beside the canonical one, on top of block 99. *)
Definition uncleBlock : Block := mkBlock (Example.header 100 1584%N 1%N) [] [].

(** The worker of the example once it has seen the fork. *)
Definition uncleWorker : worker :=
  set_possibleUncles Example.theWorker [(1601%N, uncleBlock)] [].

(** An environment for block 101 that knows blocks 99 and 100. *)
Definition env : environment :=
  mkEnv 1%N Example.genesisState {[1584%N; 1600%N]} {[1584%N; 1600%N]} 0 None 7%N
    (Example.header 101 1600%N 0%N) [] [] ∅ None 0 0 0 0.

(** The worker of the example on a chain without EIP-155. *)
Definition legacyWorker : worker :=
  mkWorker 63000 (mkChainConfig (fun _ => false) (fun _ => false) None None)
    (engine Example.theWorker) (eth Example.theWorker) Example.theChain None [] [] 7%N []
    ∅ None [] None true 0 0.


(** A task for block 101 with one receipt. *)
Definition task101 : task :=
  mkTask [mkReceipt 1 21000 [mkLog 7%N [0] emptyHash] emptyHash 0 0] Example.genesisState
    (Example.block 101) 0.

(** What the work loop is sent in the example: a start, a new head, a
    request to lengthen the interval and a tick of the timer. *)
Definition occurrences : list occurrence :=
  [mkOccurrence (fun w => w) 1700000000 startCh;
   mkOccurrence (fun w => w) 1700000001 (chainHeadCh (Example.block 101));
   mkOccurrence (fun w => w) 1700000002 (resubmitAdjustCh (mkAdjust (1 # 2) true));
   mkOccurrence (fun w => w) 1700000003 timerC].
End Scenario.
(** * Properties *)

(** ** Rounding to binary64 is monotone *)

Module Float64Facts.
Import Float64.
Local Open Scope Q_scope.

Lemma pow2_pos z : 0 < pow2 z.
Proof. apply Qpower_0_lt. reflexivity. Qed.

Lemma pow2_add a b : pow2 (a + b) == pow2 a * pow2 b.
Proof. apply Qpower_plus. discriminate. Qed.

Lemma pow2_le a b : (a <= b)%Z -> pow2 a <= pow2 b.
Proof. intros H. apply Qpower_le_compat_l; [exact H | discriminate]. Qed.

Lemma pow2_lt a b : (a < b)%Z -> pow2 a < pow2 b.
Proof. intros H. apply Qpower_lt_compat_l; [exact H | reflexivity]. Qed.

Lemma pow2_lt_inv a b : pow2 a < pow2 b -> (a < b)%Z.
Proof. intros H. apply (Qpower_lt_compat_l_inv 2); [exact H | reflexivity]. Qed.

Lemma pow2_Z n : (0 <= n)%Z -> pow2 n == inject_Z (2 ^ n).
Proof. intros H. unfold pow2. rewrite Zpower_Qpower by exact H. reflexivity. Qed.

Lemma pow2_succ a : pow2 (a + 1) == 2 * pow2 a.
Proof. rewrite pow2_add. unfold pow2 at 2. simpl. ring. Qed.

Lemma inject_Z_log2 n :
  (0 < n)%Z -> pow2 (Z.log2 n) <= inject_Z n /\ inject_Z n < pow2 (Z.log2 n + 1).
Proof.
  intros Hn. destruct (Z.log2_spec n Hn) as [Hlo Hhi].
  pose proof (Z.log2_nonneg n) as Hnn.
  rewrite !pow2_Z by lia. rewrite <- Zle_Qle, <- Zlt_Qlt.
  split; [exact Hlo | ]. replace (Z.log2 n + 1)%Z with (Z.succ (Z.log2 n)) by lia. exact Hhi.
Qed.

Lemma ilog2_spec q : 0 < q -> pow2 (ilog2 q) <= q /\ q < pow2 (ilog2 q + 1).
Proof.
  intros Hq. unfold ilog2.
  set (k := (Z.log2 (Qnum q) - Z.log2 (Z.pos (Qden q)))%Z).
  assert (Hn : (0 < Qnum q)%Z).
  { destruct q as [n d]. unfold Qlt in Hq. simpl in *. lia. }
  destruct (inject_Z_log2 _ Hn) as [Hn1 Hn2].
  destruct (inject_Z_log2 (Z.pos (Qden q)) eq_refl) as [Hd1 Hd2].
  set (a := Z.log2 (Qnum q)) in *. set (b := Z.log2 (Z.pos (Qden q))) in *.
  assert (Hk : pow2 a == pow2 k * pow2 b).
  { rewrite <- pow2_add. unfold k. replace (a - b + b)%Z with a by lia. reflexivity. }
  rewrite pow2_succ in Hn2, Hd2.
  assert (HD : 0 < inject_Z (Z.pos (Qden q))) by (rewrite <- (Zlt_Qlt 0); lia).
  assert (Hqe : q * inject_Z (Z.pos (Qden q)) == inject_Z (Qnum q)).
  { clear. destruct q as [n d]. unfold Qeq. simpl. rewrite Pos.mul_1_r. ring. }
  pose proof (pow2_pos k) as Hpk. pose proof (pow2_pos b) as Hpb.
  set (N := inject_Z (Qnum q)) in *. set (D := inject_Z (Z.pos (Qden q))) in *.
  assert (Hup : q < 2 * pow2 k).
  { apply Qnot_le_lt. intros Hc.
    assert (2 * pow2 k * D <= q * D) by (apply Qmult_le_compat_r; lra).
    assert (pow2 k * pow2 b <= pow2 k * D) by (apply Qmult_le_l; lra). lra. }
  assert (Hdn : pow2 k < 2 * q).
  { apply Qnot_le_lt. intros Hc.
    assert (2 * q * D <= pow2 k * D) by (apply Qmult_le_compat_r; lra).
    assert (pow2 k * D < pow2 k * (2 * pow2 b)) by (apply Qmult_lt_l; lra). lra. }
  destruct (Qle_bool (pow2 k) q) eqn:Hb.
  - apply Qle_bool_iff in Hb. rewrite pow2_succ. split; lra.
  - assert (Hlt : q < pow2 k).
    { apply Qnot_le_lt. intros Hc. apply Qle_bool_iff in Hc. congruence. }
    replace (k - 1 + 1)%Z with k by lia.
    assert (Hk1 : pow2 k == 2 * pow2 (k - 1)).
    { rewrite <- pow2_succ. replace (k - 1 + 1)%Z with k by lia. reflexivity. }
    split; lra.
Qed.

Lemma ilog2_unique q e : 0 < q -> pow2 e <= q -> q < pow2 (e + 1) -> ilog2 q = e.
Proof.
  intros Hq Hlo Hhi. destruct (ilog2_spec q Hq) as [Hlo' Hhi'].
  assert (ilog2 q < e + 1)%Z by (apply pow2_lt_inv; lra).
  assert (e < ilog2 q + 1)%Z by (apply pow2_lt_inv; lra).
  lia.
Qed.

Lemma ilog2_mono q1 q2 : 0 < q1 -> q1 <= q2 -> (ilog2 q1 <= ilog2 q2)%Z.
Proof.
  intros H1 H12. destruct (ilog2_spec q1 H1) as [Hlo1 Hhi1].
  destruct (ilog2_spec q2) as [Hlo2 Hhi2]; [lra | ].
  assert (ilog2 q1 < ilog2 q2 + 1)%Z by (apply pow2_lt_inv; lra). lia.
Qed.

Lemma rne_range x : (Qfloor x <= rne x <= Qfloor x + 1)%Z.
Proof.
  unfold rne. destruct (Qcompare _ _); [destruct (Z.even _) | | ]; lia.
Qed.

Lemma rne_Z n : rne (inject_Z n) = n.
Proof.
  unfold rne. rewrite Qfloor_Z.
  destruct (Qcompare_spec (inject_Z n - inject_Z n) (1 # 2)) as [H|H|H]; try lra; reflexivity.
Qed.

Lemma rne_mono x y : x <= y -> (rne x <= rne y)%Z.
Proof.
  intros Hxy. pose proof (Qfloor_resp_le _ _ Hxy) as Hf.
  destruct (Z.eq_dec (Qfloor x) (Qfloor y)) as [He|Hne].
  - unfold rne. rewrite <- He.
    destruct (Qcompare_spec (x - inject_Z (Qfloor x)) (1 # 2)) as [H1|H1|H1];
    destruct (Qcompare_spec (y - inject_Z (Qfloor x)) (1 # 2)) as [H2|H2|H2];
    try destruct (Z.even (Qfloor x)); try lia; lra.
  - pose proof (rne_range x). pose proof (rne_range y). lia.
Qed.

Lemma rne_opp x : rne (- x) = (- rne x)%Z.
Proof.
  pose proof (Qfloor_le x) as Hx1. pose proof (Qlt_floor x) as Hx2.
  pose proof (Qfloor_le (- x)) as Hy1. pose proof (Qlt_floor (- x)) as Hy2.
  rewrite inject_Z_plus in Hx2, Hy2. change (inject_Z 1) with 1 in Hx2, Hy2.
  set (f := Qfloor x) in *. set (g := Qfloor (- x)) in *.
  assert (Hfg : (g = - f \/ g = - f - 1)%Z).
  { assert (inject_Z g < inject_Z (- f + 1)) as H1
      by (rewrite inject_Z_plus, inject_Z_opp; change (inject_Z 1) with 1; lra).
    assert (inject_Z (- f + -2) < inject_Z g) as H2.
    { rewrite inject_Z_plus, inject_Z_opp. change (inject_Z (-2)) with (-2 # 1). lra. }
    rewrite <- Zlt_Qlt in H1, H2. lia. }
  unfold rne. fold f g.
  destruct Hfg as [-> | ->].
  - rewrite inject_Z_opp in *.
    assert (x == inject_Z f) by lra.
    destruct (Qcompare_spec (- x - - inject_Z f) (1 # 2)) as [H1|H1|H1]; try lra.
    destruct (Qcompare_spec (x - inject_Z f) (1 # 2)) as [H2|H2|H2]; try lra. reflexivity.
  - replace (- f - 1)%Z with (- (f + 1))%Z in * by lia.
    rewrite inject_Z_opp, inject_Z_plus in *. change (inject_Z 1) with 1 in *.
    rewrite Z.even_opp, Z.even_add. simpl (Z.even 1).
    destruct (Qcompare_spec (- x - - (inject_Z f + 1)) (1 # 2)) as [H1|H1|H1];
    destruct (Qcompare_spec (x - inject_Z f) (1 # 2)) as [H2|H2|H2]; try lra;
    try destruct (Z.even f); simpl; lia.
Qed.

Lemma scaled_le p x n :
  0 < p -> x <= inject_Z n * p -> inject_Z (rne (x / p)) * p <= inject_Z n * p.
Proof.
  intros Hp Hx. apply Qmult_le_compat_r; [ | lra].
  rewrite <- Zle_Qle. apply Z.le_trans with (rne (inject_Z n)); [ | rewrite rne_Z; lia].
  apply rne_mono. apply Qle_shift_div_r; assumption.
Qed.

Lemma scaled_ge p x n :
  0 < p -> inject_Z n * p <= x -> inject_Z n * p <= inject_Z (rne (x / p)) * p.
Proof.
  intros Hp Hx. apply Qmult_le_compat_r; [ | lra].
  rewrite <- Zle_Qle. apply Z.le_trans with (rne (inject_Z n)); [rewrite rne_Z; lia | ].
  apply rne_mono. apply Qle_shift_div_l; assumption.
Qed.

Lemma round64_nz q :
  ~ q == 0 -> round64 q = inject_Z (rne (q / pow2 (ulp_exp q))) * pow2 (ulp_exp q).
Proof.
  intros Hq. unfold round64. destruct (Qeq_bool q 0) eqn:Hb; [ | reflexivity].
  apply Qeq_bool_eq in Hb. contradiction.
Qed.

Lemma round64_zero q : q == 0 -> round64 q = 0.
Proof. intros Hq. unfold round64. rewrite (Qeq_eq_bool _ _ Hq). reflexivity. Qed.

Lemma Qabs_of_pos q : 0 < q -> Qabs q = q.
Proof.
  destruct q as [n d]. unfold Qlt. simpl. intros H. f_equal. lia.
Qed.

Lemma Qabs_of_opp q : Qabs (- q) = Qabs q.
Proof. destruct q as [n d]. simpl. f_equal. lia. Qed.

Lemma ulp_exp_opp q : ulp_exp (- q) = ulp_exp q.
Proof. unfold ulp_exp. rewrite Qabs_of_opp. reflexivity. Qed.

Lemma ulp_exp_mono q1 q2 : 0 < q1 -> q1 <= q2 -> (ulp_exp q1 <= ulp_exp q2)%Z.
Proof.
  intros H1 H12. unfold ulp_exp. rewrite !Qabs_of_pos by lra.
  pose proof (ilog2_mono q1 q2 H1 H12). lia.
Qed.

Lemma pow2_diff a b : (b <= a)%Z -> pow2 a == inject_Z (2 ^ (a - b)) * pow2 b.
Proof.
  intros H. rewrite <- pow2_Z by lia. rewrite <- pow2_add.
  replace (a - b + b)%Z with a by lia. reflexivity.
Qed.

Lemma round64_pos_mono q1 q2 : 0 < q1 -> q1 <= q2 -> round64 q1 <= round64 q2.
Proof.
  intros H1 H12. assert (H2 : 0 < q2) by lra.
  rewrite !round64_nz by lra.
  pose proof (ulp_exp_mono q1 q2 H1 H12) as He.
  pose proof (pow2_pos (ulp_exp q1)) as Hp1. pose proof (pow2_pos (ulp_exp q2)) as Hp2.
  destruct (Z.eq_dec (ulp_exp q1) (ulp_exp q2)) as [Heq | Hne].
  - rewrite Heq. apply Qmult_le_compat_r; [ | lra].
    rewrite <- Zle_Qle. apply rne_mono. apply Qmult_le_compat_r; [exact H12 | ].
    apply Qlt_le_weak, Qinv_lt_0_compat, Hp2.
  - destruct (ilog2_spec q1 H1) as [_ Hhi1]. destruct (ilog2_spec q2 H2) as [Hlo2 _].
    pose proof (ilog2_mono q1 q2 H1 H12) as Hl.
    unfold ulp_exp in *. rewrite !Qabs_of_pos in * by lra.
    set (L1 := ilog2 q1) in *. set (L2 := ilog2 q2) in *.
    set (e1 := Z.max (L1 - 52) (-1074)) in *. set (e2 := Z.max (L2 - 52) (-1074)) in *.
    set (M := Z.max (L1 + 1) e1).
    assert (HM1 : (e1 <= M)%Z) by lia.
    assert (HM2 : (L1 + 1 <= M)%Z) by lia.
    assert (HM3 : (M <= L2)%Z) by lia.
    assert (He2 : (e2 <= L2)%Z) by lia.
    apply Qle_trans with (pow2 M).
    + rewrite (pow2_diff M e1 HM1). apply scaled_le; [exact Hp1 | ].
      rewrite <- (pow2_diff M e1 HM1). pose proof (pow2_le _ _ HM2). lra.
    + apply Qle_trans with (pow2 L2); [apply pow2_le; exact HM3 | ].
      rewrite (pow2_diff L2 e2 He2). apply scaled_ge; [exact Hp2 | ].
      rewrite <- (pow2_diff L2 e2 He2). exact Hlo2.
Qed.

Lemma round64_nonneg q : 0 <= q -> 0 <= round64 q.
Proof.
  intros Hq. destruct (Qeq_dec q 0) as [Hz | Hnz].
  - rewrite (round64_zero q Hz). lra.
  - rewrite (round64_nz q Hnz). pose proof (pow2_pos (ulp_exp q)) as Hp.
    apply Qmult_le_0_compat; [ | lra].
    rewrite <- (Zle_Qle 0). apply Z.le_trans with (rne (inject_Z 0)); [rewrite rne_Z; lia | ].
    apply rne_mono. apply Qle_shift_div_l; [exact Hp | ]. change (inject_Z 0) with 0. lra.
Qed.

Lemma rne_comp x y : x == y -> rne x = rne y.
Proof.
  intros H. apply Z.le_antisymm; apply rne_mono; lra.
Qed.

Lemma round64_opp q : round64 (- q) == - round64 q.
Proof.
  destruct (Qeq_dec q 0) as [Hz | Hnz].
  - rewrite (round64_zero q Hz). rewrite round64_zero by lra. reflexivity.
  - rewrite (round64_nz q Hnz). rewrite round64_nz by lra.
    rewrite ulp_exp_opp.
    assert (Hd : - q / pow2 (ulp_exp q) == - (q / pow2 (ulp_exp q))).
    { unfold Qdiv. ring. }
    rewrite (rne_comp _ _ Hd), rne_opp, inject_Z_opp. ring.
Qed.

Lemma round64_mono q1 q2 : q1 <= q2 -> round64 q1 <= round64 q2.
Proof.
  intros H12. destruct (Qlt_le_dec 0 q1) as [Hp1 | Hn1].
  - apply round64_pos_mono; assumption.
  - destruct (Qlt_le_dec q2 0) as [Hn2 | Hp2].
    + assert (H : round64 (- q2) <= round64 (- q1)) by (apply round64_pos_mono; lra).
      rewrite !round64_opp in H. lra.
    + assert (H1 : 0 <= round64 (- q1)) by (apply round64_nonneg; lra).
      rewrite round64_opp in H1. pose proof (round64_nonneg q2 Hp2). lra.
Qed.

Lemma round64_comp q1 q2 : q1 == q2 -> round64 q1 == round64 q2.
Proof.
  intros H. apply Qle_antisym; apply round64_mono; lra.
Qed.

Lemma trunc_floor q : 0 <= q -> trunc q = Qfloor q.
Proof.
  destruct q as [n d]. unfold Qle, trunc, Qfloor. simpl. intros H.
  apply Z.quot_div_nonneg; lia.
Qed.

Lemma trunc_opp q : trunc (- q) = (- trunc q)%Z.
Proof.
  destruct q as [n d]. unfold trunc. simpl. apply Z.quot_opp_l. lia.
Qed.

Lemma trunc_mono q1 q2 : q1 <= q2 -> (trunc q1 <= trunc q2)%Z.
Proof.
  intros H12. destruct (Qlt_le_dec q1 0) as [Hn1 | Hp1].
  - destruct (Qlt_le_dec q2 0) as [Hn2 | Hp2].
    + assert (H : (trunc (- q2) <= trunc (- q1))%Z).
      { rewrite !trunc_floor by lra. apply Qfloor_resp_le. lra. }
      rewrite !trunc_opp in H. lia.
    + assert (H1 : (0 <= trunc (- q1))%Z).
      { rewrite trunc_floor by lra. rewrite <- (Qfloor_Z 0). apply Qfloor_resp_le.
        change (inject_Z 0) with 0. lra. }
      assert (H2 : (0 <= trunc q2)%Z).
      { rewrite trunc_floor by lra. rewrite <- (Qfloor_Z 0). apply Qfloor_resp_le.
        change (inject_Z 0) with 0. lra. }
      rewrite trunc_opp in H1. lia.
  - rewrite !trunc_floor by lra. apply Qfloor_resp_le. exact H12.
Qed.

Lemma trunc_Z n : trunc (inject_Z n) = n.
Proof. unfold trunc. simpl. apply Z.quot_1_r. Qed.

Lemma trunc_comp q1 q2 : q1 == q2 -> trunc q1 = trunc q2.
Proof. intros H. apply Z.le_antisymm; apply trunc_mono; lra. Qed.
End Float64Facts.

(** ** The resubmit controller *)

Section Recommit.
Context `{Externals}.
Import Float64 Float64Facts.
Local Open Scope Q_scope.

Lemma of_int_mono a b : (a <= b)%Z -> of_int a <= of_int b.
Proof. intros Hab. apply round64_mono. rewrite <- Zle_Qle. exact Hab. Qed.





Lemma const_keep_nonneg : 0 <= const (1 - intervalAdjustRatio).
Proof. apply round64_nonneg. unfold intervalAdjustRatio. lra. Qed.

Lemma const_ratio_nonneg : 0 <= const intervalAdjustRatio.
Proof. apply round64_nonneg. unfold intervalAdjustRatio. lra. Qed.

Lemma to_int64_in_range out q :
  (- 2 ^ 63 <= trunc q < 2 ^ 63)%Z -> to_int64 out q = trunc q.
Proof.
  intros [Hlo Hhi]. unfold to_int64.
  destruct (Z.leb_spec (- 2 ^ 63) (trunc q)); [ | lia].
  destruct (Z.ltb_spec (trunc q) (2 ^ 63)); [reflexivity | lia].
Qed.

Lemma trunc_in_range q :
  - inject_Z (9 * 10 ^ 18) <= q <= inject_Z (9 * 10 ^ 18) ->
  (- 2 ^ 63 <= trunc q < 2 ^ 63)%Z.
Proof.
  intros [Hlo Hhi].
  apply trunc_mono in Hlo. apply trunc_mono in Hhi.
  rewrite trunc_opp, trunc_Z in Hlo. rewrite trunc_Z in Hhi. lia.
Qed.

(** The value [next] of [recalcRecommit] before it is clamped. *)
Local Abbreviation nextInc prev target :=
  (fadd (fmul (of_int prev) (const (1 - intervalAdjustRatio)))
     (fmul (const intervalAdjustRatio) (fadd target (const intervalAdjustBias)))).
Local Abbreviation nextDec prev target :=
  (fadd (fmul (of_int prev) (const (1 - intervalAdjustRatio)))
     (fmul (const intervalAdjustRatio) (fsub target (const intervalAdjustBias)))).




Lemma of_int_exact n : (Z.abs n < 2 ^ 53)%Z -> of_int n == inject_Z n.
Proof.
  intros Hn. unfold of_int.
  destruct (Z.eq_dec n 0%Z) as [-> | Hnz]; [reflexivity | ].
  assert (Hq : ~ inject_Z n == 0).
  { intros Hc. apply Hnz. apply inject_Z_injective. exact Hc. }
  rewrite round64_nz by exact Hq.
  set (e := ulp_exp (inject_Z n)).
  assert (He : (e <= 0)%Z).
  { unfold e, ulp_exp.
    assert (Habs : Qabs (inject_Z n) = inject_Z (Z.abs n)) by reflexivity.
    assert (Hpos : 0 < Qabs (inject_Z n)).
    { rewrite Habs. change 0 with (inject_Z 0). rewrite <- Zlt_Qlt. lia. }
    destruct (ilog2_spec _ Hpos) as [Hlo _].
    assert (Hle : Qabs (inject_Z n) < pow2 53).
    { rewrite pow2_Z by lia. rewrite Habs, <- Zlt_Qlt. exact Hn. }
    assert (ilog2 (Qabs (inject_Z n)) < 53)%Z by (apply pow2_lt_inv; lra).
    lia. }
  pose proof (pow2_pos e) as Hp.
  assert (Hsplit : 1 == inject_Z (2 ^ (0 - e)) * pow2 e).
  { rewrite <- (pow2_diff 0 e He). reflexivity. }
  assert (Hinv : / pow2 e == inject_Z (2 ^ (0 - e))).
  { transitivity (inject_Z (2 ^ (0 - e)) * (pow2 e * / pow2 e)).
    - rewrite Qmult_assoc, <- Hsplit. ring.
    - rewrite Qmult_inv_r by lra. ring. }
  assert (Hdiv : inject_Z n / pow2 e == inject_Z (n * 2 ^ (0 - e))).
  { unfold Qdiv. rewrite Hinv, inject_Z_mult. reflexivity. }
  rewrite (rne_comp _ _ Hdiv), rne_Z, inject_Z_mult, <- Qmult_assoc, <- Hsplit. ring.
Qed.
Lemma Qle_bool_false x y : Qle_bool x y = false -> y < x.
Proof.
  intros Hb. apply Qnot_le_lt. intros Hle. apply Qle_bool_iff in Hle. congruence.
Qed.

(** Case analysis on every comparison of two floats in the goal. *)
Ltac fcases :=
  unfold fgt, flt;
  repeat match goal with
         | |- context [Qle_bool ?x ?y] =>
             let E := fresh "E" in
             destruct (Qle_bool x y) eqn:E;
             [apply Qle_bool_iff in E | apply Qle_bool_false in E]; simpl negb; cbv iota
         end.



Lemma maxRecommit_exact : of_int maxRecommitInterval == inject_Z maxRecommitInterval.
Proof. apply of_int_exact. vm_compute. reflexivity. Qed.

Lemma trunc_of_Z q n : q == inject_Z n -> trunc q = n.
Proof. intros Hq. rewrite (trunc_comp _ _ Hq). apply trunc_Z. Qed.


(** C5: on a resubmit-adjust message with [inc = true] and a positive ratio
    [r], the work loop sets the interval to the [float64] value of
    [prev * (1 - 0.1) + 0.1 * (prev / r + 200 ms)], in nanoseconds with the
    fraction discarded, and at most 15 s; the minimum is untouched.  With
    [minRecommit = 1 s], [recommit = 3 s] and ratio 0.2 the new interval is
    4.22 s. *)
Theorem resubmitAdjust_increase (l : workLoop) (now : Z) (r : Q) :
  (0 <= wl_recommit l < 2 ^ 63)%Z -> 0 < r ->
  let l' := newWorkLoop l now (resubmitAdjustCh (mkAdjust r true)) in
  let prevF := of_int (wl_recommit l) in
  wl_recommit l' =
    Z.min
      (trunc (fadd (fmul prevF (const (1 - intervalAdjustRatio)))
                (fmul (const intervalAdjustRatio)
                   (fadd (fdiv prevF r) (const intervalAdjustBias)))))
      maxRecommitInterval /\
  wl_minRecommit l' = wl_minRecommit l /\
  (wl_minRecommit l = (1 * second)%Z -> wl_recommit l = (3 * second)%Z ->
   r = const (2 # 10) -> wl_recommit l' = (4220 * millisecond)%Z).
Proof.
  intros Hprev Hr l' prevF. subst l'. unfold newWorkLoop. cbn [inc ratio].
  cbn [set_recommit wl_recommit wl_minRecommit].
  split; [ | split; [reflexivity | ]].
  - unfold recalcRecommit. subst prevF.
    set (prevF := of_int (wl_recommit l)).
    set (target := fdiv prevF r).
    set (next := fadd (fmul prevF (const (1 - intervalAdjustRatio)))
                   (fmul (const intervalAdjustRatio)
                      (fadd target (const intervalAdjustBias)))).
    pose proof maxRecommit_exact as Hmax.
    set (m := of_int maxRecommitInterval) in *.
    assert (HprevF : 0 <= prevF).
    { apply round64_nonneg. change 0 with (inject_Z 0). rewrite <- Zle_Qle. lia. }
    assert (Htarget : 0 <= target).
    { apply round64_nonneg. apply Qle_shift_div_l; [exact Hr | lra]. }
    assert (Hnext : 0 <= next).
    { apply round64_nonneg.
      pose proof (round64_nonneg (prevF * const (1 - intervalAdjustRatio))) as A.
      pose proof (round64_nonneg
                    (const intervalAdjustRatio * fadd target (const intervalAdjustBias))) as B.
      pose proof (round64_nonneg (target + const intervalAdjustBias)) as C.
      pose proof const_keep_nonneg. pose proof const_ratio_nonneg.
      assert (0 <= const intervalAdjustBias) by (apply round64_nonneg; vm_compute; discriminate).
      unfold fmul, fadd in *.
      specialize (C ltac:(lra)).
      specialize (A ltac:(apply Qmult_le_0_compat; lra)).
      specialize (B ltac:(apply Qmult_le_0_compat; lra)). lra. }
    assert (Hm9 : 0 <= inject_Z maxRecommitInterval <= inject_Z (9 * 10 ^ 18))
      by (split; [change 0 with (inject_Z 0) | ]; rewrite <- Zle_Qle; vm_compute; discriminate).
    assert (Hlow : - inject_Z (9 * 10 ^ 18) <= next) by lra.
    assert (Hm : - inject_Z (9 * 10 ^ 18) <= m <= inject_Z (9 * 10 ^ 18)) by lra.
    assert (Htm : trunc m = maxRecommitInterval) by (apply trunc_of_Z, Hmax).
    clearbody next m. fcases.
    + assert (Hle : (trunc next <= trunc m)%Z) by (apply trunc_mono; exact E).
      rewrite to_int64_in_range; [lia | ].
      apply trunc_in_range. split; [exact Hlow | ]. apply Qle_trans with m; tauto.
    + assert (Hle : (trunc m <= trunc next)%Z) by (apply trunc_mono, Qlt_le_weak; exact E).
      rewrite to_int64_in_range; [lia | ]. apply trunc_in_range. exact Hm.
  - intros Hmin Hrec ->. rewrite Hmin, Hrec. vm_compute. reflexivity.
Qed.
End Recommit.



Lemma resubmitAdjust_increase_witness :
  wl_recommit
    (@newWorkLoop Example.externals
       (mkWorkLoop Example.theWorker None (1 * second) (3 * second) 0 ∅ [] None) 0
       (resubmitAdjustCh (mkAdjust (Float64.const (2 # 10)) true)))
  = 4220 * millisecond.
Proof.
  refine (proj2 (proj2 (@resubmitAdjust_increase Example.externals
           (mkWorkLoop Example.theWorker None (1 * second) (3 * second) 0 ∅ [] None) 0
           (Float64.const (2 # 10)) _ _)) _ _ _).
  - simpl. unfold second. lia.
  - vm_compute. reflexivity.
  - reflexivity.
  - reflexivity.
  - reflexivity.
Defined.

(** ** Uncle admission *)

Section Uncles.
Context `{Externals}.

(** C6: [commitUncle] returns an error exactly when the mode is not PoW, the
    terminal total difficulty is reached for [env.header], the uncle's hash
    is already in [env.uncles], the uncle is a sibling, its parent is not in
    [env.ancestors], or its hash is in [env.family]; on an error the
    environment is left as it was, and otherwise the uncle is added to
    [env.uncles] and nothing else changes. *)
Theorem commitUncle_error_iff (w : worker) (env : environment) (uncle : Header) :
  (is_Some (snd (commitUncle w env uncle)) <->
   (IsPoW = false \/
    isTTDReached w (header env) = true \/
    is_Some (uncles env !! Header_Hash uncle) \/
    ParentHash (header env) = ParentHash uncle \/
    ParentHash uncle ∉ ancestors env \/
    Header_Hash uncle ∈ family env)) /\
  (is_Some (snd (commitUncle w env uncle)) -> fst (commitUncle w env uncle) = env) /\
  (snd (commitUncle w env uncle) = None ->
   fst (commitUncle w env uncle)
   = set_uncles env (<[Header_Hash uncle := uncle]> (uncles env))).
Proof.
  unfold commitUncle.
  destruct IsPoW; cbn [negb];
    [ | split_and!; [split; [intros _; by left | intros _; by eexists] | done | done]].
  destruct (isTTDReached w (header env));
    [split_and!; [split; [intros _; right; by left | intros _; by eexists] | done | done] | ].
  case_bool_decide as Hunique; cbn [fst snd];
    [split_and!; [split; [intros _; do 2 right; by left | intros _; by eexists] | done | done]
    | ].
  case_bool_decide as Hsibling; cbn [fst snd];
    [split_and!; [split; [intros _; do 3 right; by left | intros _; by eexists] | done | done]
    | ].
  case_bool_decide as Hparent; cbn [negb fst snd];
    [ | split_and!;
        [split; [intros _; do 4 right; by left | intros _; by eexists] | done | done]].
  case_bool_decide as Hfamily; cbn [fst snd];
    [split_and!; [split; [intros _; do 5 right; done | intros _; by eexists] | done | done]
    | ].
  split_and!; [ | intros [e He]; discriminate He | reflexivity].
  split; [intros [e He]; discriminate He | ].
  intros Hd. destruct_or!; first [discriminate | contradiction].
Qed.
End Uncles.

(** ** Stale pending tasks *)

Section Pending.
Context `{Externals}.

Lemma clearPending_lookup (tasks : gmap Hash task) (number : Z) (h : Hash) :
  clearPending tasks number !! h =
  match tasks !! h with
  | Some t =>
      if bool_decide (Int.wrapU64 (b_NumberU64 (t_block t) + staleThreshold) <= number)
      then None else Some t
  | None => None
  end.
Proof.
  unfold clearPending. rewrite map_lookup_filter.
  destruct (tasks !! h) as [t | ]; simpl; [ | reflexivity].
  case_bool_decide.
  - rewrite option_guard_False; [reflexivity | tauto].
  - rewrite option_guard_True; [reflexivity | assumption].
Qed.

Lemma NumberU64_range (b : Block) : 0 <= b_NumberU64 b < 2 ^ 64.
Proof. unfold b_NumberU64, Int.wrapU64. apply Z.mod_pos_bound. lia. Qed.

(** C7 (amended): [clearPending], which [newWorkLoop] runs on a start event
    with the number of the current block and on a chain-head event with the
    number of the new head, prunes an entry exactly when its block number is
    behind that number by the stale threshold 7 or more
    ([number + 7 <= head]); entries at distance 6 or less are retained
    unchanged.  (Block numbers within 7 of [2^64] aside, where the sum wraps.) *)
Theorem clearPending_prunes_from_distance_7 (l : workLoop) (now : Z) (head : Block)
    (h : Hash) (t : task) :
  pendingTasks (wl_worker l) !! h = Some t ->
  b_NumberU64 (t_block t) + staleThreshold < 2 ^ 64 ->
  pendingTasks (wl_worker (newWorkLoop l now (chainHeadCh head)))
  = clearPending (pendingTasks (wl_worker l)) (b_NumberU64 head) /\
  pendingTasks (wl_worker (newWorkLoop l now startCh))
  = clearPending (pendingTasks (wl_worker l))
      (b_NumberU64 (CurrentBlock (chain (wl_worker l)))) /\
  forall number : Z,
    (clearPending (pendingTasks (wl_worker l)) number !! h = None
     <-> staleThreshold <= number - b_NumberU64 (t_block t)) /\
    (number - b_NumberU64 (t_block t) < staleThreshold
     -> clearPending (pendingTasks (wl_worker l)) number !! h = Some t).
Proof.
  intros Ht Hno. split; [reflexivity | ]. split; [reflexivity | ].
  intros number. rewrite clearPending_lookup, Ht.
  pose proof (NumberU64_range (t_block t)) as Hr.
  unfold staleThreshold in *.
  assert (Hw : Int.wrapU64 (b_NumberU64 (t_block t) + 7) = b_NumberU64 (t_block t) + 7)
    by (apply Z.mod_small; lia).
  rewrite !Hw.
  case_bool_decide; split; try split; intros; try done; lia.
Qed.
End Pending.

(** C7 (as stated) fails: an entry for block 100 is pruned when the head is
    107, at distance exactly 7. *)
Lemma clearPending_prunes_at_distance_7 :
  ~ (clearPending {[1%N := mkTask [] Example.genesisState (Example.block 100) 0]} 107 !! 1%N
     = None
     <-> 107 - b_NumberU64 (Example.block 100) > 7).
Proof.
  rewrite clearPending_lookup, lookup_singleton_eq. vm_compute.
  intros [Hprune _]. specialize (Hprune eq_refl). discriminate Hprune.
Qed.

Lemma clearPending_prunes_from_distance_7_witness :
  clearPending {[1%N := mkTask [] Example.genesisState (Example.block 100) 0]} 106 !! 1%N
  = Some (mkTask [] Example.genesisState (Example.block 100) 0).
Proof.
  refine (proj2 (proj2 (proj2 (@clearPending_prunes_from_distance_7 Example.externals
    (mkWorkLoop
       (set_pendingTasks_newTxs Example.theWorker
          {[1%N := mkTask [] Example.genesisState (Example.block 100) 0]} 0)
       None second second 0 ∅ [] None)
    0 (Example.block 107) 1%N (mkTask [] Example.genesisState (Example.block 100) 0) _ _))
    106) _).
  - apply lookup_singleton_eq.
  - vm_compute. reflexivity.
  - vm_compute. reflexivity.
Defined.

(** ** The pacing controller *)

Section Pacing.
Context `{Externals}.

Lemma wrap64_small (z : Z) : Int.is_int64 z -> Int.wrap64 z = z.
Proof.
  unfold Int.is_int64, Int.wrap64. intros Hz. rewrite Z.mod_small by lia. lia.
Qed.

(** The block interval in seconds that [timeIt] works with. *)
Lemma timeIt_seconds (blockInterval : Z) :
  Int.is_int64 blockInterval ->
  (if Int.quot64 blockInterval 1000 <=? 0 then 1 else Int.quot64 blockInterval 1000)
  = Z.max 1 (blockInterval ÷ 1000).
Proof.
  intros Hb. unfold Int.quot64.
  assert (Hq : Int.is_int64 (blockInterval ÷ 1000)).
  { unfold Int.is_int64 in *.
    destruct (Z.le_ge_cases 0 blockInterval) as [Hpos | Hneg].
    - pose proof (Z.quot_pos blockInterval 1000 Hpos ltac:(lia)).
      pose proof (Z.quot_le_upper_bound blockInterval 1000 (2 ^ 63 - 1) ltac:(lia) ltac:(lia)).
      lia.
    - pose proof (Z.quot_opp_l blockInterval 1000 ltac:(lia)) as Ho.
      pose proof (Z.quot_pos (- blockInterval) 1000 ltac:(lia) ltac:(lia)).
      pose proof (Z.quot_le_upper_bound (- blockInterval) 1000 (2 ^ 63) ltac:(lia) ltac:(lia)).
      lia. }
  rewrite (wrap64_small _ Hq).
  destruct (Z.leb_spec (blockInterval ÷ 1000) 0); lia.
Qed.

(** C8: the timestamp [timeIt] returns is the current unix time in seconds,
    or the parent block's number when that is larger, whatever the offset
    (behind, ahead or on schedule) and whatever the interval; the time is
    taken after the epoch and the block number fits [uint64]. *)
Theorem timeIt_timestamp (w : worker) (now : Time) (blockInterval : Z) :
  0 <= now < 2 ^ 63 ->
  0 <= b_Number (CurrentBlock (chain w)) < 2 ^ 64 ->
  fst (timeIt w now blockInterval)
  = Z.max (now / 1000000000) (b_Number (CurrentBlock (chain w))).
Proof.
  intros Hnow Hnum. unfold timeIt. cbv zeta.
  match goal with |- context [let '(_, _) := ?x in _] => destruct x as [offset ahead] end.
  cbn [fst].
  assert (Hs : 0 <= now / 1000000000 < 2 ^ 64).
  { split; [apply Z.div_pos; lia | ].
    apply Z.div_lt_upper_bound; lia. }
  unfold Int.wrapU64. rewrite !Z.mod_small by lia.
  destruct (Z.ltb_spec (now / 1000000000) (b_Number (CurrentBlock (chain w)))); lia.
Qed.

(** C9: [timeIt] turns the configured interval into seconds with a truncating
    division by 1000 and takes 1 second when the quotient is zero or
    negative; so every interval below 1000 ms gives the timestamp and the
    deadline that an interval of 1000 ms gives. *)
Theorem timeIt_interval_in_seconds (w : worker) (now : Time) (blockInterval : Z) :
  Int.is_int64 blockInterval ->
  timeIt w now blockInterval = timeIt w now (1000 * Z.max 1 (blockInterval ÷ 1000)) /\
  (blockInterval < 1000 -> timeIt w now blockInterval = timeIt w now 1000).
Proof.
  intros Hb.
  assert (Hq : 1000 * (blockInterval ÷ 1000) < 2 ^ 63).
  { destruct Hb as [_ Hb]. destruct (Z.le_ge_cases 0 blockInterval) as [Hpos | Hneg].
    - pose proof (Z.mul_quot_le blockInterval 1000 Hpos ltac:(lia)). lia.
    - pose proof (Z.quot_opp_l blockInterval 1000 ltac:(lia)) as Ho.
      pose proof (Z.quot_pos (- blockInterval) 1000 ltac:(lia) ltac:(lia)). lia. }
  assert (Hgen : timeIt w now blockInterval
                 = timeIt w now (1000 * Z.max 1 (blockInterval ÷ 1000))).
  { unfold timeIt. cbv zeta. rewrite (timeIt_seconds blockInterval Hb).
    rewrite (timeIt_seconds (1000 * Z.max 1 (blockInterval ÷ 1000)))
      by (unfold Int.is_int64; lia).
    replace (1000 * Z.max 1 (blockInterval ÷ 1000) ÷ 1000)
      with (Z.max 1 (blockInterval ÷ 1000))
      by (rewrite Z.mul_comm, Z.quot_mul; lia).
    rewrite (Z.max_r 1 (Z.max 1 (blockInterval ÷ 1000))) by lia. reflexivity. }
  split; [exact Hgen | ].
  intros Hlt. rewrite Hgen. f_equal.
  assert (blockInterval ÷ 1000 <= 0); [ | lia].
  destruct (Z.le_ge_cases 0 blockInterval) as [Hpos | Hneg].
  - rewrite Z.quot_small; lia.
  - pose proof (Z.quot_opp_l blockInterval 1000 ltac:(lia)) as Ho.
    pose proof (Z.quot_pos (- blockInterval) 1000 ltac:(lia) ltac:(lia)). lia.
Qed.
End Pacing.

Lemma timeIt_timestamp_witness :
  fst (@timeIt Example.externals Example.theWorker (1700000000 * second + 5) 1000)
  = Z.max 1700000000 100.
Proof.
  refine (@timeIt_timestamp Example.externals Example.theWorker (1700000000 * second + 5)
            1000 _ _).
  - unfold second. lia.
  - vm_compute. split; [discriminate | reflexivity].
Defined.

Lemma timeIt_interval_in_seconds_witness :
  @timeIt Example.externals Example.theWorker (1700000000 * second + 5) 500
  = @timeIt Example.externals Example.theWorker (1700000000 * second + 5) 1000.
Proof.
  refine (proj2 (@timeIt_interval_in_seconds Example.externals Example.theWorker
                   (1700000000 * second + 5) 500 _) _).
  - unfold Int.is_int64. lia.
  - lia.
Defined.

(** ** The pending snapshot *)

Section Snapshot.

(** After [updateSnapshot] the snapshot pointer is never dangling. *)
Lemma updateSnapshot_points (w : worker) (heap : gmap N StateDB) (env : environment) :
  exists p, snapshotState (fst (updateSnapshot w heap env)) = Some p /\
            snd (updateSnapshot w heap env) !! p = Some (State.Copy (state env)).
Proof.
  exists (fresh (dom heap)). split; [reflexivity | ]. simpl. apply lookup_insert_eq.
Qed.

(** C10: without a published snapshot [pending] returns [(nil, nil)].  With
    one, it returns the snapshot block and a pointer to a newly allocated
    copy of the snapshot state: the pointer is not the worker's and was not
    in use, the copy has the content of the snapshot state, and whatever the
    caller writes through the pointer, the worker's snapshot triple (block,
    receipts, state) stays what it was. *)
Theorem pending_returns_fresh_copy (w : worker) (heap : gmap N StateDB) :
  (snapshotState w = None -> pending w heap = Some (None, None, heap)) /\
  (forall (p : N) (s : StateDB),
      snapshotState w = Some p -> heap !! p = Some s ->
      exists q : N,
        pending w heap = Some (snapshotBlock w, Some q, <[q := State.Copy s]> heap) /\
        (q ∉ dom heap) /\ q <> p /\
        content (State.Copy s) = content s /\
        forall s' : StateDB,
          snapshot w (<[q := s']> (<[q := State.Copy s]> heap)) = snapshot w heap).
Proof.
  split.
  - intros Hnil. unfold pending. rewrite Hnil. reflexivity.
  - intros p s Hp Hs. exists (fresh (dom heap)).
    pose proof (is_fresh (dom heap)) as Hfresh.
    assert (Hne : fresh (dom heap) <> p).
    { intros Heq. apply Hfresh. rewrite Heq. apply elem_of_dom. eauto. }
    split_and!; try done.
    + unfold pending. rewrite Hp, Hs. reflexivity.
    + intros s'. unfold snapshot. rewrite Hp. simpl.
      rewrite !lookup_insert_ne by done. reflexivity.
Qed.
End Snapshot.

Lemma pending_returns_fresh_copy_witness :
  exists q : N,
    pending (fst Example.published) (snd Example.published)
    = Some (snapshotBlock (fst Example.published), Some q,
            <[q := State.Copy (State.Copy Example.genesisState)]> (snd Example.published)).
Proof.
  destruct (proj2 (pending_returns_fresh_copy (fst Example.published) (snd Example.published))
              (fresh (dom (∅ : gmap N StateDB))) (State.Copy Example.genesisState)
              eq_refl (lookup_insert_eq _ _ _)) as (q & Hq & _).
  exists q. exact Hq.
Defined.

(** ** Applying one transaction *)

Section Commit.
Context `{Externals}.

Lemma search_app (revs rest : list (Z * StateContent)) (id : Z) (c : StateContent) :
  Forall (fun i => i < id) (map fst revs) ->
  State.search (revs ++ (id, c) :: rest) id = length revs.
Proof.
  induction revs as [ | [i c'] revs IH]; simpl; intros Hlt.
  - rewrite Z.leb_refl. reflexivity.
  - inversion Hlt as [ | ? ? Hi Hrest]; subst.
    destruct (Z.leb_spec id i); [lia | ]. f_equal. apply IH. exact Hrest.
Qed.

Lemma Snapshot_wf (s : StateDB) : wf_db s -> wf_db (snd (State.Snapshot s)).
Proof.
  intros [Hsorted Hbelow]. unfold wf_db. simpl. rewrite map_app. simpl. split.
  - clear - Hsorted Hbelow.
    induction (map fst (validRevisions s)) as [ | i ids IH]; simpl.
    + repeat constructor.
    + inversion Hsorted; subst. inversion Hbelow; subst.
      constructor; [apply IH; assumption | ].
      apply Forall_app. split; [assumption | ]. constructor; [assumption | constructor].
  - apply Forall_app. split.
    + eapply Forall_impl; [exact Hbelow | ]. simpl. intros. lia.
    + constructor; [lia | constructor].
Qed.

(** Reverting to a snapshot after journalled operations restores the content
    and the revisions of the time the snapshot was taken. *)
Lemma RevertToSnapshot_restores (s s' : StateDB) :
  wf_db s -> journal_extends (snd (State.Snapshot s)) s' ->
  exists s'', State.RevertToSnapshot s' (fst (State.Snapshot s)) = Some s'' /\
              content s'' = content s /\
              validRevisions s'' = validRevisions s /\
              wf_db s''.
Proof.
  intros [Hsorted Hbelow] (Hwf' & [extra Hextra] & Hnext). simpl in *.
  unfold State.RevertToSnapshot. rewrite Hextra, <- app_assoc. simpl.
  rewrite (search_app _ _ _ _ Hbelow).
  rewrite lookup_app_r by lia. rewrite Nat.sub_diag. simpl. rewrite Z.eqb_refl.
  eexists. split; [reflexivity | ]. simpl.
  rewrite take_app_length. split_and!; try reflexivity.
  split; simpl; [exact Hsorted | ].
  eapply Forall_impl; [exact Hbelow | ]. simpl. intros. lia.
Qed.

(** What [commitTransaction] does on each result of [core.ApplyTransaction]. *)
Lemma commitTransaction_cases (w : worker) (env : environment) (tx : Transaction) :
  journalled -> wf_db (state env) ->
  exists env',
    wf_db (state env') /\
    (is_Some (gasPool env) -> is_Some (gasPool env')) /\
    till env' = till env /\
    match a_result (ApplyTransaction (chainConfig w) (chain w) (coinbase env) (gasPool env)
                      (snd (State.Snapshot (state env))) (header env) tx) with
    | inl err =>
        commitTransaction w env tx = Some (env', inl err) /\
        content (state env') = content (state env) /\
        validRevisions (state env') = validRevisions (state env) /\
        txs env' = txs env /\ receipts env' = receipts env
    | inr receipt =>
        commitTransaction w env tx = Some (env', inr (r_Logs receipt)) /\
        txs env' = txs env ++ [tx] /\ receipts env' = receipts env ++ [receipt]
    end.
Proof.
  intros Hj Hwf. unfold commitTransaction.
  pose proof (Hj (chainConfig w) (chain w) (coinbase env) (gasPool env)
                (snd (State.Snapshot (state env))) (header env) tx
                (Snapshot_wf _ Hwf)) as Hext.
  destruct (State.Snapshot (state env)) as [snap st] eqn:Hsnap.
  change st with (snd (snap, st)) in Hext |- *. rewrite <- Hsnap in Hext |- *.
  set (r := ApplyTransaction _ _ _ _ _ _ _) in *.
  destruct (a_result r) as [err | receipt] eqn:Hres.
  - destruct (RevertToSnapshot_restores _ _ Hwf Hext) as (s'' & Hrev & Hc & Hv & Hwf'').
    rewrite Hsnap in Hrev. cbn [fst] in Hrev. cbn [state set_state set_gasPool set_header].
    rewrite Hrev. eexists. split_and!; only 4: reflexivity; try assumption; try reflexivity.
    cbn. intros [g Hg]. rewrite Hg. cbn. eauto.
  - eexists. split_and!; only 4: reflexivity; try reflexivity.
    + cbn. apply Hext.
    + cbn. intros [g Hg]. rewrite Hg. cbn. eauto.
Qed.

(** C1: when [core.ApplyTransaction] returns an error, [commitTransaction]
    returns it with the state back at the snapshot taken just before the
    attempt (the content and the revisions are those of before) and with
    [env.txs] and [env.receipts] unchanged; when it succeeds, the transaction
    and its receipt are appended.  The state database is well formed and
    [core.ApplyTransaction] changes it through its journal. *)
Theorem commitTransaction_reverts_on_error (w : worker) (env : environment)
    (tx : Transaction) :
  journalled -> wf_db (state env) ->
  match a_result (ApplyTransaction (chainConfig w) (chain w) (coinbase env) (gasPool env)
                    (snd (State.Snapshot (state env))) (header env) tx) with
  | inl err =>
      exists env',
        commitTransaction w env tx = Some (env', inl err) /\
        content (state env') = content (state env) /\
        validRevisions (state env') = validRevisions (state env) /\
        txs env' = txs env /\ receipts env' = receipts env
  | inr receipt =>
      exists env',
        commitTransaction w env tx = Some (env', inr (r_Logs receipt)) /\
        txs env' = txs env ++ [tx] /\ receipts env' = receipts env ++ [receipt]
  end.
Proof.
  intros Hj Hwf.
  destruct (commitTransaction_cases w env tx Hj Hwf) as (env' & _ & _ & _ & Hcase).
  destruct (a_result _); exists env'; exact Hcase.
Qed.
End Commit.

(** ** The committer loops *)

Lemma reaches_inv {S : Type} (round : S -> flow S) (c c'' : S) :
  reaches round c c'' ->
  c'' = c \/ exists c', round c = Continue c' /\ reaches round c' c''.
Proof. intros [c0 | c0 c1 c2 Hstep Hrest]; eauto. Qed.

Section Loops.
Context `{Externals} {Q : Type} `{TxQueue Q}.
Variables (w : worker) (interrupt : option (nat -> Z)) (tstart : option Time)
  (clock : nat -> Time) (gasLimit : Z).

(** A round can start: the state database is well formed and the
    environment has its gas pool. *)
Local Abbreviation ready c := (wf_db (state (c_env c)) /\ is_Some (gasPool (c_env c))).

(** The number of transactions and of receipts agree. *)
Local Abbreviation balanced env := (length (txs env) = length (receipts env)).

Lemma interruptCheck_cases (c : committer Q) :
  write_once interrupt ->
  match interruptCheck interrupt gasLimit c with
  | (c', None) =>
      c_env c' = c_env c /\ c_txs c' = c_txs c /\
      c_committedTxs c' = c_committedTxs c /\
      forall load, interrupt = Some load -> load (c_loads c) = commitInterruptNone
  | (_, Some (Return b c')) =>
      c_env c' = c_env c /\
      exists load, interrupt = Some load /\ load (c_loads c) <> commitInterruptNone /\
                   b = (load (c_loads c) =? commitInterruptNewHead)
  | (_, Some Panic) => gasPool (c_env c) = None
  | (_, Some _) => False
  end.
Proof.
  intros Hwo. unfold interruptCheck. destruct interrupt as [load | ]; [ | by split_and!].
  destruct (Z.eqb_spec (load (c_loads c)) commitInterruptNone) as [Hz | Hnz]; cbn [negb].
  - split_and!; try reflexivity. intros ? [= <-]. exact Hz.
  - assert (H2 : load (S (S (c_loads c))) = load (c_loads c))
      by (apply (Hwo load eq_refl); [lia | exact Hnz]).
    rewrite H2.
    destruct (load (S (c_loads c)) =? commitInterruptResubmit);
      [destruct (gasPool (c_env c)); [ | reflexivity] | ];
      (split; [reflexivity | exists load; split_and!; done]).
Qed.

Lemma dispatch_cases (c : committer Q) (env : environment) (res : error + list Log) :
  exists c', dispatch c env res = Continue c' /\
             (remaining (c_txs c') <= pred (remaining (c_txs c)))%nat /\
             state (c_env c') = state env /\ gasPool (c_env c') = gasPool env /\
             txs (c_env c') = txs env /\ receipts (c_env c') = receipts env /\
             c_loads c' = c_loads c.
Proof.
  unfold dispatch. destruct res as [[ | | | | msg] | logs]; eexists;
    (split; [reflexivity | ]); cbn;
    split_and!; try reflexivity; first [apply Pop_remaining | apply Shift_remaining].
Qed.

Lemma commitTransaction_balanced (env env' : environment) (tx : Transaction)
    (res : error + list Log) :
  commitTransaction w env tx = Some (env', res) -> balanced env -> balanced env'.
Proof.
  unfold commitTransaction. destruct (State.Snapshot (state env)) as [snap st].
  destruct (a_result _) as [err | receipt].
  - destruct (State.RevertToSnapshot _ _); [ | discriminate].
    intros [= <- <-]. cbn. tauto.
  - intros [= <- <-]. cbn. rewrite !length_app. simpl. lia.
Qed.

Lemma execute_balanced (c : committer Q) (tx : Transaction) :
  balanced (c_env c) ->
  match execute w c tx with
  | Continue c' | Break c' | Return _ c' => balanced (c_env c')
  | Panic => True
  end.
Proof.
  intros Hb. unfold execute.
  destruct (tx_protected tx && negb (IsEIP155 (chainConfig w) (Number (header (c_env c)))));
    [exact Hb | ].
  destruct (commitTransaction w _ tx) as [[env' res] | ] eqn:Hc; [ | exact I].
  apply commitTransaction_balanced in Hc; [ | exact Hb].
  destruct (dispatch_cases c env' res) as (c' & -> & _ & _ & _ & Ht & Hr & _).
  rewrite Ht, Hr. exact Hc.
Qed.

Lemma execute_cases (c : committer Q) (tx : Transaction) :
  journalled -> ready c ->
  exists c', execute w c tx = Continue c' /\ ready c' /\
             (remaining (c_txs c') <= pred (remaining (c_txs c)))%nat /\
             c_loads c' = c_loads c.
Proof.
  intros Hj [Hwf Hgas]. unfold execute.
  destruct (tx_protected tx && negb (IsEIP155 (chainConfig w) (Number (header (c_env c))))).
  - eexists. split; [reflexivity | ]. cbn. split_and!; try done. apply Pop_remaining.
  - set (env := set_state (c_env c) _).
    assert (Hwf1 : wf_db (state env)) by exact Hwf.
    destruct (commitTransaction_cases w env tx Hj Hwf1) as (env' & Hwf' & Hgas' & _ & Hcase).
    assert (Hres : exists res, commitTransaction w env tx = Some (env', res)).
    { destruct (a_result _); destruct Hcase as [-> _]; eauto. }
    destruct Hres as [res ->].
    destruct (dispatch_cases c env' res) as (c' & -> & Hrem & Hs & Hg & _ & _ & Hl).
    exists c'. split; [reflexivity | ]. rewrite Hs, Hg. split_and!; try done.
    apply Hgas'. exact Hgas.
Qed.

Lemma interruptCheck_env (c : committer Q) :
  match interruptCheck interrupt gasLimit c with
  | (c', None) | (_, Some (Return _ c')) =>
      c_env c' = c_env c /\ c_txs c' = c_txs c /\ c_committedTxs c' = c_committedTxs c
  | (_, Some Panic) => True
  | (_, Some _) => False
  end.
Proof.
  unfold interruptCheck. destruct interrupt as [load | ]; [ | done].
  destruct (negb _); [ | done].
  destruct (_ =? commitInterruptResubmit); [destruct (gasPool (c_env c)) | ]; done.
Qed.

Lemma deadlinePassed_cases (c : committer Q) :
  c_env (snd (deadlinePassed tstart clock c)) = c_env c /\
  c_txs (snd (deadlinePassed tstart clock c)) = c_txs c /\
  c_committedTxs (snd (deadlinePassed tstart clock c)) = c_committedTxs c /\
  c_loads (snd (deadlinePassed tstart clock c)) = c_loads c.
Proof.
  unfold deadlinePassed. destruct tstart; [destruct (till (c_env c)) | ]; done.
Qed.

(** What a round of either loop is known to do. *)
Local Abbreviation progress round c :=
  (match round c with
   | Continue c' =>
       ready c' /\ lt (remaining (c_txs c')) (remaining (c_txs c)) /\
       forall load, interrupt = Some load -> load (c_loads c) = commitInterruptNone
   | Break c' =>
       forall load, interrupt = Some load -> load (c_loads c) = commitInterruptNone
   | Return b c' =>
       exists load, interrupt = Some load /\ load (c_loads c) <> commitInterruptNone /\
                    b = (load (c_loads c) =? commitInterruptNewHead)
   | Panic => False
   end).

Local Abbreviation keeps_balance round c :=
  (match round c with
   | Continue c' | Break c' | Return _ c' => balanced (c_env c')
   | Panic => True
   end).

Lemma commitTransactions_round_progress (c : committer Q) :
  journalled -> write_once interrupt -> ready c ->
  progress (commitTransactions_round w interrupt tstart clock gasLimit) c.
Proof.
  intros Hj Hwo [Hwf Hgas]. unfold commitTransactions_round.
  pose proof (interruptCheck_cases c Hwo) as Hic.
  destruct (interruptCheck interrupt gasLimit c) as [c1 [[c' | c' | b c' | ] | ]]; try done.
  - apply Hic.
  - rewrite Hic in Hgas. destruct Hgas; discriminate.
  - destruct Hic as (He & Ht & _ & Hload).
    rewrite He. destruct Hgas as [gas Hgas]. rewrite Hgas.
    destruct (gas <? TxGas); [exact Hload | ].
    destruct (Peek (c_txs c1)) as [tx | ] eqn:Hpeek; [ | exact Hload].
    destruct ((0 <? MaxTxsPerBlock) && (MaxTxsPerBlock <=? tcount (c_env c)));
      [exact Hload | ].
    pose proof (deadlinePassed_cases c1) as (Hde & Hdt & _ & _).
    destruct (deadlinePassed tstart clock c1) as [late c2]. cbn [snd] in *.
    destruct (late && _); [exact Hload | ].
    set (c3 := with_committedTxs c2 _).
    assert (Hready : ready c3).
    { cbn. rewrite Hde, He, Hgas. split; [exact Hwf | eauto]. }
    destruct (execute_cases c3 tx Hj Hready) as (c' & -> & Hready' & Hrem & _).
    split; [exact Hready' | split; [ | exact Hload]].
    cbn in Hrem. rewrite Hdt in Hrem. apply Peek_remaining in Hpeek. rewrite <- Ht. lia.
Qed.

Lemma commitTransactions_round_balanced (c : committer Q) :
  balanced (c_env c) ->
  keeps_balance (commitTransactions_round w interrupt tstart clock gasLimit) c.
Proof.
  intros Hb. unfold commitTransactions_round.
  pose proof (interruptCheck_env c) as Hic.
  destruct (interruptCheck interrupt gasLimit c) as [c1 [[c' | c' | b c' | ] | ]]; try done.
  - destruct Hic as [-> _]. exact Hb.
  - destruct Hic as (He & _). rewrite He.
    destruct (gasPool (c_env c)) as [gas | ]; [ | exact I].
    destruct (gas <? TxGas); [by rewrite He | ].
    destruct (Peek (c_txs c1)) as [tx | ]; [ | by rewrite He].
    destruct ((0 <? MaxTxsPerBlock) && (MaxTxsPerBlock <=? tcount (c_env c)));
      [by rewrite He | ].
    pose proof (deadlinePassed_cases c1) as (Hde & _).
    destruct (deadlinePassed tstart clock c1) as [late c2]. cbn [snd] in *.
    destruct (late && _); [by rewrite Hde, He | ].
    apply execute_balanced. cbn. by rewrite Hde, He.
Qed.

Section Loop.
Variable round : committer Q -> flow (committer Q).

(** Some round started in a state where the interrupt read [NewHead]. *)
Local Abbreviation new_head_seen c :=
  (exists load c', interrupt = Some load /\ reaches round c c' /\
                   load (c_loads c') = commitInterruptNewHead).

Lemma loop_new_head :
  (forall c, ready c -> progress round c) ->
  forall (fuel : nat) (c : committer Q),
    ready c -> (remaining (c_txs c) < fuel)%nat ->
    exists out, loop round fuel c = Done out /\
                match out with
                | Return b _ => b = true <-> new_head_seen c
                | Break _ => ~ new_head_seen c
                | _ => False
                end.
Proof.
  intros Hround. induction fuel as [ | fuel IH]; intros c Hready Hfuel; [lia | ].
  specialize (Hround c Hready). simpl.
  destruct (round c) as [c' | c' | b c' | ] eqn:Hr; [ | | | done].
  - destruct Hround as (Hready' & Hrem & Hload).
    destruct (IH c' Hready' ltac:(lia)) as (out & Hout & Hseen).
    exists out. split; [exact Hout | ].
    assert (Hiff : new_head_seen c <-> new_head_seen c').
    { split.
      - intros (load & c'' & Hi & Hreach & Hv).
        destruct (reaches_inv _ _ _ Hreach) as [-> | (c1 & Hstep & Hrest)].
        + rewrite (Hload load Hi) in Hv. discriminate Hv.
        + rewrite Hr in Hstep. injection Hstep as <-. by exists load, c''.
      - intros (load & c'' & Hi & Hreach & Hv). exists load, c''.
        split_and!; try done. by eapply reaches_step. }
    destruct out; try done; by rewrite Hiff.
  - exists (Break c'). split; [reflexivity | ].
    intros (load & c'' & Hi & Hreach & Hv).
    destruct (reaches_inv _ _ _ Hreach) as [-> | (c1 & Hstep & Hrest)].
    + rewrite (Hround load Hi) in Hv. discriminate Hv.
    + rewrite Hr in Hstep. discriminate Hstep.
  - exists (Return b c'). split; [reflexivity | ].
    destruct Hround as (load & Hi & Hnz & ->). split.
    + intros Hb. apply Z.eqb_eq in Hb. exists load, c. split_and!; try done. constructor.
    + intros (load' & c'' & Hi' & Hreach & Hv).
      destruct (reaches_inv _ _ _ Hreach) as [-> | (c1 & Hstep & Hrest)].
      * rewrite Hi in Hi'. injection Hi' as <-. rewrite Hv. reflexivity.
      * rewrite Hr in Hstep. discriminate Hstep.
Qed.

Lemma loop_balanced :
  (forall c, balanced (c_env c) -> keeps_balance round c) ->
  forall (fuel : nat) (c : committer Q) (out : flow (committer Q)),
    balanced (c_env c) -> loop round fuel c = Done out ->
    match out with
    | Continue c' | Break c' | Return _ c' => balanced (c_env c')
    | Panic => True
    end.
Proof.
  intros Hround. induction fuel as [ | fuel IH]; intros c out Hb; simpl; [discriminate | ].
  specialize (Hround c Hb).
  destruct (round c) as [c' | c' | b c' | ]; try discriminate.
  - apply IH. exact Hround.
  - intros [= <-]. exact Hround.
  - intros [= <-]. exact Hround.
Qed.
End Loop.

Lemma afterLoop_env (c : committer Q) : c_env (afterLoop w interrupt c) = c_env c.
Proof.
  unfold afterLoop. destruct (negb (running w) && _); destruct interrupt; reflexivity.
Qed.

Context `{!TxOrdering Q}.

Lemma commitTransactionsSimple_round_progress (c : committer Q) :
  journalled -> write_once interrupt -> ready c ->
  progress (commitTransactionsSimple_round w interrupt tstart clock gasLimit) c.
Proof.
  intros Hj Hwo [Hwf Hgas]. unfold commitTransactionsSimple_round.
  pose proof (interruptCheck_cases c Hwo) as Hic.
  destruct (interruptCheck interrupt gasLimit c) as [c1 [[c' | c' | b c' | ] | ]]; try done.
  - apply Hic.
  - rewrite Hic in Hgas. destruct Hgas; discriminate.
  - destruct Hic as (He & Ht & _ & Hload).
    rewrite He. destruct Hgas as [gas Hgas]. rewrite Hgas.
    destruct (gas <? TxGas); [exact Hload | ].
    destruct (Peek (c_txs c1)) as [tx | ] eqn:Hpeek; [ | exact Hload].
    pose proof (deadlinePassed_cases c1) as (Hde & Hdt & _ & _).
    destruct (deadlinePassed tstart clock c1) as [late c2]. cbn [snd] in *.
    destruct (late && _); [exact Hload | ].
    set (c3 := with_txs c2 _).
    assert (Hready : ready c3).
    { cbn. rewrite Hde, He, Hgas. split; [exact Hwf | eauto]. }
    destruct (execute_cases c3 tx Hj Hready) as (c' & -> & Hready' & Hrem & _).
    split; [exact Hready' | split; [ | exact Hload]].
    cbn in Hrem. rewrite MarkCommitted_remaining, Hdt in Hrem.
    apply Peek_remaining in Hpeek. rewrite <- Ht. lia.
Qed.

Lemma commitTransactionsSimple_round_balanced (c : committer Q) :
  balanced (c_env c) ->
  keeps_balance (commitTransactionsSimple_round w interrupt tstart clock gasLimit) c.
Proof.
  intros Hb. unfold commitTransactionsSimple_round.
  pose proof (interruptCheck_env c) as Hic.
  destruct (interruptCheck interrupt gasLimit c) as [c1 [[c' | c' | b c' | ] | ]]; try done.
  - destruct Hic as [-> _]. exact Hb.
  - destruct Hic as (He & _). rewrite He.
    destruct (gasPool (c_env c)) as [gas | ]; [ | exact I].
    destruct (gas <? TxGas); [by rewrite He | ].
    destruct (Peek (c_txs c1)) as [tx | ]; [ | by rewrite He].
    pose proof (deadlinePassed_cases c1) as (Hde & _).
    destruct (deadlinePassed tstart clock c1) as [late c2]. cbn [snd] in *.
    destruct (late && _); [by rewrite Hde, He | ].
    apply execute_balanced. cbn. by rewrite Hde, He.
Qed.
End Loops.

Section Committers.
Context `{Externals} {Q : Type} `{TxQueue Q} `{!TxOrdering Q}.

Lemma initGasPool_ready (env : environment) :
  wf_db (state env) ->
  wf_db (state (initGasPool env)) /\ is_Some (gasPool (initGasPool env)).
Proof.
  intros Hwf. unfold initGasPool. destruct (gasPool env) eqn:Hg; cbn; rewrite ?Hg; eauto.
Qed.

(** C2: both committers return, and they return [true] exactly when a round
    of their loop started with the interrupt reading [NewHead] (1), which is
    when they leave through the interrupt check on a new head; on every
    other way out (gas pool exhausted, no more transactions, transaction
    limit, deadline, [Resubmit]) and without an interrupt they return
    [false].  The state database is well formed, [core.ApplyTransaction]
    changes it through its journal, and the interrupt is stored to once. *)
Theorem committers_return_true_iff_new_head (w : worker) (env : environment) (txs : Q)
    (interrupt : option (nat -> Z)) (tstart : option Time) (clock : nat -> Time)
    (committedTxs : option (gmap Hash Transaction)) :
  journalled -> wf_db (state env) -> write_once interrupt ->
  (exists b c,
      commitTransactions w env txs interrupt tstart clock committedTxs = Done (b, c) /\
      (b = true <->
       exists load c',
         interrupt = Some load /\
         reaches
           (commitTransactions_round w interrupt tstart clock (GasLimit (header env)))
           (mkCommitter (initGasPool env) txs committedTxs [] 0%nat 0%nat [] []) c' /\
         load (c_loads c') = commitInterruptNewHead)) /\
  (exists b c,
      commitTransactionsSimple w env txs interrupt tstart clock = Done (b, c) /\
      (b = true <->
       exists load c',
         interrupt = Some load /\
         reaches
           (commitTransactionsSimple_round w interrupt tstart clock (GasLimit (header env)))
           (mkCommitter (initGasPool env)
              (tx_prefetch w (initGasPool env) txs PrefetchCount) None [] 0%nat 0%nat [] [])
           c' /\
         load (c_loads c') = commitInterruptNewHead)).
Proof.
  intros Hj Hwf Hwo. pose proof (initGasPool_ready env Hwf) as Hready. split.
  - unfold commitTransactions.
    edestruct (loop_new_head interrupt
                 (commitTransactions_round w interrupt tstart clock (GasLimit (header env)))
                 (fun c Hc => commitTransactions_round_progress w interrupt tstart clock _ c
                                Hj Hwo Hc)
                 (S (remaining txs))
                 (mkCommitter (initGasPool env) txs committedTxs [] 0%nat 0%nat [] []))
      as (out & -> & Hout); [exact Hready | cbn; lia | ].
    destruct out as [c | c | b c | ]; try done.
    + eexists _, _. split; [reflexivity | ]. split; [discriminate | ].
      intros Hseen. contradiction.
    + eexists _, _. split; [reflexivity | exact Hout].
  - unfold commitTransactionsSimple.
    edestruct (loop_new_head interrupt
                 (commitTransactionsSimple_round w interrupt tstart clock
                    (GasLimit (header env)))
                 (fun c Hc => commitTransactionsSimple_round_progress w interrupt tstart clock
                                _ c Hj Hwo Hc)
                 (S (remaining (tx_prefetch w (initGasPool env) txs PrefetchCount)))
                 (mkCommitter (initGasPool env)
                    (tx_prefetch w (initGasPool env) txs PrefetchCount) None [] 0%nat 0%nat
                    [] []))
      as (out & -> & Hout); [exact Hready | cbn; lia | ].
    destruct out as [c | c | b c | ]; try done.
    + eexists _, _. split; [reflexivity | ]. split; [discriminate | ].
      intros Hseen. contradiction.
    + eexists _, _. split; [reflexivity | exact Hout].
Qed.
End Committers.

(** ** Transactions and receipts go together *)

Section Balance.
Context `{Externals}.

Local Abbreviation balanced env := (length (txs env) = length (receipts env)).

Lemma commitUncle_txs (w : worker) (env : environment) (uncle : Header) :
  txs (fst (commitUncle w env uncle)) = txs env /\
  receipts (fst (commitUncle w env uncle)) = receipts env.
Proof.
  unfold commitUncle.
  repeat match goal with |- context [if ?b then _ else _] => destruct b end; done.
Qed.

Lemma commitUncles_txs (w : worker) (blocks : list (Hash * Block)) (env : environment) :
  txs (commitUncles w env blocks) = txs env /\
  receipts (commitUncles w env blocks) = receipts env.
Proof.
  revert env. induction blocks as [ | [hash uncle] blocks IH]; intros env; simpl; [done | ].
  destruct (bool_decide _); [done | ].
  destruct (IH (fst (commitUncle w env (b_header uncle)))) as [-> ->].
  apply commitUncle_txs.
Qed.

Lemma fold_left_preserves {A B : Type} (P : A -> Prop) (f : A -> B -> A) (l : list B) :
  (forall a b, P a -> P (f a b)) -> forall a, P a -> P (fold_left f l a).
Proof.
  intros Hf. induction l as [ | b l IH]; intros a Ha; simpl; [exact Ha | ].
  apply IH, Hf, Ha.
Qed.

Lemma makeEnv_empty (w : worker) (parent : Block) (header : Header) (coinbase : Address)
    (env : environment) :
  makeEnv w parent header coinbase = inr env -> txs env = [] /\ receipts env = [].
Proof.
  unfold makeEnv. destruct (match StateAt _ _ with inl _ => _ | inr _ => _ end) as [err | st];
    [discriminate | ].
  intros [= <-]. cbn [txs receipts set_tcount].
  apply (fold_left_preserves (fun e => txs e = [] /\ receipts e = [])); [ | done].
  intros e b He. cbn [txs receipts set_ancestors set_family].
  apply (fold_left_preserves (fun e => txs e = [] /\ receipts e = [])); [ | exact He].
  intros e' u He'. exact He'.
Qed.

Lemma prepareWork_empty (w : worker) (now : Time) (genParams : generateParams)
    (env : environment) :
  prepareWork w now genParams = inr env -> txs env = [] /\ receipts env = [].
Proof.
  unfold prepareWork.
  destruct (if bool_decide _ then _ else _) as [parent | ]; [ | discriminate].
  destruct (GetBlockBuildParameters _) as [[[bi bgl] rate] pct].
  destruct (_ && gp_forceTime genParams); [discriminate | ].
  destruct (if negb IsPoW then _ else _) as [timestamp till].
  destruct (Prepare _ _ _) as [header [err | ]]; [discriminate | ].
  destruct (makeEnv w parent header (gp_coinbase genParams)) as [err | env0] eqn:Hmake;
    [discriminate | ].
  apply makeEnv_empty in Hmake. destruct Hmake as [Ht Hr].
  set (env1 := set_buildParameters _ _ _ _ _).
  assert (H1 : txs env1 = [] /\ receipts env1 = []).
  { subst env1. destruct (negb IsPoW); cbn; done. }
  destruct (negb (gp_noUncle genParams)); intros [= <-]; [ | exact H1].
  destruct (commitUncles_txs w (remoteUncles w) (commitUncles w env1 (localUncles w)))
    as [-> ->].
  destruct (commitUncles_txs w (localUncles w) env1) as [-> ->]. exact H1.
Qed.

Lemma copy_balanced (env : environment) : balanced env -> balanced (copy env).
Proof.
  intros Hb. unfold copy, copyReceipts. destruct (gasPool env); cbn;
    rewrite length_take, length_map; lia.
Qed.

Lemma commitTransactions_balanced {Q : Type} `{TxQueue Q} (w : worker) (env : environment)
    (txs : Q) interrupt tstart clock committedTxs b c :
  balanced env ->
  commitTransactions w env txs interrupt tstart clock committedTxs = Done (b, c) ->
  balanced (c_env c).
Proof.
  intros Hb. unfold commitTransactions.
  destruct (loop _ _ _) as [out | | ] eqn:Hloop; try discriminate.
  apply (loop_balanced _
           (fun c Hc => commitTransactions_round_balanced w interrupt tstart clock _ c Hc))
    in Hloop.
  - destruct out as [c' | c' | b' c' | ]; try discriminate; intros [= <- <-];
      rewrite ?afterLoop_env; exact Hloop.
  - cbn. unfold initGasPool. destruct (gasPool env); exact Hb.
Qed.

Lemma commitTransactionsSimple_balanced {Q : Type} `{TxQueue Q} `{!TxOrdering Q}
    (w : worker) (env : environment) (txs : Q) interrupt tstart clock b c :
  balanced env ->
  commitTransactionsSimple w env txs interrupt tstart clock = Done (b, c) ->
  balanced (c_env c).
Proof.
  intros Hb. unfold commitTransactionsSimple.
  destruct (loop _ _ _) as [out | | ] eqn:Hloop; try discriminate.
  apply (loop_balanced _
           (fun c Hc => commitTransactionsSimple_round_balanced w interrupt tstart clock _ c
                          Hc))
    in Hloop.
  - destruct out as [c' | c' | b' c' | ]; try discriminate; intros [= <- <-]; cbn;
      rewrite ?afterLoop_env; exact Hloop.
  - cbn. unfold initGasPool. destruct (gasPool env); exact Hb.
Qed.

(** C3: every environment the worker can hold has as many transactions as
    receipts, and [environment.copy], [commitUncle] and [commitTransaction]
    (whether the transaction succeeds or fails) take such an environment to
    one that has, too. *)
Theorem reachable_txs_receipts (w : worker) (env : environment) :
  reachable w env ->
  length (txs env) = length (receipts env) /\
  length (txs (copy env)) = length (receipts (copy env)) /\
  (forall uncle : Header,
      length (txs (fst (commitUncle w env uncle)))
      = length (receipts (fst (commitUncle w env uncle)))) /\
  (forall (tx : Transaction) (env' : environment) (res : error + list Log),
      commitTransaction w env tx = Some (env', res) ->
      length (txs env') = length (receipts env')).
Proof.
  intros Hreach.
  assert (Hb : balanced env).
  { induction Hreach as [parent header coinbase env Hmake
                        | now genParams env Hprep
                        | env uncle Hreach IH
                        | env tx env' res Hreach IH Hcommit
                        | Q TQ env txs interrupt tstart clock committedTxs b c Hreach IH Hrun
                        | Q TQ TO env txs interrupt tstart clock b c Hreach IH Hrun
                        | env Hreach IH
                        | env Hreach IH ].
    - apply makeEnv_empty in Hmake. destruct Hmake as [-> ->]. reflexivity.
    - apply prepareWork_empty in Hprep. destruct Hprep as [-> ->]. reflexivity.
    - destruct (commitUncle_txs w env uncle) as [-> ->]. exact IH.
    - exact (commitTransaction_balanced w env env' tx res Hcommit IH).
    - exact (commitTransactions_balanced w env txs interrupt tstart clock committedTxs b c
               IH Hrun).
    - exact (commitTransactionsSimple_balanced w env txs interrupt tstart clock b c IH Hrun).
    - apply copy_balanced. exact IH.
    - exact IH. }
  split_and!.
  - exact Hb.
  - apply copy_balanced. exact Hb.
  - intros uncle. destruct (commitUncle_txs w env uncle) as [-> ->]. exact Hb.
  - intros tx env' res Hcommit. exact (commitTransaction_balanced w env env' tx res Hcommit Hb).
Qed.
End Balance.

(** ** The properties on the example chain *)

Lemma example_journalled : @journalled Example.externals.
Proof.
  intros cfg bc cb gp s h tx Hwf. unfold ApplyTransaction. simpl. unfold Example.apply.
  repeat match goal with |- context [if ?b then _ else _] => destruct b end;
    (split; [exact Hwf | split; [reflexivity | simpl; lia]]).
Qed.

Lemma example_wf_db : wf_db Example.genesisState.
Proof. split; constructor. Qed.

(** An interrupt that reads [NewHead] from the second load on. *)
Lemma example_write_once :
  write_once (Some (fun n : nat => if (n <? 1)%nat then 0 else commitInterruptNewHead)).
Proof.
  intros load [= <-] i j Hij Hi.
  destruct (Nat.ltb_spec i 1); [contradiction | ].
  destruct (Nat.ltb_spec j 1); [lia | reflexivity].
Qed.

Lemma commitTransaction_reverts_on_error_witness :
  exists env',
    @commitTransaction Example.externals Example.theWorker (initGasPool Example.env101)
      (Example.tx 5)
    = Some (env', inl ErrNonceTooHigh) /\
    content (state env') = content (state (initGasPool Example.env101)) /\
    validRevisions (state env') = validRevisions (state (initGasPool Example.env101)) /\
    txs env' = txs (initGasPool Example.env101) /\
    receipts env' = receipts (initGasPool Example.env101).
Proof.
  exact (@commitTransaction_reverts_on_error Example.externals Example.theWorker
           (initGasPool Example.env101) (Example.tx 5) example_journalled example_wf_db).
Defined.

Lemma committers_return_true_iff_new_head_witness :
  exists b c,
    @commitTransactions Example.externals Example.queue Example.queue_TxQueue
      Example.theWorker Example.env101 [[Example.tx 0; Example.tx 1]]
      (Some (fun n : nat => if (n <? 1)%nat then 0 else commitInterruptNewHead))
      None (fun _ => 0) None
    = Done (b, c) /\
    (b = true <->
     exists load c',
       Some (fun n : nat => if (n <? 1)%nat then 0 else commitInterruptNewHead) = Some load /\
       reaches
         (@commitTransactions_round Example.externals Example.queue Example.queue_TxQueue
            Example.theWorker
            (Some (fun n : nat => if (n <? 1)%nat then 0 else commitInterruptNewHead))
            None (fun _ => 0) (GasLimit (header Example.env101)))
         (mkCommitter (initGasPool Example.env101) [[Example.tx 0; Example.tx 1]] None []
            0%nat 0%nat [] []) c' /\
       load (c_loads c') = commitInterruptNewHead).
Proof.
  exact (proj1 (@committers_return_true_iff_new_head Example.externals Example.queue
                  Example.queue_TxQueue Example.queue_TxOrdering Example.theWorker
                  Example.env101 [[Example.tx 0; Example.tx 1]]
                  (Some (fun n : nat => if (n <? 1)%nat then 0 else commitInterruptNewHead))
                  None (fun _ => 0) None example_journalled example_wf_db
                  example_write_once)).
Defined.

(** [makeEnv] succeeds as soon as the chain has the state of the parent. *)
Lemma makeEnv_of_StateAt `{Externals} (w : worker) (parent : Block) (header : Header)
    (coinbase : Address) (s : StateDB) :
  StateAt (chain w) (b_Root parent) = inr s ->
  exists env, makeEnv w parent header coinbase = inr env.
Proof.
  intros Hs. unfold makeEnv. rewrite Hs. eexists. reflexivity.
Qed.

Lemma reachable_txs_receipts_witness :
  exists env,
    @makeEnv Example.externals Example.theWorker (Example.block 100)
      (Example.header 101 1600%N 0%N) 7%N = inr env /\
    length (txs env) = length (receipts env).
Proof.
  destruct (@makeEnv_of_StateAt Example.externals Example.theWorker (Example.block 100)
              (Example.header 101 1600%N 0%N) 7%N Example.genesisState eq_refl)
    as [env Hmake].
  exists env. split; [exact Hmake | ].
  exact (proj1 (@reachable_txs_receipts Example.externals Example.theWorker env
                  (reachable_makeEnv _ _ _ _ _ Hmake))).
Defined.

#[local] Set Warnings "-clear-no-such-hyp".
(** * Further properties of the worker *)

(** ** Copies of an environment *)

Section Copies.

Lemma map_fold_insert_all {A : Type} (m : gmap Hash A) :
  map_fold (fun hash x acc => <[hash := x]> acc) ∅ m = m.
Proof.
  apply (map_fold_weak_ind (fun r m => r = m)); [reflexivity | ].
  intros i x m' r _ ->. reflexivity.
Qed.

(** X1: [environment.copy] hands back the same signer, ancestors, family,
    transaction count, gas pool, coinbase, header, transactions, receipts
    and uncles, and a state with the same content; the state of the copy has
    no revision of the original left to revert to, and the copy does not
    carry the deadline [till] nor the build parameters, which are at their
    zero values. *)
Theorem copy_keeps_all_but_deadline (env : environment) :
  signer (copy env) = signer env /\
  ancestors (copy env) = ancestors env /\
  family (copy env) = family env /\
  tcount (copy env) = tcount env /\
  gasPool (copy env) = gasPool env /\
  coinbase (copy env) = coinbase env /\
  header (copy env) = header env /\
  txs (copy env) = txs env /\
  receipts (copy env) = receipts env /\
  uncles (copy env) = uncles env /\
  content (state (copy env)) = content (state env) /\
  validRevisions (state (copy env)) = [] /\
  till (copy env) = None /\
  (blockInterval (copy env), blockGasLimit (copy env), baseFeeMaxChangeRate (copy env),
   gasTargetPercentage (copy env)) = (0, 0, 0, 0).
Proof.
  unfold copy, copyReceipts. destruct (gasPool env) as [gas | ] eqn:Hgas; cbn;
    rewrite ?Hgas, firstn_all, map_id, map_fold_insert_all; split_and!; reflexivity.
Qed.
End Copies.

(** ** The uncles of a sealing block *)

Section UncleSet.
Context `{Externals}.

Lemma commitUncle_frame (w : worker) (env : environment) (uncle : Header) :
  header (fst (commitUncle w env uncle)) = header env /\
  ancestors (fst (commitUncle w env uncle)) = ancestors env /\
  family (fst (commitUncle w env uncle)) = family env /\
  till (fst (commitUncle w env uncle)) = till env /\
  state (fst (commitUncle w env uncle)) = state env.
Proof.
  unfold commitUncle.
  repeat match goal with |- context [if ?b then _ else _] => destruct b end; done.
Qed.

(** What an admitted uncle went through. *)
Lemma commitUncle_admitted (w : worker) (env env' : environment) (uncle : Header) :
  commitUncle w env uncle = (env', None) ->
  IsPoW = true /\ isTTDReached w (header env) = false /\
  uncles env !! (Header_Hash uncle) = None /\
  ParentHash (header env) <> ParentHash uncle /\
  ParentHash uncle ∈ ancestors env /\
  (Header_Hash uncle ∉ family env) /\
  env' = set_uncles env (<[Header_Hash uncle := uncle]> (uncles env)).
Proof.
  unfold commitUncle.
  destruct IsPoW; cbn [negb]; [ | discriminate].
  destruct (isTTDReached w (header env)); [discriminate | ].
  case_bool_decide as Hunique; [discriminate | ].
  case_bool_decide as Hsibling; [discriminate | ].
  case_bool_decide as Hparent; cbn [negb]; [ | discriminate].
  case_bool_decide as Hfamily; [discriminate | ].
  intros [= <-]. split_and!; try done.
  destruct (uncles env !! (Header_Hash uncle)) eqn:Hl; [ | reflexivity].
  exfalso. apply Hunique. eauto.
Qed.

(** X2: an uncle that [commitUncle] admitted is in the uncle set under its
    hash, the set has grown by one, and a header with the same hash offered
    again is refused as "uncle not unique" without any change. *)
Theorem commitUncle_refuses_second_time (w : worker) (env env' : environment)
    (uncle other : Header) :
  commitUncle w env uncle = (env', None) ->
  Header_Hash other = Header_Hash uncle ->
  uncles env' !! (Header_Hash uncle) = Some uncle /\
  size (uncles env') = S (size (uncles env)) /\
  commitUncle w env' other = (env', Some (ErrMsg "uncle not unique")).
Proof.
  intros Hc Hh. apply commitUncle_admitted in Hc.
  destruct Hc as (Hpow & Httd & Hnone & _ & _ & _ & ->). cbn [uncles set_uncles].
  split_and!.
  - apply lookup_insert_eq.
  - rewrite map_size_insert_None by exact Hnone. reflexivity.
  - unfold commitUncle. rewrite Hpow. cbn [negb header set_uncles]. rewrite Httd, Hh.
    cbn [uncles]. rewrite bool_decide_eq_true_2; [reflexivity | ].
    cbn [uncles set_uncles]. rewrite lookup_insert_eq. eauto.
Qed.

(** The uncles [commitUncles] may add to those of [env0]: headers of the
    given blocks, filed under their hash, whose parent is an ancestor other
    than the parent of the sealing block, and that are not in the family. *)
Local Abbreviation eligible w env0 blocks h u :=
  (h = Header_Hash u /\
   (exists hb : Hash * Block, hb ∈ blocks /\ b_header (snd hb) = u) /\
   ParentHash u ∈ ancestors env0 /\
   ParentHash (header env0) <> ParentHash u /\
   (h ∉ family env0) /\
   IsPoW = true /\ isTTDReached w (header env0) = false).

Lemma commitUncles_spec (w : worker) (blocks : list (Hash * Block)) (env : environment) :
  (size (uncles env) <= 2)%nat ->
  (size (uncles (commitUncles w env blocks)) <= 2)%nat /\
  header (commitUncles w env blocks) = header env /\
  ancestors (commitUncles w env blocks) = ancestors env /\
  family (commitUncles w env blocks) = family env /\
  till (commitUncles w env blocks) = till env /\
  uncles env ⊆ uncles (commitUncles w env blocks) /\
  forall h u, uncles (commitUncles w env blocks) !! h = Some u ->
              uncles env !! h = Some u \/ eligible w env blocks h u.
Proof.
  revert env. induction blocks as [ | [hash uncle] blocks IH]; intros env Hsize.
  - simpl. split_and!; try done. intros h u Hu. by left.
  - simpl. case_bool_decide as Hfull.
    + split_and!; try done. intros h u Hu. by left.
    + pose proof (commitUncle_frame w env (b_header uncle)) as (Hh & Ha & Hf & Ht & _).
      destruct (commitUncle w env (b_header uncle)) as [env1 [err | ]] eqn:Hc.
      * assert (Hsame : uncles env1 = uncles env).
        { revert Hc. unfold commitUncle.
          repeat match goal with |- context [if ?b then _ else _] => destruct b end;
            intros [= <- ?]; done. }
        cbn [fst] in *.
        destruct (IH env1) as (I1 & I2 & I3 & I4 & I5 & I6 & I7); [rewrite Hsame; lia | ].
        rewrite I2, I3, I4, I5, Hh, Ha, Hf, Ht. rewrite Hsame in I6.
        split_and!; try done.
        intros h u Hu. destruct (I7 h u Hu) as [Hold | Hnew].
        -- left. rewrite <- Hsame. exact Hold.
        -- right. rewrite Hh, Ha, Hf in Hnew.
           destruct Hnew as (E1 & (hb & Hin & E2) & E3).
           split; [exact E1 | split; [ | exact E3]]. exists hb. split; [ | exact E2].
           apply elem_of_cons. by right.
      * cbn [fst] in *. apply commitUncle_admitted in Hc.
        destruct Hc as (Hpow & Httd & Hnone & Hsib & Hpar & Hfam & Henv1).
        assert (Hu1 : uncles env1 = <[Header_Hash (b_header uncle) := b_header uncle]>
                                      (uncles env)) by (rewrite Henv1; reflexivity).
        destruct (IH env1) as (I1 & I2 & I3 & I4 & I5 & I6 & I7).
        { rewrite Hu1, map_size_insert_None by exact Hnone. lia. }
        rewrite I2, I3, I4, I5, Hh, Ha, Hf, Ht.
        split_and!; try done.
        -- etrans; [ | exact I6]. rewrite Hu1. apply insert_subseteq. exact Hnone.
        -- intros h u Hu. destruct (I7 h u Hu) as [Hold | Hnew].
           ++ rewrite Hu1 in Hold. apply lookup_insert_Some in Hold.
              destruct Hold as [[<- <-] | [_ Hold]]; [ | by left].
              right. split_and!; try done.
              exists (hash, uncle). split; [apply elem_of_cons; by left | reflexivity].
           ++ right. rewrite Hh, Ha, Hf in Hnew.
              destruct Hnew as (E1 & (hb & Hin & E2) & E3).
              split; [exact E1 | split; [ | exact E3]]. exists hb. split; [ | exact E2].
              apply elem_of_cons. by right.
Qed.

(** The fields [makeEnv] does not touch while it collects the ancestors. *)
Local Abbreviation same_fields e e0 :=
  (state e = state e0 /\ tcount e = tcount e0 /\ gasPool e = gasPool e0 /\
   coinbase e = coinbase e0 /\ header e = header e0 /\ txs e = txs e0 /\
   receipts e = receipts e0 /\ uncles e = uncles e0 /\ till e = till e0).

(** The ancestors and the family [makeEnv] collects from the blocks it is
    given by the chain. *)
Lemma makeEnv_fold (blocks : list Block) (env : environment) :
  let env' :=
    fold_left
      (fun env ancestor =>
         let env :=
           fold_left
             (fun env uncle => set_family env ({[Header_Hash uncle]} ∪ family env))
             (b_uncles ancestor) env in
         let env := set_family env ({[Block_Hash ancestor]} ∪ family env) in
         set_ancestors env ({[Block_Hash ancestor]} ∪ ancestors env))
      blocks env in
  ancestors env' = list_to_set (map Block_Hash blocks) ∪ ancestors env /\
  family env' =
    list_to_set (map Block_Hash blocks) ∪
    list_to_set (map Header_Hash (concat (map b_uncles blocks))) ∪ family env /\
  same_fields env' env.
Proof.
  revert env. induction blocks as [ | b blocks IH]; intros env; cbn zeta.
  - simpl. split_and!; try reflexivity; set_solver.
  - cbn [fold_left]. cbn zeta in IH.
    set (inner := fold_left _ (b_uncles b) env).
    assert (Hinner : family inner = list_to_set (map Header_Hash (b_uncles b)) ∪ family env /\
                     ancestors inner = ancestors env /\ same_fields inner env).
    { subst inner. generalize (b_uncles b). intros us. revert env.
      induction us as [ | u us IHus]; intros env; simpl.
      - split_and!; try reflexivity; set_solver.
      - destruct (IHus (set_family env ({[Header_Hash u]} ∪ family env)))
          as (-> & -> & Hsame).
        cbn [family set_family] in *. split_and!; try apply Hsame; try reflexivity.
        clear. set_solver. }
    destruct Hinner as (Hfam & Hanc & Hsame).
    match goal with |- context [fold_left ?f blocks ?e] =>
      destruct (IH e) as (-> & -> & Hsame') end.
    cbn [ancestors family set_ancestors set_family state tcount gasPool coinbase header txs
         receipts uncles till] in *.
    rewrite Hfam, Hanc. cbn [map concat]. rewrite map_app.
    split_and!; [clear; set_solver | clear; set_solver | ..];
      destruct Hsame as (? & ? & ? & ? & ? & ? & ? & ? & ?);
      destruct Hsame' as (? & ? & ? & ? & ? & ? & ? & ? & ?); congruence.
Qed.

Lemma makeEnv_spec (w : worker) (parent : Block) (header0 : Header) (cb : Address)
    (env : environment) :
  makeEnv w parent header0 cb = inr env ->
  let blocks := GetBlocksFromHash (chain w) (Block_Hash parent) 7 in
  ancestors env = list_to_set (map Block_Hash blocks) /\
  family env =
    list_to_set (map Block_Hash blocks) ∪
    list_to_set (map Header_Hash (concat (map b_uncles blocks))) /\
  header env = header0 /\ coinbase env = cb /\ tcount env = 0 /\ uncles env = ∅ /\
  gasPool env = None /\ till env = None /\ txs env = [] /\ receipts env = [] /\
  prefetching (state env) = true /\
  exists s, (StateAt (chain w) (b_Root parent) = inr s \/
             StateAtBlock (eth w) parent 1024 = inr s) /\
            content (state env) = content s.
Proof.
  unfold makeEnv.
  destruct (match StateAt _ _ with inl _ => _ | inr _ => _ end) as [err | st] eqn:Hst;
    [discriminate | ].
  intros [= <-]. cbn zeta.
  match goal with |- context [fold_left ?f ?l ?e] =>
    pose proof (makeEnv_fold l e)
      as (Ha & Hf & Hst' & _ & Hg & Hc & Hh & Htx & Hr & Hu & Ht)
  end.
  split_and!.
  - etrans; [exact Ha | ]. cbn [ancestors]. clear. set_solver.
  - etrans; [exact Hf | ]. cbn [family]. clear. set_solver.
  - exact Hh.
  - exact Hc.
  - reflexivity.
  - exact Hu.
  - exact Hg.
  - exact Ht.
  - exact Htx.
  - exact Hr.
  - etrans; [exact (f_equal prefetching Hst') | reflexivity].
  - exists st. split.
    + destruct (StateAt (chain w) (b_Root parent)); [right | left]; congruence.
    + etrans; [exact (f_equal content Hst') | reflexivity].
Qed.

(** X3: [makeEnv] fails exactly when neither [chain.StateAt] nor
    [eth.StateAtBlock] has the state of the parent, and then with the error of
    the latter.  The environment it makes is empty (no transaction, receipt,
    uncle, gas pool nor deadline, and a transaction count of zero), has the
    prefetcher started, and its ancestors are the hashes of the blocks
    [GetBlocksFromHash] returned for the parent, all of which are in the
    family, with the hashes of their uncles. *)
Theorem makeEnv_fresh_environment (w : worker) (parent : Block) (header0 : Header)
    (cb : Address) :
  (forall err,
      makeEnv w parent header0 cb = inl err <->
      (exists err', StateAt (chain w) (b_Root parent) = inl err') /\
      StateAtBlock (eth w) parent 1024 = inl err) /\
  (forall env,
      makeEnv w parent header0 cb = inr env ->
      txs env = [] /\ receipts env = [] /\ uncles env = ∅ /\ gasPool env = None /\
      till env = None /\ tcount env = 0 /\ header env = header0 /\ coinbase env = cb /\
      prefetching (state env) = true /\
      ancestors env ⊆ family env /\
      (forall h, h ∈ ancestors env <->
                 exists b, b ∈ GetBlocksFromHash (chain w) (Block_Hash parent) 7 /\
                           h = Block_Hash b) /\
      (forall b u, b ∈ GetBlocksFromHash (chain w) (Block_Hash parent) 7 ->
                   u ∈ b_uncles b -> Header_Hash u ∈ family env)).
Proof.
  split.
  - intros err. unfold makeEnv.
    destruct (StateAt (chain w) (b_Root parent)) as [err' | s]; cbn zeta.
    + destruct (StateAtBlock (eth w) parent 1024) as [err'' | s]; split.
      * intros [= <-]. split; [eauto | reflexivity].
      * intros [_ [= <-]]. reflexivity.
      * discriminate.
      * intros [_ Hd]. discriminate Hd.
    + split; [discriminate | ]. intros [[err' Hd] _]. discriminate Hd.
  - intros env Hmake. apply makeEnv_spec in Hmake. cbn zeta in Hmake.
    destruct Hmake as (Ha & Hf & Hh & Hc & Ht & Hu & Hg & Htill & Htx & Hr & Hp & _).
    split_and!; try assumption.
    + rewrite Ha, Hf. set_solver.
    + intros h. rewrite Ha, elem_of_list_to_set, list_elem_of_fmap. naive_solver.
    + intros b u Hb Hin. rewrite Hf. apply elem_of_union_r, elem_of_list_to_set.
      apply list_elem_of_fmap. exists u. split; [reflexivity | ].
      apply list_elem_of_In, in_concat. exists (b_uncles b).
      split; [apply in_map, list_elem_of_In, Hb | apply list_elem_of_In, Hin].
Qed.

(** X4: the work [prepareWork] hands out has at most two uncles, and none
    when uncles are not asked for or the chain is not proof-of-work.  Each of
    its uncles is the header of a local or a remote uncle block of the
    worker, filed under its hash; its parent is one of the ancestors of the
    sealing block but not the parent of the sealing block, and it is not in
    the family (neither an ancestor nor an uncle of one). *)
Theorem prepareWork_uncles (w : worker) (now : Time) (genParams : generateParams)
    (env : environment) :
  prepareWork w now genParams = inr env ->
  (size (uncles env) <= 2)%nat /\
  (gp_noUncle genParams = true \/ IsPoW = false -> uncles env = ∅) /\
  (forall h u,
      uncles env !! h = Some u ->
      h = Header_Hash u /\
      (exists hb : Hash * Block,
          hb ∈ localUncles w ++ remoteUncles w /\ b_header (snd hb) = u) /\
      ParentHash u ∈ ancestors env /\
      ParentHash (header env) <> ParentHash u /\
      (h ∉ family env)).
Proof.
  unfold prepareWork.
  destruct (if bool_decide _ then _ else _) as [parent | ]; [ | discriminate].
  destruct (GetBlockBuildParameters _) as [[[bi bgl] rate] pct].
  destruct (_ && gp_forceTime genParams); [discriminate | ].
  destruct (if negb IsPoW then _ else _) as [timestamp till0].
  destruct (Prepare _ _ _) as [header0 [err | ]]; [discriminate | ].
  destruct (makeEnv w parent header0 (gp_coinbase genParams)) as [err | env0] eqn:Hmake;
    [discriminate | ].
  apply makeEnv_spec in Hmake. cbn zeta in Hmake.
  destruct Hmake as (_ & _ & _ & _ & _ & Hu & _).
  set (env1 := set_buildParameters _ _ _ _ _).
  assert (Hu1 : uncles env1 = ∅) by (subst env1; destruct (negb IsPoW); exact Hu).
  destruct (gp_noUncle genParams) eqn:Hno; cbn [negb]; intros [= <-].
  { rewrite Hu1, map_size_empty. split_and!; [lia | done | ].
    intros h u Hl. rewrite lookup_empty in Hl. discriminate Hl. }
  destruct (commitUncles_spec w (localUncles w) env1) as (L1 & L2 & L3 & L4 & _ & L6 & L7).
  { rewrite Hu1, map_size_empty. lia. }
  set (env2 := commitUncles w env1 (localUncles w)) in *.
  destruct (commitUncles_spec w (remoteUncles w) env2 L1)
    as (R1 & R2 & R3 & R4 & _ & R6 & R7).
  set (env3 := commitUncles w env2 (remoteUncles w)) in *.
  assert (Hall : forall h u,
             uncles env3 !! h = Some u ->
             h = Header_Hash u /\
             (exists hb : Hash * Block,
                 hb ∈ localUncles w ++ remoteUncles w /\ b_header (snd hb) = u) /\
             ParentHash u ∈ ancestors env3 /\
             ParentHash (header env3) <> ParentHash u /\
             (h ∉ family env3) /\ IsPoW = true).
  { intros h u Hl. rewrite R2, R3, R4, L2, L3, L4.
    destruct (R7 h u Hl) as [Hold | (E1 & (hb & Hin & E2) & E3 & E4 & E5 & E6 & _)].
    - destruct (L7 h u Hold) as [Hold' | (E1 & (hb & Hin & E2) & E3 & E4 & E5 & E6 & _)].
      + rewrite Hu1, lookup_empty in Hold'. discriminate Hold'.
      + split_and!; try done. exists hb. split; [ | exact E2].
        apply elem_of_app. by left.
    - rewrite L2, L3, L4 in *. split_and!; try done. exists hb. split; [ | exact E2].
      apply elem_of_app. by right. }
  split_and!.
  - exact R1.
  - intros [Hd | Hpow]; [discriminate Hd | ].
    apply map_eq. intros h. rewrite lookup_empty.
    destruct (uncles env3 !! h) as [u | ] eqn:Hl; [ | reflexivity].
    destruct (Hall h u Hl) as (_ & _ & _ & _ & _ & Hp). congruence.
  - intros h u Hl. destruct (Hall h u Hl) as (A1 & A2 & A3 & A4 & A5 & _). done.
Qed.
End UncleSet.

(** ** What a run of a committer adds to the environment *)

Section Growth.
Context `{Externals} {Q : Type} `{TxQueue Q}.
Variables (w : worker) (interrupt : option (nat -> Z)) (tstart : option Time)
  (clock : nat -> Time).

(** The parts of an environment that no committer writes to; of the header,
    only [GasUsed] and [Fees] change. *)
Local Abbreviation frame env env' :=
  (signer env' = signer env /\ ancestors env' = ancestors env /\
   family env' = family env /\ coinbase env' = coinbase env /\
   uncles env' = uncles env /\ till env' = till env /\
   set_GasUsed_Fees (header env') 0 0 = set_GasUsed_Fees (header env) 0 0).

(** A replay-protected transaction is only executed on a chain that has
    EIP-155 at the height of the sealing block. *)
Local Abbreviation replay_safe env tx :=
  (tx_protected tx = true -> IsEIP155 (chainConfig w) (Number (header env)) = true).

(** The transactions recorded in the map of committed transactions. *)
Local Abbreviation recorded m m' new :=
  (match m, m' with
   | Some old, Some cur =>
       dom old ⊆ dom cur /\ Forall (fun tx : Transaction => tx_hash tx ∈ dom cur) new
   | None, None => True
   | _, _ => False
   end).

(** [c'] is [c] after the transactions [new] were appended with the
    receipts [newr]. *)
Local Abbreviation appended c c' new newr :=
  (txs (c_env c') = txs (c_env c) ++ new /\
   receipts (c_env c') = receipts (c_env c) ++ newr /\
   length (new : list Transaction) = length (newr : list Receipt) /\
   tcount (c_env c') = tcount (c_env c) + Z.of_nat (length (new : list Transaction)) /\
   c_coalescedLogs c' = c_coalescedLogs c ++ concat (map r_Logs newr) /\
   Forall (fun tx => replay_safe (c_env c) tx) new /\
   frame (c_env c) (c_env c') /\
   c_pendingLogsFeed c' = c_pendingLogsFeed c /\
   c_resubmitAdjustCh c' = c_resubmitAdjustCh c).

Local Abbreviation extends c c' new newr :=
  (appended c c' new newr /\ recorded (c_committedTxs c) (c_committedTxs c') new).

Local Abbreviation grown c c' := (exists new newr, extends c c' new newr).

(** How a committer is left through the interrupt check. *)
Local Abbreviation returned b c c' :=
  (c_env c' = c_env c /\ c_coalescedLogs c' = c_coalescedLogs c /\
   c_pendingLogsFeed c' = c_pendingLogsFeed c /\
   c_committedTxs c' = c_committedTxs c /\
   is_Some interrupt /\
   (c_resubmitAdjustCh c' = c_resubmitAdjustCh c \/
    exists r, c_resubmitAdjustCh c' = c_resubmitAdjustCh c ++ [mkAdjust r true] /\
              (Float64.const (1 # 10) <= r)%Q /\
              (write_once interrupt -> b = false))).

Lemma appended_refl (c : committer Q) : appended c c [] [].
Proof.
  rewrite !app_nil_r. split_and!; try reflexivity; try constructor. cbn. lia.
Qed.

Lemma appended_env (c c' : committer Q) :
  c_env c' = c_env c -> c_coalescedLogs c' = c_coalescedLogs c ->
  c_pendingLogsFeed c' = c_pendingLogsFeed c ->
  c_resubmitAdjustCh c' = c_resubmitAdjustCh c ->
  appended c c' [] [].
Proof.
  intros -> -> -> ->. apply appended_refl.
Qed.

Lemma extends_env (c c' : committer Q) :
  c_env c' = c_env c -> c_coalescedLogs c' = c_coalescedLogs c ->
  c_pendingLogsFeed c' = c_pendingLogsFeed c ->
  c_resubmitAdjustCh c' = c_resubmitAdjustCh c ->
  c_committedTxs c' = c_committedTxs c ->
  extends c c' [] [].
Proof.
  intros -> -> -> -> ->. split; [apply appended_refl | ].
  destruct (c_committedTxs c); [split; [reflexivity | constructor] | exact I].
Qed.

Lemma extends_trans (c c' c'' : committer Q) new newr new' newr' :
  extends c c' new newr -> extends c' c'' new' newr' ->
  extends c c'' (new ++ new') (newr ++ newr').
Proof.
  intros [(A1 & A2 & A3 & A4 & A5 & A6 & (F1 & F2 & F3 & F4 & F5 & F6 & F7) & A8 & A9) A10]
         [(B1 & B2 & B3 & B4 & B5 & B6 & (G1 & G2 & G3 & G4 & G5 & G6 & G7) & B8 & B9) B10].
  assert (Hnum : Number (header (c_env c')) = Number (header (c_env c)))
    by exact (f_equal Number F7).
  split; [split_and!; try congruence | ].
  - rewrite B1, A1, app_assoc. reflexivity.
  - rewrite B2, A2, app_assoc. reflexivity.
  - rewrite !length_app. lia.
  - rewrite B4, A4, length_app. lia.
  - rewrite B5, A5, map_app, concat_app, app_assoc. reflexivity.
  - apply Forall_app. split; [exact A6 | ].
    eapply Forall_impl; [exact B6 | ]. cbn beta. intros tx Htx. rewrite <- Hnum. exact Htx.
  - destruct (c_committedTxs c), (c_committedTxs c'), (c_committedTxs c''); try done.
    destruct A10 as [A10 A11], B10 as [B10 B11]. split; [set_solver | ].
    apply Forall_app. split; [ | exact B11].
    eapply Forall_impl; [exact A11 | ]. cbn beta. intros tx Htx. set_solver.
Qed.

Lemma grown_trans (c c' c'' : committer Q) : grown c c' -> grown c' c'' -> grown c c''.
Proof.
  intros (n1 & r1 & H1) (n2 & r2 & H2). exists (n1 ++ n2), (r1 ++ r2).
  exact (extends_trans _ _ _ _ _ _ _ H1 H2).
Qed.

(** What [commitTransaction] leaves of the environment. *)
Lemma commitTransaction_grows (env env' : environment) (tx : Transaction)
    (res : error + list Log) :
  commitTransaction w env tx = Some (env', res) ->
  frame env env' /\ tcount env' = tcount env /\
  match res with
  | inl _ => txs env' = txs env /\ receipts env' = receipts env
  | inr logs =>
      exists receipt, txs env' = txs env ++ [tx] /\ receipts env' = receipts env ++ [receipt] /\
                      logs = r_Logs receipt
  end.
Proof.
  unfold commitTransaction. destruct (State.Snapshot (state env)) as [snap st].
  destruct (a_result _) as [err | receipt].
  - destruct (State.RevertToSnapshot _ _); [ | discriminate].
    intros [= <- <-]. cbn. split_and!; reflexivity.
  - intros [= <- <-]. cbn. split_and!; try reflexivity. exists receipt. split_and!; reflexivity.
Qed.

Lemma execute_grows (c : committer Q) (tx : Transaction) :
  match execute w c tx with
  | Continue c' =>
      c_committedTxs c' = c_committedTxs c /\
      exists new newr, appended c c' new newr /\ (new = [] \/ new = [tx])
  | Panic => True
  | _ => False
  end.
Proof.
  unfold execute.
  destruct (tx_protected tx && negb (IsEIP155 (chainConfig w) (Number (header (c_env c)))))
    eqn:Hprot.
  - split; [reflexivity | ]. exists [], []. split; [ | by left].
    apply appended_env; reflexivity.
  - set (env := set_state (c_env c) _).
    destruct (commitTransaction w env tx) as [[env' res] | ] eqn:Hc; [ | exact I].
    apply commitTransaction_grows in Hc.
    destruct Hc as ((F1 & F2 & F3 & F4 & F5 & F6 & F7) & Ht & Hres).
    assert (Hsafe : replay_safe (c_env c) tx).
    { intros Hp. rewrite Hp in Hprot. cbn in Hprot.
      destruct (IsEIP155 _ _); [reflexivity | discriminate Hprot]. }
    unfold dispatch.
    destruct res as [err | logs].
    + destruct Hres as [Htx Hr].
      assert (Hext : forall q, appended c (with_txs (with_env c env') q) [] []).
      { intros q. cbn. rewrite !app_nil_r, Htx, Hr, Ht.
        split_and!; try done; try (cbn; lia). }
      destruct err; (split; [reflexivity | ]); exists [], []; (split; [apply Hext | by left]).
    + destruct Hres as (receipt & Htx & Hr & ->).
      split; [reflexivity | ]. exists [tx], [receipt]. split; [ | by right].
      cbn. rewrite Htx, Hr, Ht, app_nil_r.
      split_and!; try done. repeat constructor. exact Hsafe.
Qed.

Lemma interruptCheck_returned (gasLimit : Z) (c : committer Q) :
  match interruptCheck interrupt gasLimit c with
  | (c', None) => extends c c' [] []
  | (_, Some (Return b c')) => returned b c c'
  | (_, Some Panic) => True
  | (_, Some _) => False
  end.
Proof.
  unfold interruptCheck. destruct interrupt as [load | ]; [ | apply extends_env; reflexivity].
  destruct (Z.eqb_spec (load (c_loads c)) commitInterruptNone) as [Hz | Hnz]; cbn [negb];
    [apply extends_env; reflexivity | ].
  destruct (Z.eqb_spec (load (S (c_loads c))) commitInterruptResubmit) as [Hre | Hre];
    [destruct (gasPool (c_env c)); [ | exact I] | ]; cbn;
    (split_and!; try reflexivity; [eauto | ]); [right | by left].
  eexists. split; [reflexivity | ]. split.
  - unfold Float64.flt. destruct (Qle_bool _ _) eqn:E; cbn [negb].
    + apply Qle_bool_iff. exact E.
    + apply Qle_refl.
  - intros Hwo.
    rewrite (Hwo load eq_refl (c_loads c) (S (S (c_loads c)))) by (lia || exact Hnz).
    rewrite <- (Hwo load eq_refl (c_loads c) (S (c_loads c))) by (lia || exact Hnz).
    rewrite Hre. reflexivity.
Qed.

Lemma deadlinePassed_extends (c : committer Q) :
  extends c (snd (deadlinePassed tstart clock c)) [] [].
Proof.
  assert (Hs : snd (deadlinePassed tstart clock c) = c \/
               snd (deadlinePassed tstart clock c) = with_ticks c (S (c_ticks c))).
  { unfold deadlinePassed. destruct tstart; [destruct (till (c_env c)) | ]; auto. }
  destruct Hs as [-> | ->]; apply extends_env; reflexivity.
Qed.

Lemma extends_grown (c c' : committer Q) new newr : extends c c' new newr -> grown c c'.
Proof. intros Hext. by exists new, newr. Qed.

(** The execution of [tx] in a round that began in [c], after the
    preliminaries of the round led to [c2] and the bookkeeping to [c3]. *)
Lemma execute_round (c c2 c3 : committer Q) (tx : Transaction) :
  extends c c2 [] [] ->
  c_env c3 = c_env c2 -> c_coalescedLogs c3 = c_coalescedLogs c2 ->
  c_pendingLogsFeed c3 = c_pendingLogsFeed c2 ->
  c_resubmitAdjustCh c3 = c_resubmitAdjustCh c2 ->
  recorded (c_committedTxs c2) (c_committedTxs c3) [tx] ->
  match execute w c3 tx with
  | Continue c' => grown c c'
  | Panic => True
  | _ => False
  end.
Proof.
  intros H12 He Hl Hf Ha Hrec.
  pose proof (execute_grows c3 tx) as Hex.
  destruct (execute w c3 tx) as [c' | c' | b c' | ]; try done.
  destruct Hex as (Hcomm & new & newr & Happ & Hnew).
  assert (H23 : extends c2 c3 [] []).
  { split; [apply appended_env; assumption | ].
    destruct (c_committedTxs c2), (c_committedTxs c3); try done.
    split; [apply Hrec | constructor]. }
  assert (H3' : extends c3 c' new newr).
  { split; [exact Happ | ]. rewrite Hcomm.
    destruct (c_committedTxs c2), (c_committedTxs c3); try done.
    split; [reflexivity | ]. destruct Hnew as [-> | ->]; [constructor | apply Hrec]. }
  exists new, newr.
  exact (extends_trans _ _ _ _ _ _ _ (extends_trans _ _ _ _ _ _ _ H12 H23) H3').
Qed.

Lemma commitTransactions_round_grows (gasLimit : Z) (c : committer Q) :
  match commitTransactions_round w interrupt tstart clock gasLimit c with
  | Continue c' | Break c' => grown c c'
  | Return b c' => returned b c c'
  | Panic => True
  end.
Proof.
  unfold commitTransactions_round.
  pose proof (interruptCheck_returned gasLimit c) as Hic.
  destruct (interruptCheck interrupt gasLimit c) as [c1 [[c' | c' | b c' | ] | ]]; try done.
  destruct (gasPool (c_env c1)) as [gas | ]; [ | exact I].
  destruct (gas <? TxGas); [exact (extends_grown _ _ _ _ Hic) | ].
  destruct (Peek (c_txs c1)) as [tx | ]; [ | exact (extends_grown _ _ _ _ Hic)].
  destruct ((0 <? MaxTxsPerBlock) && (MaxTxsPerBlock <=? tcount (c_env c1)));
    [exact (extends_grown _ _ _ _ Hic) | ].
  pose proof (deadlinePassed_extends c1) as Hdp.
  destruct (deadlinePassed tstart clock c1) as [late c2]. cbn [snd] in Hdp.
  pose proof (extends_trans _ _ _ _ _ _ _ Hic Hdp) as H12. cbn [app] in H12.
  destruct (late && _); [exact (extends_grown _ _ _ _ H12) | ].
  match goal with |- context [execute w ?c3 tx] =>
    pose proof (execute_round c c2 c3 tx H12 eq_refl eq_refl eq_refl eq_refl) as Hex;
    destruct (execute w c3 tx) as [c' | c' | b c' | ]
  end; [apply Hex | exfalso; apply Hex | exfalso; apply Hex | exact I]; cbn;
    (destruct (c_committedTxs c2) as [m | ]; [ | exact I]); cbn;
    (split; [set_solver | ]);
    repeat constructor; apply elem_of_dom; rewrite lookup_insert_eq; eauto.
Qed.

Context `{!TxOrdering Q}.

Lemma commitTransactionsSimple_round_grows (gasLimit : Z) (c : committer Q) :
  c_committedTxs c = None ->
  match commitTransactionsSimple_round w interrupt tstart clock gasLimit c with
  | Continue c' | Break c' => grown c c'
  | Return b c' => returned b c c'
  | Panic => True
  end.
Proof.
  intros Hnone. unfold commitTransactionsSimple_round.
  pose proof (interruptCheck_returned gasLimit c) as Hic.
  destruct (interruptCheck interrupt gasLimit c) as [c1 [[c' | c' | b c' | ] | ]]; try done.
  destruct (gasPool (c_env c1)) as [gas | ]; [ | exact I].
  destruct (gas <? TxGas); [exact (extends_grown _ _ _ _ Hic) | ].
  destruct (Peek (c_txs c1)) as [tx | ]; [ | exact (extends_grown _ _ _ _ Hic)].
  pose proof (deadlinePassed_extends c1) as Hdp.
  destruct (deadlinePassed tstart clock c1) as [late c2]. cbn [snd] in Hdp.
  pose proof (extends_trans _ _ _ _ _ _ _ Hic Hdp) as H12. cbn [app] in H12.
  destruct (late && _); [exact (extends_grown _ _ _ _ H12) | ].
  assert (Hnone2 : c_committedTxs c2 = None).
  { destruct H12 as [_ Hrec]. rewrite Hnone in Hrec.
    destruct (c_committedTxs c2); [contradiction | reflexivity]. }
  match goal with |- context [execute w ?c3 tx] =>
    pose proof (execute_round c c2 c3 tx H12 eq_refl eq_refl eq_refl eq_refl) as Hex;
    destruct (execute w c3 tx) as [c' | c' | b c' | ]
  end; [apply Hex | exfalso; apply Hex | exfalso; apply Hex | exact I]; cbn;
    rewrite Hnone2; exact I.
Qed.

(** A loop whose rounds add to the environment adds to it as a whole. *)
Lemma loop_grows (round : committer Q -> flow (committer Q)) (P : committer Q -> Prop) :
  (forall c c', grown c c' -> P c -> P c') ->
  (forall c, P c ->
             match round c with
             | Continue c' | Break c' => grown c c'
             | Return b c' => returned b c c'
             | Panic => True
             end) ->
  forall (fuel : nat) (c : committer Q) (out : flow (committer Q)),
    P c -> loop round fuel c = Done out ->
    match out with
    | Break c' => grown c c'
    | Return b c' => exists c1 : committer Q, grown c c1 /\ returned b c1 c'
    | _ => False
    end.
Proof.
  intros HP Hround. induction fuel as [ | fuel IH]; intros c out Hc; simpl; [discriminate | ].
  specialize (Hround c Hc).
  destruct (round c) as [c' | c' | b c' | ]; try discriminate.
  - intros Hloop. specialize (IH c' out (HP _ _ Hround Hc) Hloop).
    destruct out as [c'' | c'' | b c'' | ]; try done.
    + exact (grown_trans _ _ _ Hround IH).
    + destruct IH as (c1 & Hg & Hr). exists c1. split; [ | exact Hr].
      exact (grown_trans _ _ _ Hround Hg).
  - intros [= <-]. exact Hround.
  - intros [= <-]. exists c. split; [ | exact Hround].
    exists [], []. apply extends_env; reflexivity.
Qed.

(** What either committer has done when it returns [b] and leaves [c],
    started on [env] with the map [committed]. *)
Local Abbreviation outcome env committed b c :=
  (exists (new : list Transaction) (newr : list Receipt),
      txs (c_env c) = txs env ++ new /\
      receipts (c_env c) = receipts env ++ newr /\
      length new = length newr /\
      tcount (c_env c) = tcount env + Z.of_nat (length new) /\
      c_coalescedLogs c = concat (map r_Logs newr) /\
      Forall (fun tx => replay_safe env tx) new /\
      frame env (c_env c) /\
      recorded committed (c_committedTxs c) new /\
      (c_pendingLogsFeed c = [] \/
       running w = false /\ c_coalescedLogs c <> [] /\ b = false /\
       c_pendingLogsFeed c = [c_coalescedLogs c]) /\
      (interrupt = None ->
       b = false /\ c_resubmitAdjustCh c = [] /\
       c_pendingLogsFeed c =
         if negb (running w) && Nat.ltb 0 (length (c_coalescedLogs c))
         then [c_coalescedLogs c] else []) /\
      (c_resubmitAdjustCh c = [] \/
       b = false /\ c_resubmitAdjustCh c = [mkAdjust 0 false] \/
       exists r, c_resubmitAdjustCh c = [mkAdjust r true] /\
                 (Float64.const (1 # 10) <= r)%Q /\
                 (write_once interrupt -> b = false))).

Lemma outcome_of_loop (env : environment) (q : Q)
    (committed : option (gmap Hash Transaction)) (out : flow (committer Q)) :
  match out with
  | Break c' => grown (mkCommitter (initGasPool env) q committed [] 0%nat 0%nat [] []) c'
  | Return b c' =>
      exists c1 : committer Q,
        grown (mkCommitter (initGasPool env) q committed [] 0%nat 0%nat [] []) c1 /\
        returned b c1 c'
  | _ => False
  end ->
  match out with
  | Break c' => outcome env committed false (afterLoop w interrupt c')
  | Return b c' => outcome env committed b c'
  | _ => True
  end.
Proof.
  assert (Hinit : txs (initGasPool env) = txs env /\ receipts (initGasPool env) = receipts env /\
                  tcount (initGasPool env) = tcount env /\
                  header (initGasPool env) = header env /\
                  frame env (initGasPool env)).
  { unfold initGasPool. destruct (gasPool env); cbn; split_and!; reflexivity. }
  destruct Hinit as (I1 & I2 & I3 & I4 & (J1 & J2 & J3 & J4 & J5 & J6 & J7)).
  destruct out as [c' | c' | b c' | ]; try done.
  - intros (new & newr & (A1 & A2 & A3 & A4 & A5 & A6 & (F1 & F2 & F3 & F4 & F5 & F6 & F7)
                          & A8 & A9) & A10).
    cbn in A1, A2, A4, A5, A6, A8, A9, A10, F1, F2, F3, F4, F5, F6, F7.
    rewrite ?I1, ?I2, ?I3, ?I4 in *. exists new, newr.
    assert (Henv : c_env (afterLoop w interrupt c') = c_env c')
      by (unfold afterLoop; destruct (negb (running w) && _); destruct interrupt; reflexivity).
    assert (Hlogs : c_coalescedLogs (afterLoop w interrupt c') = c_coalescedLogs c')
      by (unfold afterLoop; destruct (negb (running w) && _); destruct interrupt; reflexivity).
    assert (Hcomm : c_committedTxs (afterLoop w interrupt c') = c_committedTxs c')
      by (unfold afterLoop; destruct (negb (running w) && _); destruct interrupt; reflexivity).
    assert (Hfeed : c_pendingLogsFeed (afterLoop w interrupt c') =
                    if negb (running w) && Nat.ltb 0 (length (c_coalescedLogs c'))
                    then [c_coalescedLogs c'] else []).
    { unfold afterLoop. destruct (negb (running w) && _); destruct interrupt; cbn;
        rewrite ?A8, ?map_id; reflexivity. }
    assert (Hadj : c_resubmitAdjustCh (afterLoop w interrupt c') =
                   match interrupt with Some _ => [mkAdjust 0 false] | None => [] end).
    { unfold afterLoop. destruct (negb (running w) && _); destruct interrupt; cbn;
        rewrite ?A9; reflexivity. }
    rewrite Henv, Hlogs, Hcomm, Hfeed, Hadj.
    split_and!; try done; try congruence.
    + destruct (running w); cbn [negb andb]; [by left | ].
      destruct (c_coalescedLogs c') eqn:Hl; cbn; [by left | right]. split_and!; done.
    + intros ->. done.
    + destruct interrupt; [right; left | left]; done.
  - intros (c1 & (new & newr & (A1 & A2 & A3 & A4 & A5 & A6
                                & (F1 & F2 & F3 & F4 & F5 & F6 & F7) & A8 & A9) & A10)
            & (R1 & R2 & R3 & R4 & R5 & R6)).
    cbn in A1, A2, A4, A5, A6, A8, A9, A10, F1, F2, F3, F4, F5, F6, F7.
    rewrite ?I1, ?I2, ?I3, ?I4 in *. exists new, newr.
    rewrite R1, R2, R3, R4, A8, A9 in *.
    split_and!; try done; try congruence.
    + by left.
    + intros ->. destruct R5 as [? R5]. discriminate R5.
    + destruct R6 as [-> | (r & -> & Hr)]; [by left | ]. right. right. exists r. done.
Qed.

(** What [commitTransactions] has done when it returns. *)
Lemma commitTransactions_outcome (env : environment) (txs0 : Q)
    (committedTxs : option (gmap Hash Transaction)) (b : bool) (c : committer Q) :
  commitTransactions w env txs0 interrupt tstart clock committedTxs = Done (b, c) ->
  outcome env committedTxs b c.
Proof.
  intros Hrun. unfold commitTransactions in Hrun.
  destruct (loop _ _ _) as [out | | ] eqn:Hloop; try discriminate.
  apply (loop_grows _ (fun _ => True)) in Hloop; [ | done | | done].
  - apply outcome_of_loop in Hloop.
    destruct out as [c' | c' | b' c' | ]; try discriminate; injection Hrun as <- <-;
      exact Hloop.
  - intros c0 _. apply commitTransactions_round_grows.
Qed.

(** Both committers, with what they share spelled out. *)
Lemma committers_outcome (env : environment) (txs0 : Q)
    (committedTxs : option (gmap Hash Transaction)) (b : bool) (c : committer Q) :
  commitTransactions w env txs0 interrupt tstart clock committedTxs = Done (b, c) \/
  (committedTxs = None /\
   commitTransactionsSimple w env txs0 interrupt tstart clock = Done (b, c)) ->
  outcome env committedTxs b c.
Proof.
  intros [Hrun | [-> Hrun]]; [exact (commitTransactions_outcome _ _ _ _ _ Hrun) | ].
  unfold commitTransactionsSimple in Hrun.
  destruct (loop _ _ _) as [out | | ] eqn:Hloop; try discriminate.
  apply (loop_grows _ (fun c => c_committedTxs c = None)) in Hloop; [ | | | done].
  - apply outcome_of_loop in Hloop.
    destruct out as [c' | c' | b' c' | ]; try discriminate; injection Hrun as <- <-;
      exact Hloop.
  - intros c0 c1 (new & newr & _ & Hrec) Hnone. rewrite Hnone in Hrec.
    destruct (c_committedTxs c1); [contradiction | reflexivity].
  - intros c0 Hnone. apply commitTransactionsSimple_round_grows. exact Hnone.
Qed.

(** X5: a run of either committer only appends to the transactions and the
    receipts of the environment, one receipt per transaction, and raises the
    transaction count [tcount] by the number of transactions it appended.
    It leaves the signer, the coinbase, the uncles, the ancestors, the
    family and the deadline as they were, and of the header it changes
    nothing but [GasUsed] and [Fees]. *)
Theorem committers_append_transactions (env : environment) (txs0 : Q)
    (committedTxs : option (gmap Hash Transaction)) (b : bool) (c : committer Q) :
  commitTransactions w env txs0 interrupt tstart clock committedTxs = Done (b, c) \/
  (committedTxs = None /\
   commitTransactionsSimple w env txs0 interrupt tstart clock = Done (b, c)) ->
  exists (new : list Transaction) (newr : list Receipt),
    txs (c_env c) = txs env ++ new /\
    receipts (c_env c) = receipts env ++ newr /\
    length new = length newr /\
    tcount (c_env c) = tcount env + Z.of_nat (length new) /\
    signer (c_env c) = signer env /\ coinbase (c_env c) = coinbase env /\
    uncles (c_env c) = uncles env /\ ancestors (c_env c) = ancestors env /\
    family (c_env c) = family env /\ till (c_env c) = till env /\
    set_GasUsed_Fees (header (c_env c)) 0 0 = set_GasUsed_Fees (header env) 0 0.
Proof.
  intros Hrun. destruct (committers_outcome env txs0 committedTxs b c Hrun)
    as (new & newr & A1 & A2 & A3 & A4 & _ & _ & (F1 & F2 & F3 & F4 & F5 & F6 & F7) & _).
  exists new, newr. split_and!; assumption.
Qed.


(** X7: on a chain that has not EIP-155 at the height of the sealing block,
    neither committer includes a replay-protected transaction. *)
Theorem committers_skip_replay_protected (env : environment) (txs0 : Q)
    (committedTxs : option (gmap Hash Transaction)) (b : bool) (c : committer Q) :
  commitTransactions w env txs0 interrupt tstart clock committedTxs = Done (b, c) \/
  (committedTxs = None /\
   commitTransactionsSimple w env txs0 interrupt tstart clock = Done (b, c)) ->
  IsEIP155 (chainConfig w) (Number (header env)) = false ->
  Forall (fun tx => tx_protected tx = false) (drop (length (txs env)) (txs (c_env c))).
Proof.
  intros Hrun Heip. destruct (committers_outcome env txs0 committedTxs b c Hrun)
    as (new & newr & A1 & _ & _ & _ & _ & A6 & _).
  rewrite A1, drop_app_length. eapply Forall_impl; [exact A6 | ]. cbn beta.
  intros tx Hsafe. destruct (tx_protected tx); [ | reflexivity].
  specialize (Hsafe eq_refl). congruence.
Qed.

(** X8: [commitTransactions] keeps what the map of committed transactions
    held and records in it every transaction it appended to the block; when
    it is given no map, it makes none. *)
Theorem commitTransactions_records_committed (env : environment) (txs0 : Q)
    (committedTxs : option (gmap Hash Transaction)) (b : bool) (c : committer Q) :
  commitTransactions w env txs0 interrupt tstart clock committedTxs = Done (b, c) ->
  match committedTxs with
  | Some m =>
      exists m', c_committedTxs c = Some m' /\ dom m ⊆ dom m' /\
                 Forall (fun tx => tx_hash tx ∈ dom m')
                   (drop (length (txs env)) (txs (c_env c)))
  | None => c_committedTxs c = None
  end.
Proof.
  intros Hrun. destruct (commitTransactions_outcome env txs0 committedTxs b c Hrun)
    as (new & newr & A1 & _ & _ & _ & _ & _ & _ & A8 & _).
  rewrite A1, drop_app_length.
  destruct committedTxs as [m | ], (c_committedTxs c) as [m' | ]; try done.
  exists m'. split; [reflexivity | exact A8].
Qed.

End Growth.

Lemma committers_append_transactions_witness :
  exists b c,
    @commitTransactions Example.externals Example.queue Example.queue_TxQueue
      Example.theWorker Example.env101 [[Example.tx 0; Example.tx 1]] None None
      (fun _ => 0) None = Done (b, c) /\
    exists (new : list Transaction) (newr : list Receipt),
      txs (c_env c) = txs Example.env101 ++ new /\
      receipts (c_env c) = receipts Example.env101 ++ newr /\
      length new = length newr /\
      tcount (c_env c) = tcount Example.env101 + Z.of_nat (length new) /\
      signer (c_env c) = signer Example.env101 /\
      coinbase (c_env c) = coinbase Example.env101 /\
      uncles (c_env c) = uncles Example.env101 /\
      ancestors (c_env c) = ancestors Example.env101 /\
      family (c_env c) = family Example.env101 /\
      till (c_env c) = till Example.env101 /\
      set_GasUsed_Fees (header (c_env c)) 0 0
      = set_GasUsed_Fees (header Example.env101) 0 0.
Proof.
  destruct (@commitTransactions Example.externals Example.queue Example.queue_TxQueue
              Example.theWorker Example.env101 [[Example.tx 0; Example.tx 1]] None None
              (fun _ => 0) None) as [[b c] | | ] eqn:E;
    [ | exfalso; vm_compute in E; discriminate E ..].
  exists b, c. split; [reflexivity | ].
  exact (@committers_append_transactions Example.externals Example.queue
           Example.queue_TxQueue Example.theWorker None None (fun _ => 0)
           Example.queue_TxOrdering Example.env101 [[Example.tx 0; Example.tx 1]] None b c
           (or_introl E)).
Defined.

(** ** The interrupts of the work loop *)

Section Interrupts.
Context `{Externals}.

(** The requests pushed so far, latest first: the latest carries the
    interrupt the loop holds, which is not signalled; every older one
    carries an interrupt that was signalled, with [NewHead] or [Resubmit]. *)
Local Abbreviation one_live l :=
  (match reverse (wl_newWorkCh l) with
   | [] => wl_interrupt l = None
   | r :: older =>
       req_interrupt r = wl_interrupt l /\
       (exists p, wl_interrupt l = Some p /\ wl_cells l !! p = Some 0) /\
       Forall (fun r' => exists p s, req_interrupt r' = Some p /\ wl_cells l !! p = Some s /\
                                     (s = commitInterruptNewHead \/
                                      s = commitInterruptResubmit))
         older
   end).

Lemma commit_one_live (l : workLoop) (noempty : bool) (s : Z) :
  s = commitInterruptNewHead \/ s = commitInterruptResubmit ->
  one_live l -> one_live (commit l noempty s).
Proof.
  intros Hs Hinv. unfold commit. cbn [wl_newWorkCh wl_interrupt wl_cells].
  rewrite reverse_app. cbn [reverse rev_append app req_interrupt].
  change (rev_append ?l []) with (reverse l) in *.
  pose proof (is_fresh (dom (match wl_interrupt l with
                             | Some p => <[p := s]> (wl_cells l)
                             | None => wl_cells l
                             end))) as Hfresh.
  set (cells := match wl_interrupt l with
                | Some p => <[p := s]> (wl_cells l)
                | None => wl_cells l
                end) in *.
  set (q := fresh (dom cells)) in *.
  split; [reflexivity | ]. split; [exists q; split; [reflexivity | apply lookup_insert_eq] | ].
  destruct (reverse (wl_newWorkCh l)) as [ | r older]; [constructor | ].
  destruct Hinv as (Hr & (p & Hp & Hcell) & Holder).
  assert (Hcells : cells = <[p := s]> (wl_cells l)) by (subst cells; rewrite Hp; reflexivity).
  assert (Hqp : q <> p).
  { intros ->. apply Hfresh. rewrite Hcells. apply elem_of_dom. rewrite lookup_insert_eq. eauto. }
  constructor.
  - exists p, s. split_and!; [congruence | | exact Hs].
    rewrite lookup_insert_ne by done. rewrite Hcells. apply lookup_insert_eq.
  - eapply Forall_impl; [exact Holder | ]. cbn beta.
    intros r' (p' & s' & Hr' & Hcell' & Hs').
    assert (Hp' : p' <> p).
    { intros ->. rewrite Hcell in Hcell'. injection Hcell' as <-.
      destruct Hs' as [Hs' | Hs']; discriminate Hs'. }
    assert (Hq' : q <> p').
    { intros ->. apply Hfresh. rewrite Hcells. apply elem_of_dom.
      rewrite lookup_insert_ne by done. eauto. }
    exists p', s'. split_and!; [exact Hr' | | exact Hs'].
    rewrite lookup_insert_ne by done. rewrite Hcells, lookup_insert_ne by done. exact Hcell'.
Qed.

Lemma newWorkLoop_one_live (l : workLoop) (now : Z) (ev : workEvent) :
  one_live l -> one_live (newWorkLoop l now ev).
Proof.
  intros Hinv. destruct ev as [ | head | | interval | adjust]; cbn [newWorkLoop].
  - apply commit_one_live; [by left | exact Hinv].
  - apply commit_one_live; [by left | exact Hinv].
  - destruct (running (wl_worker l) && _); [ | exact Hinv].
    destruct (newTxs (wl_worker l) =? 0); [exact Hinv | ].
    apply commit_one_live; [by right | exact Hinv].
  - exact Hinv.
  - destruct (inc adjust); exact Hinv.
Qed.

(** X10: whatever events the work loop handles and whatever the other
    goroutines do to the worker in between, of the requests it has pushed
    on [newWorkCh] only the latest is live: it carries the interrupt the
    loop holds, which reads 0, while the interrupt of every older request
    was stored to, with [NewHead] or [Resubmit]. *)
Theorem newWorkLoop_interrupts_all_but_latest (w : worker) (recommit : Duration)
    (ocs : list occurrence) :
  let l := newWorkLoop_rounds (newWorkLoop_start w recommit) ocs in
  match reverse (wl_newWorkCh l) with
  | [] => wl_interrupt l = None
  | r :: older =>
      req_interrupt r = wl_interrupt l /\
      (exists p, wl_interrupt l = Some p /\ wl_cells l !! p = Some 0) /\
      Forall (fun r' => exists p s, req_interrupt r' = Some p /\ wl_cells l !! p = Some s /\
                                    (s = commitInterruptNewHead \/
                                     s = commitInterruptResubmit))
        older
  end.
Proof.
  cbn zeta. unfold newWorkLoop_rounds.
  apply (fold_left_preserves (fun l => one_live l)); [ | reflexivity].
  intros l oc Hinv. apply newWorkLoop_one_live. exact Hinv.
Qed.

Lemma one_live_current (l : workLoop) (p : N) :
  one_live l -> wl_interrupt l = Some p -> wl_cells l !! p = Some 0.
Proof.
  intros Hinv Hp. destruct (reverse (wl_newWorkCh l)) as [ | r older].
  - congruence.
  - destruct Hinv as (_ & (p' & Hp' & Hcell) & _). congruence.
Qed.

Lemma commit_keeps_signal (l : workLoop) (noempty : bool) (sig : Z) (p : N) (s : Z) :
  one_live l -> wl_cells l !! p = Some s -> s <> 0 ->
  wl_cells (commit l noempty sig) !! p = Some s.
Proof.
  intros Hinv Hcell Hs. unfold commit. cbn [wl_cells].
  pose proof (is_fresh (dom (match wl_interrupt l with
                             | Some p => <[p := sig]> (wl_cells l)
                             | None => wl_cells l
                             end))) as Hfresh.
  set (cells := match wl_interrupt l with
                | Some p => <[p := sig]> (wl_cells l)
                | None => wl_cells l
                end) in *.
  assert (Hkept : cells !! p = Some s).
  { subst cells. pose proof (fun q => one_live_current l q Hinv) as Hzero.
    destruct (wl_interrupt l) as [cur | ]; [ | exact Hcell].
    rewrite lookup_insert_ne; [exact Hcell | ].
    intros ->. rewrite (Hzero p eq_refl) in Hcell. congruence. }
  rewrite lookup_insert_ne; [exact Hkept | ].
  intros Heq. apply Hfresh. rewrite Heq. apply elem_of_dom. eauto.
Qed.

Lemma newWorkLoop_keeps_signal (l : workLoop) (now : Z) (ev : workEvent) (p : N) (s : Z) :
  one_live l -> wl_cells l !! p = Some s -> s <> 0 ->
  wl_cells (newWorkLoop l now ev) !! p = Some s.
Proof.
  intros Hinv Hcell Hs. destruct ev as [ | head | | interval | adjust]; cbn [newWorkLoop].
  - apply commit_keeps_signal; done.
  - apply commit_keeps_signal; done.
  - destruct (running (wl_worker l) && _); [ | exact Hcell].
    destruct (newTxs (wl_worker l) =? 0); [exact Hcell | ].
    apply commit_keeps_signal; done.
  - exact Hcell.
  - destruct (inc adjust); exact Hcell.
Qed.

(** X11: an interrupt is stored to once.  Once an interrupt of the work
    loop reads a signal (a value other than 0), it reads that signal after
    any further events the loop handles. *)
Theorem newWorkLoop_stores_interrupt_once (w : worker) (recommit : Duration)
    (before after : list occurrence) (p : N) (s : Z) :
  wl_cells (newWorkLoop_rounds (newWorkLoop_start w recommit) before) !! p = Some s ->
  s <> commitInterruptNone ->
  wl_cells (newWorkLoop_rounds (newWorkLoop_start w recommit) (before ++ after)) !! p
  = Some s.
Proof.
  intros Hcell Hs. unfold newWorkLoop_rounds in *. rewrite fold_left_app.
  set (step := fun l oc => newWorkLoop (with_worker l (oc_others oc (wl_worker l)))
                             (oc_now oc) (oc_event oc)) in *.
  set (l1 := fold_left step before (newWorkLoop_start w recommit)) in *.
  assert (Hinv : one_live l1).
  { subst l1. apply (fold_left_preserves (fun l => one_live l)); [ | reflexivity].
    intros l oc Hl. apply newWorkLoop_one_live. exact Hl. }
  clearbody l1. revert l1 Hcell Hinv.
  induction after as [ | oc after IH]; intros l1 Hcell Hinv; [exact Hcell | ].
  cbn [fold_left]. apply IH.
  - apply newWorkLoop_keeps_signal; done.
  - apply newWorkLoop_one_live. exact Hinv.
Qed.

(** X12: a tick of the timer makes the work loop push a request only when
    the worker is sealing and has seen a new transaction since the last
    request; that request asks not to pre-seal an empty block, and the run
    it replaces is signalled [Resubmit].  Once any event has made the loop
    push a request, a tick that follows pushes none and stores to no
    interrupt, as long as no transaction arrived. *)
Theorem newWorkLoop_timer_needs_new_transactions (l : workLoop) (now now' : Z)
    (ev : workEvent) :
  (wl_newWorkCh (newWorkLoop l now timerC) <> wl_newWorkCh l ->
   running (wl_worker l) = true /\ newTxs (wl_worker l) <> 0 /\
   (exists q, wl_newWorkCh (newWorkLoop l now timerC)
              = wl_newWorkCh l ++ [mkNewWorkReq (Some q) true (wl_timestamp l)]) /\
   (forall p, wl_interrupt l = Some p ->
              wl_cells (newWorkLoop l now timerC) !! p = Some commitInterruptResubmit)) /\
  (wl_newWorkCh (newWorkLoop l now ev) <> wl_newWorkCh l ->
   wl_newWorkCh (newWorkLoop (newWorkLoop l now ev) now' timerC)
   = wl_newWorkCh (newWorkLoop l now ev) /\
   wl_cells (newWorkLoop (newWorkLoop l now ev) now' timerC)
   = wl_cells (newWorkLoop l now ev)).
Proof.
  assert (Hcommit : forall l0 noempty sig now0,
             let l1 := commit l0 noempty sig in
             wl_newWorkCh (newWorkLoop l1 now0 timerC) = wl_newWorkCh l1 /\
             wl_cells (newWorkLoop l1 now0 timerC) = wl_cells l1).
  { intros l0 noempty sig now0. cbn zeta. cbn [newWorkLoop].
    destruct (running (wl_worker (commit l0 noempty sig)) && _); [ | done].
    replace (newTxs (wl_worker (commit l0 noempty sig))) with 0 by reflexivity.
    done. }
  split.
  - cbn [newWorkLoop].
    destruct (running (wl_worker l)) eqn:Hrun; cbn [andb]; [ | done].
    destruct (match CliquePeriod _ with None => true | Some period => 0 <? period end);
      [ | done].
    destruct (Z.eqb_spec (newTxs (wl_worker l)) 0) as [Hz | Hnz]; [done | ].
    intros _. split_and!; try done.
    + eexists. reflexivity.
    + intros p Hp. unfold commit. rewrite Hp. cbn [wl_cells].
      rewrite lookup_insert_ne; [apply lookup_insert_eq | ].
      intros Heq.
      apply (is_fresh (dom (<[p := commitInterruptResubmit]> (wl_cells l)))).
      rewrite Heq. apply elem_of_dom. rewrite lookup_insert_eq. eauto.
  - destruct ev as [ | head | | interval | adjust]; cbn [newWorkLoop].
    + intros _. exact (Hcommit _ _ _ now').
    + intros _. exact (Hcommit _ _ _ now').
    + destruct (running (wl_worker l) && _); [ | done].
      destruct (newTxs (wl_worker l) =? 0); [done | ]. intros _. exact (Hcommit _ _ _ now').
    + done.
    + destruct (inc adjust); done.
Qed.
End Interrupts.

(** ** Possible uncles grow stale *)

Section StaleUncles.

Lemma cleanUncles_spec (uncles : list (Hash * Block)) (head : Block) (hu : Hash * Block) :
  0 <= b_Number (snd hu) -> b_Number (snd hu) + staleThreshold < 2 ^ 64 ->
  0 <= b_Number head < 2 ^ 64 ->
  hu ∈ cleanUncles uncles head <-> hu ∈ uncles /\ b_Number head - b_Number (snd hu) < 7.
Proof.
  intros Hlo Hhi Hhead. unfold cleanUncles. rewrite list_elem_of_filter.
  unfold b_NumberU64, b_Number, Int.wrapU64, staleThreshold in *.
  rewrite (Z.mod_small (Number (b_header (snd hu)))) by lia.
  rewrite (Z.mod_small (Number (b_header (snd hu)) + 7)) by lia.
  rewrite (Z.mod_small (Number (b_header head))) by lia.
  split.
  - intros [H1 H2]. split; [exact H2 | lia].
  - intros [H1 H2]. split; [lia | exact H1].
Qed.

(** X13: the clean-up of [mainLoop] keeps a possible uncle block, local or
    remote, exactly when the chain head is less than [staleThreshold] = 7
    blocks past it, and keeps the blocks that stay in their order; it
    touches nothing else of the worker.  Block numbers are [uint64]. *)
Theorem cleanTicker_evicts_stale_uncles (w : worker) (hu : Hash * Block) :
  0 <= b_Number (snd hu) -> b_Number (snd hu) + staleThreshold < 2 ^ 64 ->
  0 <= b_Number (CurrentBlock (chain w)) < 2 ^ 64 ->
  (hu ∈ localUncles (mainLoop_cleanTicker w) <->
   hu ∈ localUncles w /\ b_Number (CurrentBlock (chain w)) - b_Number (snd hu) < 7) /\
  (hu ∈ remoteUncles (mainLoop_cleanTicker w) <->
   hu ∈ remoteUncles w /\ b_Number (CurrentBlock (chain w)) - b_Number (snd hu) < 7) /\
  localUncles (mainLoop_cleanTicker w) `sublist_of` localUncles w /\
  remoteUncles (mainLoop_cleanTicker w) `sublist_of` remoteUncles w /\
  set_possibleUncles (mainLoop_cleanTicker w) (localUncles w) (remoteUncles w) = w.
Proof.
  intros Hlo Hhi Hhead. unfold mainLoop_cleanTicker. cbn [localUncles remoteUncles
    set_possibleUncles].
  split_and!.
  - apply cleanUncles_spec; assumption.
  - apply cleanUncles_spec; assumption.
  - apply sublist_filter.
  - apply sublist_filter.
  - by destruct w.
Qed.
End StaleUncles.

(** ** From a sealing task to a sealed block *)

Section Sealing.
Context `{Externals}.

Local Abbreviation stamp hash number i taskReceipt :=
  (mkReceipt (r_status taskReceipt) (r_gasUsed taskReceipt)
     (map (fun taskLog => mkLog (log_address taskLog) (log_data taskLog) hash)
        (r_Logs taskReceipt))
     hash number (Int.wrapU64 (Z.of_nat i))).

Lemma map_imap {A B C : Type} (f : B -> C) (g : nat -> A -> B) (l : list A) :
  map f (imap g l) = imap (fun i x => f (g i x)) l.
Proof.
  revert g. induction l as [ | x l IH]; intros g; [reflexivity | ].
  cbn. f_equal. apply IH.
Qed.

Lemma Forall_imap {A B : Type} (P : B -> Prop) (g : nat -> A -> B) (l : list A) :
  (forall i x, P (g i x)) -> Forall P (imap g l).
Proof.
  revert g. induction l as [ | x l IH]; intros g Hg; [constructor | ].
  cbn. constructor; [apply Hg | ]. apply IH. intros i y. apply Hg.
Qed.

Lemma stampReceipts_imap (hash : Hash) (number : Z) (taskReceipts : list Receipt) :
  stampReceipts hash number taskReceipts
  = (imap (fun i taskReceipt => stamp hash number i taskReceipt) taskReceipts,
     concat (imap (fun i taskReceipt => r_Logs (stamp hash number i taskReceipt))
               taskReceipts)).
Proof.
  unfold stampReceipts. induction taskReceipts as [ | taskReceipt rest IH] using rev_ind.
  - reflexivity.
  - rewrite !imap_app, fold_left_app, IH. cbn. rewrite concat_app. cbn.
    rewrite app_nil_r, Nat.add_0_r. reflexivity.
Qed.

(** X14: the receipts written for a sealed block are the receipts of the
    task, one for one and in their order, each with its status and gas
    used, placed in the block (its hash, its number, and the position of the
    receipt as the transaction index); every log of every receipt is the
    log of the task with the hash of the block, and the logs written are
    those of the receipts, receipt after receipt. *)
Theorem stampReceipts_places_receipts (hash : Hash) (number : Z)
    (taskReceipts : list Receipt) :
  Z.of_nat (length taskReceipts) <= 2 ^ 64 ->
  length (fst (stampReceipts hash number taskReceipts)) = length taskReceipts /\
  (forall (i : nat) (taskReceipt : Receipt),
      taskReceipts !! i = Some taskReceipt ->
      exists receipt,
        fst (stampReceipts hash number taskReceipts) !! i = Some receipt /\
        r_status receipt = r_status taskReceipt /\
        r_gasUsed receipt = r_gasUsed taskReceipt /\
        r_BlockHash receipt = hash /\ r_BlockNumber receipt = number /\
        r_TransactionIndex receipt = Z.of_nat i /\
        map log_address (r_Logs receipt) = map log_address (r_Logs taskReceipt) /\
        map log_data (r_Logs receipt) = map log_data (r_Logs taskReceipt)) /\
  snd (stampReceipts hash number taskReceipts)
  = concat (map r_Logs (fst (stampReceipts hash number taskReceipts))) /\
  Forall (fun l => log_BlockHash l = hash) (snd (stampReceipts hash number taskReceipts)).
Proof.
  intros Hlen. rewrite stampReceipts_imap. cbn [fst snd]. split_and!.
  - apply length_imap.
  - intros i taskReceipt Hi. eexists. rewrite list_lookup_imap, Hi. cbn.
    split; [reflexivity | ]. split_and!; try reflexivity.
    + apply lookup_lt_Some in Hi. unfold Int.wrapU64.
      rewrite Z.mod_small; [reflexivity | lia].
    + cbn [r_Logs]. rewrite map_map. reflexivity.
    + cbn [r_Logs]. rewrite map_map. reflexivity.
  - rewrite map_imap. reflexivity.
  - apply Forall_concat, Forall_imap. intros i r. cbn [r_Logs].
    apply Forall_forall. intros l Hl. apply list_elem_of_In, in_map_iff in Hl.
    destruct Hl as (l0 & <- & _). reflexivity.
Qed.

(** X15: a task that [taskLoop] handed to the engine is the one
    [resultLoop] finds for a block with the same seal hash, as long as the
    chain head has not moved [staleThreshold] = 7 blocks past it: the block
    is written with the receipts and the state of that task.  A task whose
    sealing failed, or that fell stale, is not found, and nothing is
    written.  The task is neither a duplicate of the previous one nor
    skipped, and the chain does not have the block yet. *)
Theorem sealed_block_finds_its_task (skipSealHook : option (task -> bool))
    (Seal : BlockChain -> Block -> nat -> option error) (HasBlock : Hash -> Z -> bool)
    (s : taskLoopState) (t : task) (number : Z) (block : Block) :
  let w := tl_worker s in
  let sealHash := SealHash (engine w) (b_header (t_block t)) in
  let w' := tl_worker (taskLoop skipSealHook Seal s t) in
  let pruned :=
    set_pendingTasks_newTxs w' (clearPending (pendingTasks w') number) (newTxs w') in
  sealHash <> tl_prev s ->
  match skipSealHook with Some hook => hook t = false | None => True end ->
  SealHash (engine w) (b_header block) = sealHash ->
  HasBlock (Block_Hash block) (b_NumberU64 block) = false ->
  0 <= b_Number (t_block t) -> b_Number (t_block t) + staleThreshold < 2 ^ 64 ->
  (Seal (chain w) (t_block t) (tl_made s) = None ->
   number < b_Number (t_block t) + staleThreshold ->
   resultLoop pruned HasBlock (Some block)
   = Some (mkWritten block
             (fst (stampReceipts (Block_Hash block) (b_Number block) (t_receipts t)))
             (snd (stampReceipts (Block_Hash block) (b_Number block) (t_receipts t)))
             (t_state t))) /\
  (Seal (chain w) (t_block t) (tl_made s) <> None ->
   resultLoop w' HasBlock (Some block) = None) /\
  (b_Number (t_block t) + staleThreshold <= number ->
   resultLoop pruned HasBlock (Some block) = None).
Proof.
  intros w sealHash w' pruned Hnew Hskip Hseal Hhas Hlo Hhi.
  assert (Hstale : Int.wrapU64 (b_NumberU64 (t_block t) + staleThreshold)
                   = b_Number (t_block t) + staleThreshold).
  { unfold b_NumberU64, b_Number, Int.wrapU64, staleThreshold in *.
    rewrite (Z.mod_small (Number _)) by lia. apply Z.mod_small. lia. }
  assert (Hmade : tl_made (taskLoop_interrupt s) = tl_made s)
    by (unfold taskLoop_interrupt; destruct (tl_stopCh s); reflexivity).
  assert (Hw' : pendingTasks w' =
                match Seal (chain w) (t_block t) (tl_made s) with
                | Some _ => delete sealHash (<[sealHash := t]> (pendingTasks w))
                | None => <[sealHash := t]> (pendingTasks w)
                end /\ engine w' = engine w).
  { subst w'. unfold taskLoop. fold w. fold sealHash.
    rewrite bool_decide_eq_false_2 by exact Hnew. cbn zeta. rewrite Hmade.
    assert (Hs : match skipSealHook with Some hook => hook t | None => false end = false)
      by (destruct skipSealHook; [exact Hskip | reflexivity]).
    rewrite Hs. cbn [tl_worker chain set_pendingTasks_newTxs].
    destruct (Seal (chain w) (t_block t) (tl_made s)); split; reflexivity. }
  destruct Hw' as [Htasks Heng].
  unfold resultLoop. rewrite Hhas. subst pruned. cbn [engine pendingTasks
    set_pendingTasks_newTxs]. rewrite Heng, Hseal.
  split_and!.
  - intros Hok Hnum. rewrite clearPending_lookup, Htasks, Hok, lookup_insert_eq.
    rewrite bool_decide_eq_false_2 by (rewrite Hstale; lia).
    destruct (stampReceipts _ _ _). reflexivity.
  - intros Hfail. rewrite Htasks.
    destruct (Seal (chain w) (t_block t) (tl_made s)); [ | contradiction].
    rewrite lookup_delete_eq. reflexivity.
  - intros Hnum. rewrite clearPending_lookup, Htasks.
    destruct (Seal (chain w) (t_block t) (tl_made s)).
    + rewrite lookup_delete_eq. reflexivity.
    + rewrite lookup_insert_eq. rewrite bool_decide_eq_true_2 by (rewrite Hstale; lia).
      reflexivity.
Qed.

(** The stop channels made so far are numbered in the order they were
    made: all are closed but the last, which is that of the sealing in
    flight. *)
Local Abbreviation one_open s :=
  (match tl_made s with
   | O => tl_stopCh s = None /\ tl_closed s = []
   | S n => tl_stopCh s = Some n /\ tl_closed s = seq 0 n
   end).

Lemma taskLoop_one_open (skipSealHook : option (task -> bool))
    (Seal : BlockChain -> Block -> nat -> option error) (s : taskLoopState) (t : task) :
  one_open s -> one_open (taskLoop skipSealHook Seal s t).
Proof.
  intros Hinv. unfold taskLoop. case_bool_decide as Hdup; [exact Hinv | ].
  assert (Hint : tl_made (taskLoop_interrupt s) = tl_made s /\
                 tl_closed (taskLoop_interrupt s) = seq 0 (tl_made s)).
  { unfold taskLoop_interrupt. destruct s as [w0 stop prev closed made].
    cbn [tl_made tl_stopCh tl_closed tl_worker tl_prev] in *.
    destruct made as [ | n]; destruct Hinv as [-> ->]; cbn [tl_made tl_closed];
      rewrite ?seq_S; split; reflexivity. }
  destruct Hint as [Hm Hc]. cbn zeta.
  destruct (match skipSealHook with Some hook => hook t | None => false end);
    cbn [tl_made tl_stopCh tl_closed]; rewrite Hm, Hc; split; reflexivity.
Qed.

(** X16: whatever tasks [taskLoop] receives, at most one sealing is in
    flight: the stop channels of all the sealings it started were closed,
    each once and in the order they were made, except the one it made last,
    which is open. *)
Theorem taskLoop_aborts_previous_sealing (skipSealHook : option (task -> bool))
    (Seal : BlockChain -> Block -> nat -> option error) (w : worker) (tasks : list task) :
  let s := fold_left (taskLoop skipSealHook Seal) tasks (taskLoop_start w) in
  tl_closed s ++ match tl_stopCh s with Some ch => [ch] | None => [] end
  = seq 0 (tl_made s) /\
  (tl_made s = 0%nat \/ tl_stopCh s = Some (pred (tl_made s))) /\
  NoDup (tl_closed s) /\
  (forall ch, tl_stopCh s = Some ch -> ch ∉ tl_closed s).
Proof.
  cbn zeta.
  assert (Hinv : one_open (fold_left (taskLoop skipSealHook Seal) tasks (taskLoop_start w))).
  { apply (fold_left_preserves (fun s => one_open s)); [ | split; reflexivity].
    intros s t Hs. apply taskLoop_one_open. exact Hs. }
  destruct (tl_made _) as [ | n].
  - destruct Hinv as [-> ->]. split_and!; [reflexivity | by left | constructor | done].
  - destruct Hinv as [-> ->]. split_and!.
    + rewrite seq_S. reflexivity.
    + by right.
    + apply NoDup_seq.
    + intros ch [= <-]. rewrite list_elem_of_In, in_seq. lia.
Qed.
End Sealing.

(** ** Throttling *)

Section Throttle.

Lemma sub64_small (a b : Z) : Int.is_int64 (a - b) -> Int.sub64 a b = a - b.
Proof. intros Hab. unfold Int.sub64. apply wrap64_small. exact Hab. Qed.


(** X18: on six or more ancestor times [throttleMining] returns, and on
    fewer it panics.  When none of the times is in the future, the delay it
    asks for is between 0 and 2000 seconds, and the second number it
    returns is the time since the first of them.  The second of the six
    times, that of the tenth ancestor, has no bearing on the result. *)
Theorem throttleMining_delay (t : Z) (ts : list Z) :
  (is_Some (throttleMining t ts) <-> (6 <= length ts)%nat) /\
  (forall x, throttleMining t (<[1%nat := x]> ts) = throttleMining t ts) /\
  (0 <= t < 2 ^ 62 -> Forall (fun x => 0 <= x <= t) ts ->
   forall delay pt,
     throttleMining t ts = Some (delay, pt) ->
     0 <= delay <= 2000 /\ Some (t - pt) = ts !! 0%nat).
Proof.
  split_and!.
  - destruct ts as [ | t0 [ | t1 [ | t2 [ | t3 [ | t4 [ | t5 rest]]]]]];
      cbn [length]; unfold throttleMining; cbn [lookup list_lookup mbind option_bind];
      try (split; [intros [? Hd]; discriminate Hd | lia]);
      try (split; [intros [? Hd]; repeat destruct (_ && _); discriminate Hd | lia]).
    split; [lia | intros _].
    repeat destruct (_ && _); eauto.
  - intros x. destruct ts as [ | t0 [ | t1 rest]]; reflexivity.
  - intros Ht Hts delay pt.
    destruct ts as [ | t0 [ | t1 [ | t2 [ | t3 [ | t4 [ | t5 rest]]]]]];
      unfold throttleMining; cbn [lookup list_lookup mbind option_bind];
      try discriminate;
      try (repeat destruct (_ && _); discriminate).
    repeat match goal with
           | Hf : Forall _ (_ :: _) |- _ =>
               let Hx := fresh "Hx" in
               apply Forall_cons in Hf; destruct Hf as [Hx Hf]
           end.
    rewrite !sub64_small by (unfold Int.is_int64; lia).
    repeat match goal with
           | |- context [(0 <? ?a) && (?b <? ?c)] =>
               destruct (Z.ltb_spec 0 a); destruct (Z.ltb_spec b c); cbn [andb]
           end;
      intros [= <- <-];
      rewrite ?sub64_small by (unfold Int.is_int64; lia);
      (split; [lia | f_equal; lia]).
Qed.
End Throttle.

(** ** Feedback on the resubmit interval *)

Section Feedback.
Context `{Externals}.
Import Float64 Float64Facts.
Local Open Scope Q_scope.

Lemma round64_Z (n : Z) : (Z.abs n < 2 ^ 53)%Z -> round64 (inject_Z n) == inject_Z n.
Proof. exact (of_int_exact n). Qed.

(** Rounding does not cross a number that [float64] holds exactly. *)
Lemma round64_ge_Z (n : Z) (q : Q) :
  (Z.abs n < 2 ^ 53)%Z -> inject_Z n <= q -> inject_Z n <= round64 q.
Proof.
  intros Hn Hq. rewrite <- (round64_Z n Hn). apply round64_mono. exact Hq.
Qed.

Lemma round64_le_Z (n : Z) (q : Q) :
  (Z.abs n < 2 ^ 53)%Z -> q <= inject_Z n -> round64 q <= inject_Z n.
Proof.
  intros Hn Hq. rewrite <- (round64_Z n Hn). apply round64_mono. exact Hq.
Qed.

Lemma const_keep_bounds :
  9 # 10 <= const (1 - intervalAdjustRatio) <= 9000000000000001 # 10000000000000000.
Proof. split; apply Qle_bool_imp_le; vm_compute; reflexivity. Qed.

Lemma const_ratio_bounds :
  1 # 10 <= const intervalAdjustRatio <= 1000000000000001 # 10000000000000000.
Proof. split; apply Qle_bool_imp_le; vm_compute; reflexivity. Qed.

Lemma const_bias_exact : const intervalAdjustBias == inject_Z 200000000.
Proof. apply (round64_Z 200000000). vm_compute. reflexivity. Qed.

Lemma inject_Z_div_le (n d : Z) : (0 < d)%Z -> inject_Z (n / d) * inject_Z d <= inject_Z n.
Proof.
  intros Hd. rewrite <- inject_Z_mult, <- Zle_Qle.
  pose proof (Z.mul_div_le n d Hd). lia.
Qed.

Lemma inject_Z_div_ge (n d : Z) :
  (0 < d)%Z -> inject_Z n <= inject_Z (n / d + 1) * inject_Z d.
Proof.
  intros Hd. rewrite <- inject_Z_mult, <- Zle_Qle.
  pose proof (Z.mul_succ_div_gt n d Hd). lia.
Qed.

Lemma inject_Z_sub (a b : Z) : inject_Z (a - b) == inject_Z a - inject_Z b.
Proof. unfold Zminus. rewrite inject_Z_plus, inject_Z_opp. ring. Qed.

Lemma Qmult_le_l_nonneg (a b c : Q) : 0 <= c -> a <= b -> a * c <= b * c.
Proof. intros Hc Hab. apply Qmult_le_compat_r; assumption. Qed.

(** The interval after a request to increase it. *)
Lemma recommit_increase_bounds (minRecommit prev : Z) (r : Q) :
  (0 <= prev < 2 ^ 52)%Z -> 0 < r -> r <= 1 ->
  (Z.min (prev + 19999999) maxRecommitInterval
   <= recalcRecommit minRecommit prev (fdiv (of_int prev) r) true
   <= maxRecommitInterval)%Z.
Proof.
  intros Hprev Hr0 Hr1. unfold recalcRecommit.
  assert (Hmaxv : maxRecommitInterval = 15000000000%Z) by reflexivity.
  pose proof (of_int_exact prev ltac:(lia)) as HprevF.
  set (prevF := of_int prev) in *.
  assert (Hprev0 : 0 <= inject_Z prev) by (rewrite <- (Zle_Qle 0); lia).
  set (target := fdiv prevF r).
  assert (Htarget : inject_Z prev <= target).
  { apply round64_ge_Z; [lia | ]. apply Qle_shift_div_l; [exact Hr0 | ].
    rewrite HprevF.
    apply Qle_trans with (1 * inject_Z prev); [ | lra].
    rewrite (Qmult_comm (inject_Z prev) r). apply Qmult_le_l_nonneg; assumption. }
  set (sum := fadd target (const intervalAdjustBias)).
  assert (Hsum : inject_Z (prev + 200000000) <= sum).
  { apply round64_ge_Z; [lia | ]. rewrite inject_Z_plus.
    pose proof const_bias_exact as Hb. lra. }
  assert (Hsum0 : 0 <= sum).
  { apply Qle_trans with (inject_Z (prev + 200000000)); [ | exact Hsum].
    rewrite <- (Zle_Qle 0). lia. }
  set (right := fmul (const intervalAdjustRatio) sum).
  assert (Hright : inject_Z ((prev + 200000000) / 10) <= right).
  { apply round64_ge_Z.
    - apply Z.abs_lt. split.
      + apply Z.lt_le_trans with 0%Z; [lia | apply Z.div_pos; lia].
      + apply Z.div_lt_upper_bound; lia.
    - pose proof const_ratio_bounds as [Hc1 _].
      pose proof (inject_Z_div_le (prev + 200000000) 10 ltac:(lia)) as Hd.
      change (inject_Z 10) with (10 # 1) in Hd.
      pose proof (Qmult_le_l_nonneg _ _ sum Hsum0 Hc1). lra. }
  set (left := fmul prevF (const (1 - intervalAdjustRatio))).
  assert (Hleft : inject_Z (9 * prev / 10) <= left).
  { apply round64_ge_Z.
    - apply Z.abs_lt. split.
      + apply Z.lt_le_trans with 0%Z; [lia | apply Z.div_pos; lia].
      + apply Z.div_lt_upper_bound; lia.
    - pose proof const_keep_bounds as [Hc9 _].
      pose proof (inject_Z_div_le (9 * prev) 10 ltac:(lia)) as Hd.
      change (inject_Z 10) with (10 # 1) in Hd. rewrite inject_Z_mult in Hd.
      change (inject_Z 9) with (9 # 1) in Hd.
      pose proof (Qmult_le_l_nonneg _ _ (inject_Z prev) Hprev0 Hc9) as Hm.
      rewrite HprevF, (Qmult_comm (inject_Z prev)). lra. }
  set (next := fadd left right).
  assert (Hnext : inject_Z (prev + 19999999) <= next).
  { apply round64_ge_Z; [lia | ].
    assert (Hz : (prev + 19999999 <= 9 * prev / 10 + (prev + 200000000) / 10)%Z).
    { pose proof (Z.mul_succ_div_gt (9 * prev) 10 ltac:(lia)).
      pose proof (Z.mul_succ_div_gt (prev + 200000000) 10 ltac:(lia)). lia. }
    rewrite Zle_Qle in Hz. rewrite (inject_Z_plus (9 * prev / 10)) in Hz. lra. }
  pose proof maxRecommit_exact as Hmax.
  set (m := of_int maxRecommitInterval) in *.
  assert (Hm9 : inject_Z maxRecommitInterval <= inject_Z (9 * 10 ^ 18))
    by (rewrite <- Zle_Qle; vm_compute; discriminate).
  assert (Hp9 : 0 <= inject_Z (prev + 19999999)) by (rewrite <- (Zle_Qle 0); lia).
  assert (H9 : 0 <= inject_Z (9 * 10 ^ 18)) by (rewrite <- (Zle_Qle 0); vm_compute; discriminate).
  unfold fgt. destruct (Qle_bool next m) eqn:E; cbn [negb].
  - apply Qle_bool_iff in E.
    rewrite to_int64_in_range
      by (apply trunc_in_range; clear - E Hnext Hmax Hm9 Hp9 H9; lra).
    pose proof (trunc_mono _ _ Hnext) as T1. rewrite trunc_Z in T1.
    pose proof (trunc_mono _ _ E) as T2. rewrite (trunc_of_Z m _ Hmax) in T2. lia.
  - assert (Hm0 : 0 <= inject_Z maxRecommitInterval)
      by (rewrite <- (Zle_Qle 0); vm_compute; discriminate).
    rewrite to_int64_in_range by (apply trunc_in_range; clear - Hmax Hm9 H9 Hm0; lra).
    rewrite (trunc_of_Z m _ Hmax). lia.
Qed.

(** X19: a request to increase the resubmit interval, with a ratio between
    0 (excluded) and 1 as the committers send it, gives an interval that is
    longer than the old one by 19 999 999 ns or more, or the maximum of
    15 s, which it never exceeds: an interval of at most 15 s is never
    shortened, and a longer one is cut to 15 s. *)
Theorem resubmitAdjust_increase_never_shortens (l : workLoop) (now : Z) (r : Q) :
  (0 <= wl_recommit l < 2 ^ 52)%Z -> 0 < r -> r <= 1 ->
  let l' := newWorkLoop l now (resubmitAdjustCh (mkAdjust r true)) in
  (Z.min (wl_recommit l + 19999999) maxRecommitInterval <= wl_recommit l'
   <= maxRecommitInterval)%Z.
Proof.
  intros Hprev Hr0 Hr1 l'. subst l'. unfold newWorkLoop.
  cbn [inc ratio set_recommit wl_recommit].
  apply recommit_increase_bounds; assumption.
Qed.

(** The interval after a request to decrease it. *)
Lemma recommit_decrease_bounds (mn prev : Z) :
  (0 <= mn < 2 ^ 53)%Z -> (0 <= prev < 2 ^ 53)%Z ->
  (mn <= recalcRecommit mn prev (of_int mn) false <= Z.max mn (prev - 19999996))%Z.
Proof.
  intros Hmin Hprev. unfold recalcRecommit.
  assert (H53 : (2 ^ 53 = 9007199254740992)%Z) by reflexivity.
  pose proof (of_int_exact prev ltac:(lia)) as HprevF.
  pose proof (of_int_exact mn ltac:(lia)) as HminF.
  set (prevF := of_int prev) in *. set (minF := of_int mn) in *.
  assert (Hprev0 : 0 <= inject_Z prev) by (rewrite <- (Zle_Qle 0); lia).
  assert (Hprev16 : inject_Z prev <= inject_Z 10000000000000000)
    by (rewrite <- Zle_Qle; lia).
  assert (Hmin0 : 0 <= inject_Z mn) by (rewrite <- (Zle_Qle 0); lia).
  assert (Hmin16 : inject_Z mn <= inject_Z 10000000000000000)
    by (rewrite <- Zle_Qle; lia).
  change (inject_Z 10000000000000000) with (10000000000000000 # 1) in Hprev16, Hmin16.
  set (diff := fsub minF (const intervalAdjustBias)).
  assert (Hdiff : diff == inject_Z mn - inject_Z 200000000).
  { unfold diff, fsub.
    rewrite (round64_comp _ (inject_Z (mn - 200000000))).
    - rewrite (round64_Z (mn - 200000000)) by lia. apply inject_Z_sub.
    - rewrite HminF, const_bias_exact. symmetry. apply inject_Z_sub. }
  change (inject_Z 200000000) with (200000000 # 1) in Hdiff.
  set (right := fmul (const intervalAdjustRatio) diff).
  assert (Hright : right <= inject_Z ((mn - 200000000) / 10 + 2)).
  { apply round64_le_Z.
    - pose proof (Z.mul_div_le (mn - 200000000) 10 ltac:(lia)).
      pose proof (Z.mul_succ_div_gt (mn - 200000000) 10 ltac:(lia)). lia.
    - pose proof const_ratio_bounds as [Hlo Hhi].
      pose proof (inject_Z_div_ge (mn - 200000000) 10 ltac:(lia)) as Hd.
      change (inject_Z 10) with (10 # 1) in Hd.
      rewrite (inject_Z_plus _ 2). rewrite (inject_Z_plus _ 1) in Hd.
      change (inject_Z 2) with (2 # 1). change (inject_Z 1) with (1 # 1) in Hd.
      rewrite (inject_Z_sub mn 200000000) in Hd.
      change (inject_Z 200000000) with (200000000 # 1) in Hd.
      destruct (Qlt_le_dec diff 0) as [Hneg | Hpos].
      + assert (Hm : const intervalAdjustRatio * - diff >= (1 # 10) * - diff)
          by (apply Qmult_le_l_nonneg; lra).
        lra.
      + pose proof (Qmult_le_l_nonneg _ _ diff Hpos Hhi) as Hm. lra. }
  set (left := fmul prevF (const (1 - intervalAdjustRatio))).
  assert (Hleft : left <= inject_Z (9 * prev / 10 + 2)).
  { apply round64_le_Z.
    - pose proof (Z.mul_div_le (9 * prev) 10 ltac:(lia)).
      pose proof (Z.mul_succ_div_gt (9 * prev) 10 ltac:(lia)). lia.
    - pose proof const_keep_bounds as [_ Hhi].
      pose proof (inject_Z_div_ge (9 * prev) 10 ltac:(lia)) as Hd.
      change (inject_Z 10) with (10 # 1) in Hd.
      rewrite (inject_Z_plus _ 2). rewrite (inject_Z_plus _ 1), inject_Z_mult in Hd.
      change (inject_Z 2) with (2 # 1). change (inject_Z 1) with (1 # 1) in Hd.
      change (inject_Z 9) with (9 # 1) in Hd.
      pose proof (Qmult_le_l_nonneg _ _ (inject_Z prev) Hprev0 Hhi) as Hm.
      rewrite HprevF, (Qmult_comm (inject_Z prev)). lra. }
  set (next := fadd left right).
  assert (Hz : (9 * prev / 10 + 2 + ((mn - 200000000) / 10 + 2)
                <= Z.max mn prev - 19999996)%Z).
  { pose proof (Z.mul_div_le (9 * prev) 10 ltac:(lia)).
    pose proof (Z.mul_div_le (mn - 200000000) 10 ltac:(lia)). lia. }
  assert (Hz' : (- 20000001 <= 9 * prev / 10 + 2 + ((mn - 200000000) / 10 + 2))%Z).
  { pose proof (Z.mul_succ_div_gt (9 * prev) 10 ltac:(lia)).
    pose proof (Z.mul_succ_div_gt (mn - 200000000) 10 ltac:(lia)). lia. }
  assert (Hnext : next <= inject_Z (Z.max mn prev - 19999996)).
  { apply Qle_trans
      with (inject_Z (9 * prev / 10 + 2 + ((mn - 200000000) / 10 + 2)));
      [ | rewrite <- Zle_Qle; exact Hz].
    apply round64_le_Z; [lia | ]. rewrite inject_Z_plus.
    clear - Hleft Hright. lra. }
  assert (H9 : inject_Z (Z.max mn prev - 19999996) <= inject_Z (9 * 10 ^ 18))
    by (rewrite <- Zle_Qle; change (9 * 10 ^ 18)%Z with 9000000000000000000%Z; lia).
  assert (Hm9 : inject_Z mn <= inject_Z (9 * 10 ^ 18))
    by (rewrite <- Zle_Qle; change (9 * 10 ^ 18)%Z with 9000000000000000000%Z; lia).
  assert (H90 : 0 <= inject_Z (9 * 10 ^ 18))
    by (rewrite <- (Zle_Qle 0); vm_compute; discriminate).
  unfold flt. destruct (Qle_bool minF next) eqn:E; cbn [negb].
  - apply Qle_bool_iff in E.
    rewrite to_int64_in_range
      by (apply trunc_in_range; clear - E Hnext HminF Hmin0 H9 H90; lra).
    pose proof (trunc_mono _ _ Hnext) as T1. rewrite trunc_Z in T1.
    pose proof (trunc_mono _ _ E) as T2. rewrite (trunc_of_Z minF _ HminF) in T2. lia.
  - rewrite to_int64_in_range
      by (apply trunc_in_range; clear - HminF Hmin0 Hm9 H90; lra).
    rewrite (trunc_of_Z minF _ HminF). lia.
Qed.

(** X20: a request to decrease the resubmit interval never lengthens it
    beyond the minimum the user asked for and never takes it below that
    minimum: the new interval is the minimum, or shorter than the old one by
    19 999 996 ns or more.  The minimum itself stays. *)
Theorem resubmitAdjust_decrease_bounds (l : workLoop) (now : Z) (r : Q) :
  (0 <= wl_minRecommit l < 2 ^ 53)%Z -> (0 <= wl_recommit l < 2 ^ 53)%Z ->
  let l' := newWorkLoop l now (resubmitAdjustCh (mkAdjust r false)) in
  (wl_minRecommit l <= wl_recommit l'
   <= Z.max (wl_minRecommit l) (wl_recommit l - 19999996))%Z /\
  wl_minRecommit l' = wl_minRecommit l.
Proof.
  intros Hmin Hprev l'. subst l'. unfold newWorkLoop.
  cbn [inc ratio set_recommit wl_recommit wl_minRecommit]. split; [ | reflexivity].
  apply recommit_decrease_bounds; assumption.
Qed.

(** X21: the ratio a committer sends with a request to increase the
    resubmit interval is the share of the gas limit that was used, and at
    least 0.1: it is between 0.1 and 1 whenever the gas left in the pool is
    not more than the gas limit of the block. *)
Theorem interruptCheck_ratio_in_range {Q : Type} (interrupt : option (nat -> Z))
    (gasLimit gas : Z) (c : committer Q) :
  gasPool (c_env c) = Some gas -> (0 <= gas <= gasLimit)%Z -> (0 < gasLimit < 2 ^ 64)%Z ->
  c_resubmitAdjustCh (fst (interruptCheck interrupt gasLimit c)) = c_resubmitAdjustCh c \/
  exists ratio,
    c_resubmitAdjustCh (fst (interruptCheck interrupt gasLimit c))
    = c_resubmitAdjustCh c ++ [mkAdjust ratio true] /\
    const (1 # 10) <= ratio /\ ratio <= 1 /\
    (ratio = const (1 # 10) \/
     ratio = fdiv (of_int (gasLimit - gas)) (of_int gasLimit)).
Proof.
  intros Hgas Hrange Hlimit. unfold interruptCheck.
  destruct interrupt as [load | ]; [ | by left].
  destruct (negb _); [ | by left].
  destruct (_ =? commitInterruptResubmit); [ | by left].
  rewrite Hgas. right. cbn [fst send_adjust c_resubmitAdjustCh].
  unfold Int.wrapU64. rewrite Z.mod_small by lia.
  set (x := of_int (gasLimit - gas)). set (y := of_int gasLimit).
  assert (Hx0 : 0 <= x).
  { apply round64_nonneg. rewrite <- (Zle_Qle 0). lia. }
  assert (Hxy : x <= y) by (apply of_int_mono; lia).
  assert (Hy : 1 <= y).
  { change 1 with (inject_Z 1). apply round64_ge_Z; [reflexivity | ].
    rewrite <- Zle_Qle. lia. }
  assert (Hr1 : fdiv x y <= 1).
  { change 1 with (inject_Z 1). apply round64_le_Z; [reflexivity | ].
    change (inject_Z 1) with 1. apply Qle_shift_div_r; lra. }
  pose proof const_ratio_bounds as [_ Hc].
  change (const intervalAdjustRatio) with (const (1 # 10)) in Hc.
  eexists. split; [reflexivity | ].
  unfold flt. destruct (Qle_bool (const (1 # 10)) (fdiv x y)) eqn:E; cbn [negb].
  - apply Qle_bool_iff in E. split_and!; [exact E | exact Hr1 | by right].
  - split_and!; [apply Qle_refl | lra | by left].
Qed.
(** The intervals of the work loop are in order: the minimum is a second or
    more, the interval is between the minimum and 15 s (whichever way round
    they are), and the timer is armed for a second or more. *)
Local Abbreviation paced l :=
  (minRecommitInterval <= wl_minRecommit l < 2 ^ 52 /\
   Z.min (wl_minRecommit l) maxRecommitInterval <= wl_recommit l
   <= Z.max (wl_minRecommit l) maxRecommitInterval /\
   (forall d, wl_timer l = Some d -> minRecommitInterval <= d))%Z.

(** The requests the work loop is sent: an interval that fits, and a ratio
    between 0 (excluded) and 1 with a request to increase. *)
Local Abbreviation sane ev :=
  (match ev with
   | resubmitIntervalCh interval => (interval < 2 ^ 52)%Z
   | resubmitAdjustCh adjust => inc adjust = true -> 0 < ratio adjust /\ ratio adjust <= 1
   | _ => True
   end).

Lemma commit_paced (l : workLoop) (noempty : bool) (s : Z) :
  paced l -> paced (commit l noempty s).
Proof.
  intros (Hmin & Hrec & Htimer). unfold commit.
  cbn [wl_minRecommit wl_recommit wl_timer].
  split; [exact Hmin | split; [exact Hrec | ]].
  intros d [= <-]. unfold minRecommitInterval, maxRecommitInterval, second in *. lia.
Qed.

Lemma newWorkLoop_paced (l : workLoop) (now : Z) (ev : workEvent) :
  paced l -> sane ev -> paced (newWorkLoop l now ev).
Proof.
  intros Hl Hev. destruct ev as [ | head | | interval | adjust]; cbn [newWorkLoop].
  - apply commit_paced. exact Hl.
  - apply commit_paced. exact Hl.
  - destruct (running (wl_worker l) && _); [ | exact Hl].
    destruct (newTxs (wl_worker l) =? 0)%Z; [ | apply commit_paced; exact Hl].
    destruct Hl as (Hmin & Hrec & Htimer). cbn [set_timer wl_minRecommit wl_recommit wl_timer].
    split; [exact Hmin | split; [exact Hrec | ]].
    intros d [= <-]. unfold minRecommitInterval, maxRecommitInterval, second in *. lia.
  - destruct Hl as (Hmin & Hrec & Htimer).
    cbn [set_recommit wl_minRecommit wl_recommit wl_timer].
    unfold minRecommitInterval, maxRecommitInterval, second in *.
    destruct (Z.ltb_spec interval (1 * 1000000000)); split_and!; try done; lia.
  - destruct Hl as (Hmin & Hrec & Htimer).
    assert (Hrange : (0 <= wl_recommit l < 2 ^ 52)%Z)
      by (unfold minRecommitInterval, maxRecommitInterval, second in *; lia).
    destruct (inc adjust) eqn:Hinc; cbn [set_recommit wl_minRecommit wl_recommit wl_timer].
    + destruct (Hev eq_refl) as [Hr0 Hr1].
      pose proof (recommit_increase_bounds (wl_minRecommit l) (wl_recommit l)
                    (ratio adjust) Hrange Hr0 Hr1) as Hb.
      split_and!; try done; unfold minRecommitInterval, maxRecommitInterval, second in *;
        lia.
    + pose proof (recommit_decrease_bounds (wl_minRecommit l) (wl_recommit l)) as Hb.
      unfold minRecommitInterval, maxRecommitInterval, second in *.
      specialize (Hb ltac:(lia) ltac:(lia)).
      split_and!; try done; lia.
Qed.

(** X29: the work loop never resubmits more often than once a second.
    Started by [newWorker], which raises a recommit interval below 1 s to
    1 s, and whatever it is sent (intervals that fit 52 bits, and ratios
    between 0 and 1 with the requests to increase), the loop keeps its
    minimal interval at 1 s or more, its interval between that minimum and
    15 s, and arms its timer for 1 s or more. *)
Theorem newWorkLoop_interval_at_least_a_second (w : worker) (recommit0 : Duration)
    (ocs : list occurrence) :
  (recommit0 < 2 ^ 52)%Z ->
  Forall (fun oc =>
            match oc_event oc with
            | resubmitIntervalCh interval => (interval < 2 ^ 52)%Z
            | resubmitAdjustCh adjust =>
                inc adjust = true -> 0 < ratio adjust /\ ratio adjust <= 1
            | _ => True
            end) ocs ->
  let l := newWorkLoop_rounds (newWorkLoop_start w (newWorker_recommit recommit0)) ocs in
  (minRecommitInterval <= wl_minRecommit l)%Z /\
  (minRecommitInterval <= wl_recommit l)%Z /\
  (Z.min (wl_minRecommit l) maxRecommitInterval <= wl_recommit l
   <= Z.max (wl_minRecommit l) maxRecommitInterval)%Z /\
  (forall d, wl_timer l = Some d -> (minRecommitInterval <= d)%Z).
Proof.
  intros Hfit Hsane. cbn zeta.
  assert (Hstart : paced (newWorkLoop_start w (newWorker_recommit recommit0))).
  { unfold newWorkLoop_start, newWorker_recommit.
    cbn [wl_minRecommit wl_recommit wl_timer].
    unfold minRecommitInterval, maxRecommitInterval, second.
    destruct (Z.ltb_spec recommit0 (1 * 1000000000)); split_and!; try done; lia. }
  assert (Hend : paced (newWorkLoop_rounds
                          (newWorkLoop_start w (newWorker_recommit recommit0)) ocs)).
  { unfold newWorkLoop_rounds.
    generalize dependent (newWorkLoop_start w (newWorker_recommit recommit0)).
    induction Hsane as [ | oc ocs Hoc Hocs IH]; intros l0 Hl0; [exact Hl0 | ].
    cbn [fold_left]. apply IH. apply newWorkLoop_paced; [exact Hl0 | exact Hoc]. }
  destruct Hend as (Hmin & Hrec & Htimer).
  split_and!; try done; unfold minRecommitInterval, maxRecommitInterval, second in *; lia.
Qed.
End Feedback.

(** ** The deadline of the pacing controller *)

Section Deadline.
Context `{Externals}.

(** Removes the wrap-around of [int64] operations whose result fits. *)
Local Ltac unwrap :=
  unfold Int.add64, Int.sub64, Int.mul64;
  repeat match goal with
         | |- context [Int.wrap64 ?z] =>
             rewrite (wrap64_small z) by (unfold Int.is_int64; lia)
         end.

(** A time in milliseconds, split into seconds and nanoseconds for
    [time.Unix], is that many milliseconds. *)
Lemma time_Unix_of_ms (tms : Z) :
  0 <= tms < 2 ^ 53 ->
  time_Unix (Int.quot64 tms 1000) (Int.mul64 (Int.rem64 tms 1000) 1000000)
  = tms * 1000000.
Proof.
  intros Ht. unfold time_Unix, Int.quot64, Int.rem64, Int.mul64.
  rewrite Z.quot_div_nonneg, Z.rem_mod_nonneg by lia.
  pose proof (Z.div_mod tms 1000 ltac:(lia)) as Hdm.
  pose proof (Z.mod_pos_bound tms 1000 ltac:(lia)) as Hm.
  assert (Hd : 0 <= tms / 1000 < 2 ^ 53).
  { split; [apply Z.div_pos; lia | apply Z.div_lt_upper_bound; lia]. }
  rewrite !wrap64_small by (unfold Int.is_int64; lia). lia.
Qed.

(** X22: the deadline [till] that [timeIt] sets is a whole number of
    milliseconds; it is not before the current millisecond, and not later
    than the start of the second that follows the current second by the
    block interval (in seconds, at least 1) and one more, extended by
    [BlockMinBuildTime], whether block production is behind, ahead or on
    schedule. *)
Theorem timeIt_deadline (w : worker) (now : Time) (blockInterval : Z) :
  0 <= now < 2 ^ 62 -> 0 <= blockInterval < 2 ^ 40 ->
  0 <= BlockMinBuildTime < 2 ^ 40 -> 0 <= BlockTrailTime <= 1000 ->
  let seconds := Z.max 1 (blockInterval / 1000) in
  let till := snd (timeIt w now blockInterval) in
  now / 1000000 * 1000000 <= till /\
  till <= ((now / 1000000000 + seconds + 1) * 1000 + BlockMinBuildTime) * 1000000 /\
  till mod 1000000 = 0.
Proof.
  intros Hnow Hint Hbuild Htrail seconds till. subst till seconds.
  unfold timeIt. cbv zeta.
  rewrite (timeIt_seconds blockInterval) by (unfold Int.is_int64; lia).
  rewrite (Z.quot_div_nonneg blockInterval 1000) by lia.
  assert (Hsec : 1 <= Z.max 1 (blockInterval / 1000) < 2 ^ 40).
  { split; [lia | ]. apply Z.max_lub_lt; [lia | ]. apply Z.div_lt_upper_bound; lia. }
  set (seconds := Z.max 1 (blockInterval / 1000)) in *. clearbody seconds.
  match goal with |- context [let '(_, _) := ?x in _] => destruct x as [offset ahead] end.
  set (off := if (0 <=? offset) && (0 <? ahead) then 1 else offset). clearbody off.
  cbn [snd].
  assert (Hms : Int.quot64 now 1000000 = now / 1000000).
  { unfold Int.quot64. rewrite Z.quot_div_nonneg by lia. apply wrap64_small.
    unfold Int.is_int64. split; [ | apply Z.div_lt_upper_bound; lia].
    apply Z.le_trans with 0; [lia | apply Z.div_pos; lia]. }
  rewrite Hms.
  assert (Hrel : now / 1000000000 = now / 1000000 / 1000)
    by (rewrite Z.div_div by lia; reflexivity).
  assert (Hmsr : 0 <= now / 1000000 < 2 ^ 43).
  { split; [apply Z.div_pos; lia | apply Z.div_lt_upper_bound; lia]. }
  set (nowMs := now / 1000000) in *. clearbody nowMs.
  pose proof (Z.div_mod nowMs 1000 ltac:(lia)) as Hdm.
  pose proof (Z.mod_pos_bound nowMs 1000 ltac:(lia)) as Hmod.
  assert (Hs : 0 <= now / 1000000000 < 2 ^ 43) by (rewrite Hrel; lia).
  assert (Hsm : now / 1000000000 * 1000 <= nowMs < now / 1000000000 * 1000 + 1000)
    by (rewrite Hrel; lia).
  set (nowS := now / 1000000000) in *. clearbody nowS. clear Hrel Hdm Hmod.
  assert (Hgoal : forall tms,
             nowMs <= tms <= (nowS + seconds + 1) * 1000 + BlockMinBuildTime ->
             nowMs * 1000000 <= tms * 1000000 /\
             tms * 1000000 <= ((nowS + seconds + 1) * 1000 + BlockMinBuildTime) * 1000000 /\
             (tms * 1000000) mod 1000000 = 0).
  { intros tms Ht. split_and!; [lia | lia | apply Z.mod_mul; lia]. }
  destruct (off =? -1); [ | destruct (off =? 1)];
    match goal with |- context [if ?c then _ else _] => destruct c end;
    unwrap; rewrite time_Unix_of_ms by lia; apply Hgoal; lia.
Qed.
End Deadline.

(** ** Publishing the pending state *)

Section Publishing.
Context `{Externals}.

Lemma updateSnapshot_spec (w : worker) (heap : gmap N StateDB) (env : environment) :
  pendingBlockAndReceipts (fst (updateSnapshot w heap env))
  = (Some (NewBlock (header env) (txs env) (unclelist env)), receipts env) /\
  snapshot (fst (updateSnapshot w heap env)) (snd (updateSnapshot w heap env))
  = (Some (NewBlock (header env) (txs env) (unclelist env)), receipts env,
     Some (State.Copy (state env))) /\
  (forall p s, heap !! p = Some s -> snd (updateSnapshot w heap env) !! p = Some s) /\
  set_snapshot (fst (updateSnapshot w heap env)) (snapshotBlock w) (snapshotReceipts w)
    (snapshotState w) = w.
Proof.
  unfold updateSnapshot, pendingBlockAndReceipts, snapshot, copyReceipts.
  cbn [fst snd snapshotBlock snapshotReceipts snapshotState set_snapshot].
  rewrite map_id. split_and!.
  - reflexivity.
  - cbn. rewrite lookup_insert_eq. reflexivity.
  - intros p s Hp. rewrite lookup_insert_ne; [exact Hp | ].
    intros <-. apply (is_fresh (dom heap)). apply elem_of_dom. eauto.
  - by destruct w.
Qed.

(** X23: what [updateSnapshot] publishes is what the readers get: the
    pending block has the header, the transactions and the uncles of the
    environment, the pending receipts are its receipts, and [pending]
    returns that block with a newly allocated state that has the content of
    the state of the environment.  The states that earlier readers were
    handed are left as they are, and so is the rest of the worker. *)
Theorem updateSnapshot_publishes (w : worker) (heap : gmap N StateDB) (env : environment) :
  let w' := fst (updateSnapshot w heap env) in
  let heap' := snd (updateSnapshot w heap env) in
  (exists b,
      pendingBlock w' = Some b /\ pendingBlockAndReceipts w' = (Some b, receipts env) /\
      b_header b = header env /\ b_transactions b = txs env /\
      length (b_uncles b) = size (uncles env) /\
      (forall u, u ∈ b_uncles b <-> exists h, uncles env !! h = Some u) /\
      exists q s,
        pending w' heap' = Some (Some b, Some q, <[q := s]> heap') /\
        (q ∉ dom heap') /\ content s = content (state env)) /\
  (forall p s, heap !! p = Some s -> heap' !! p = Some s) /\
  set_snapshot w' (snapshotBlock w) (snapshotReceipts w) (snapshotState w) = w.
Proof.
  cbn zeta. destruct (updateSnapshot_spec w heap env) as (Hbr & Hsnap & Hold & Hrest).
  split_and!; [ | exact Hold | exact Hrest].
  exists (NewBlock (header env) (txs env) (unclelist env)). split_and!; try reflexivity.
  - exact Hbr.
  - unfold NewBlock, unclelist. cbn [b_uncles]. rewrite length_map.
    apply length_map_to_list.
  - intros u. unfold NewBlock, unclelist. cbn [b_uncles].
    rewrite list_elem_of_In, in_map_iff. split.
    + intros ([h u'] & <- & Hin). exists h.
      apply elem_of_map_to_list, list_elem_of_In, Hin.
    + intros [h Hu]. exists (h, u). split; [reflexivity | ].
      apply list_elem_of_In, elem_of_map_to_list, Hu.
  - unfold pending, updateSnapshot. cbn [fst snd snapshotState snapshotBlock set_snapshot].
    rewrite lookup_insert_eq. eexists _, _. split_and!; [reflexivity | | reflexivity].
    apply is_fresh.
Qed.

End Publishing.

(** ** New transactions between blocks *)

Section NewTransactions.
Context `{Externals} {Q : Type} `{TxQueue Q}.

End NewTransactions.

(** ** Filling a block *)

Section Filling.

Lemma fillTransactions_split_fold (locals : list Address)
    (localTxs remoteTxs : gmap Address (list Transaction)) :
  let step :=
    fun (acc : gmap Address (list Transaction) * gmap Address (list Transaction))
        (account : Address) =>
      let '(localTxs, remoteTxs) := acc in
      match remoteTxs !! account with
      | Some txs =>
          if (0 <? length txs)%nat
          then (<[account := txs]> localTxs, delete account remoteTxs)
          else (localTxs, remoteTxs)
      | None => (localTxs, remoteTxs)
      end in
  forall account,
    match remoteTxs !! account with
    | Some txs =>
        (account ∈ locals -> txs <> [] ->
         fst (fold_left step locals (localTxs, remoteTxs)) !! account = Some txs /\
         snd (fold_left step locals (localTxs, remoteTxs)) !! account = None) /\
        (account ∉ locals \/ txs = [] ->
         fst (fold_left step locals (localTxs, remoteTxs)) !! account = localTxs !! account /\
         snd (fold_left step locals (localTxs, remoteTxs)) !! account = Some txs)
    | None =>
        fst (fold_left step locals (localTxs, remoteTxs)) !! account = localTxs !! account /\
        snd (fold_left step locals (localTxs, remoteTxs)) !! account = None
    end.
Proof.
  cbn zeta. revert localTxs remoteTxs.
  induction locals as [ | x locals IH]; intros localTxs remoteTxs account.
  - cbn. destruct (remoteTxs !! account) as [txs | ]; [ | done].
    split; [intros Hin; by apply elem_of_nil in Hin | done].
  - cbn [fold_left].
    destruct (remoteTxs !! x) as [txsx | ] eqn:Hx.
    + destruct (Nat.ltb_spec 0 (length txsx)) as [Hlen | Hlen].
      * specialize (IH (<[x := txsx]> localTxs) (delete x remoteTxs) account).
        destruct (decide (account = x)) as [-> | Hne].
        -- rewrite lookup_delete_eq in IH. rewrite Hx, lookup_insert_eq in *.
           split; [intros _ _; exact IH | ].
           intros [Hnotin | ->]; [ | cbn in Hlen; lia].
           exfalso. apply Hnotin. apply elem_of_cons. by left.
        -- rewrite lookup_delete_ne, lookup_insert_ne in IH by done.
           destruct (remoteTxs !! account) as [txs | ]; [ | exact IH].
           destruct IH as [IH1 IH2]. split.
           ++ intros Hin. apply IH1. apply elem_of_cons in Hin. by destruct Hin.
           ++ intros [Hnotin | ->]; apply IH2; [left | by right].
              intros Hin. apply Hnotin. apply elem_of_cons. by right.
      * specialize (IH localTxs remoteTxs account).
        destruct (decide (account = x)) as [-> | Hne].
        -- rewrite Hx in *. assert (txsx = []) as -> by (destruct txsx; [done | cbn in Hlen; lia]).
           destruct IH as [_ IH2]. split; [done | ]. intros _. apply IH2. by right.
        -- destruct (remoteTxs !! account) as [txs | ]; [ | exact IH].
           destruct IH as [IH1 IH2]. split.
           ++ intros Hin. apply IH1. apply elem_of_cons in Hin. by destruct Hin.
           ++ intros [Hnotin | ->]; apply IH2; [left | by right].
              intros Hin. apply Hnotin. apply elem_of_cons. by right.
    + specialize (IH localTxs remoteTxs account).
      destruct (decide (account = x)) as [-> | Hne].
      -- rewrite Hx in *. exact IH.
      -- destruct (remoteTxs !! account) as [txs | ]; [ | exact IH].
         destruct IH as [IH1 IH2]. split.
         ++ intros Hin. apply IH1. apply elem_of_cons in Hin. by destruct Hin.
         ++ intros [Hnotin | ->]; apply IH2; [left | by right].
            intros Hin. apply Hnotin. apply elem_of_cons. by right.
Qed.

(** X26: [fillTransactions] splits the pending transactions in two: an
    account goes to the local ones, with all its transactions, exactly when
    it is a local account that has a transaction pending, and it stays with
    the remote ones otherwise; no account is in both and none is lost. *)
Theorem fillTransactions_split_partitions (pending : gmap Address (list Transaction))
    (locals : list Address) (account : Address) :
  let localTxs := fst (fillTransactions_split pending locals) in
  let remoteTxs := snd (fillTransactions_split pending locals) in
  match pending !! account with
  | Some txs =>
      (account ∈ locals -> txs <> [] ->
       localTxs !! account = Some txs /\ remoteTxs !! account = None) /\
      (account ∉ locals \/ txs = [] ->
       localTxs !! account = None /\ remoteTxs !! account = Some txs)
  | None => localTxs !! account = None /\ remoteTxs !! account = None
  end.
Proof.
  cbn zeta. unfold fillTransactions_split.
  pose proof (fillTransactions_split_fold locals ∅ pending account) as Hfold.
  cbn zeta in Hfold. rewrite lookup_empty in Hfold. exact Hfold.
Qed.

Lemma fillTransactions_split_empty (locals : list Address) :
  fillTransactions_split ∅ locals = (∅, ∅).
Proof.
  unfold fillTransactions_split. induction locals as [ | x locals IH]; [reflexivity | ].
  cbn [fold_left]. rewrite lookup_empty. exact IH.
Qed.

(** X27: [fillTransactions] only appends to the transactions and the
    receipts of the sealing block, one receipt per transaction, and counts
    what it appended in [tcount], over the run on the local transactions and
    the run on the remote ones together; without an interrupt it sends
    nothing on [resubmitAdjustCh], and never more than one message per run.
    With no transaction pending it leaves the environment as it is, without
    even a gas pool. *)
Theorem fillTransactions_appends `{Externals} {Q : Type} `{TxQueue Q}
    (ordered : Signer -> gmap Address (list Transaction) -> option Z -> Q)
    (w : worker) (env : environment) (pending : gmap Address (list Transaction))
    (locals : list Address) (interrupt : option (nat -> Z)) (clock : nat -> Time) :
  (pending = ∅ ->
   fillTransactions ordered w env pending locals interrupt clock
   = Done (mkFilled env [] [])) /\
  (forall f,
      fillTransactions ordered w env pending locals interrupt clock = Done f ->
      exists (new : list Transaction) (newr : list Receipt),
        txs (f_env f) = txs env ++ new /\
        receipts (f_env f) = receipts env ++ newr /\
        length new = length newr /\
        tcount (f_env f) = tcount env + Z.of_nat (length new) /\
        (interrupt = None -> f_resubmitAdjustCh f = []) /\
        (length (f_resubmitAdjustCh f) <= 2)%nat).
Proof.
  split.
  - intros ->. unfold fillTransactions. rewrite fillTransactions_split_empty.
    rewrite map_size_empty. reflexivity.
  - intros f. unfold fillTransactions.
    destruct (fillTransactions_split pending locals) as [localTxs remoteTxs].
    assert (Hone : forall env0 q i b c,
               commitTransactions w env0 q i None clock None = Done (b, c) ->
               exists (new : list Transaction) (newr : list Receipt),
                 txs (c_env c) = txs env0 ++ new /\
                 receipts (c_env c) = receipts env0 ++ newr /\
                 length new = length newr /\
                 tcount (c_env c) = tcount env0 + Z.of_nat (length new) /\
                 (i = None -> c_resubmitAdjustCh c = []) /\
                 (length (c_resubmitAdjustCh c) <= 1)%nat).
    { intros env0 q i b c Hc. apply commitTransactions_outcome in Hc.
      destruct Hc as (new & newr & A1 & A2 & A3 & A4 & _ & _ & _ & _ & _ & A10 & A11).
      exists new, newr. split_and!; try done.
      - intros Hi. apply A10. exact Hi.
      - destruct A11 as [-> | [[_ ->] | (r & -> & _)]]; cbn; lia. }
    assert (Hfirst :
              forall b f1 loads,
                (if (0 <? size localTxs)%nat
                 then match commitTransactions w env
                              (ordered (signer env) localTxs (BaseFee (header env)))
                              interrupt None clock None with
                      | Done (b, c) =>
                          Done (b, mkFilled (c_env c) (c_resubmitAdjustCh c)
                                     (c_pendingLogsFeed c), c_loads c)
                      | Panicked => Panicked
                      | OutOfFuel => OutOfFuel
                      end
                 else Done (false, mkFilled env [] [], 0%nat)) = Done (b, f1, loads) ->
                exists (new : list Transaction) (newr : list Receipt),
                  txs (f_env f1) = txs env ++ new /\
                  receipts (f_env f1) = receipts env ++ newr /\
                  length new = length newr /\
                  tcount (f_env f1) = tcount env + Z.of_nat (length new) /\
                  (interrupt = None -> f_resubmitAdjustCh f1 = []) /\
                  (length (f_resubmitAdjustCh f1) <= 1)%nat).
    { intros b f1 loads. destruct (0 <? size localTxs)%nat.
      - destruct (commitTransactions w env _ interrupt None clock None)
          as [[b' c] | | ] eqn:Hc; try discriminate.
        intros [= <- <- <-]. cbn [f_env f_resubmitAdjustCh]. exact (Hone _ _ _ _ _ Hc).
      - intros [= <- <- <-]. exists [], []. cbn. rewrite !app_nil_r.
        split_and!; try done; lia. }
    destruct (if (0 <? size localTxs)%nat then _ else _) as [[[b f1] loads] | | ] eqn:H1;
      try discriminate.
    specialize (Hfirst b f1 loads eq_refl).
    destruct Hfirst as (new1 & newr1 & B1 & B2 & B3 & B4 & B5 & B6).
    destruct b.
    { intros [= <-]. exists new1, newr1. split_and!; try done. lia. }
    destruct (0 <? size remoteTxs)%nat.
    + destruct (commitTransactions w (f_env f1) _ _ None clock None) as [[b' c] | | ] eqn:Hc;
        try discriminate.
      intros [= <-]. cbn [f_env f_resubmitAdjustCh].
      destruct (Hone _ _ _ _ _ Hc) as (new2 & newr2 & C1 & C2 & C3 & C4 & C5 & C6).
      exists (new1 ++ new2), (newr1 ++ newr2). split_and!.
      * rewrite C1, B1, app_assoc. reflexivity.
      * rewrite C2, B2, app_assoc. reflexivity.
      * rewrite !length_app. lia.
      * rewrite C4, B4, length_app. lia.
      * intros ->. rewrite B5, C5 by reflexivity. reflexivity.
      * rewrite length_app. lia.
    + intros [= <-]. exists new1, newr1. split_and!; try done. lia.
Qed.
End Filling.

(** ** Refused work *)

Section Refused.
Context `{Externals}.

Lemma prepareWork_error_causes (w : worker) (now : Time) (genParams : generateParams)
    (err : error) :
  prepareWork w now genParams = inl err ->
  (err = ErrMsg "missing parent" /\ gp_parentHash genParams <> emptyHash /\
   GetBlockByHash (chain w) (gp_parentHash genParams) = None) \/
  (err = ErrMsg "invalid timestamp" /\ IsPoW = true /\ gp_forceTime genParams = true /\
   exists parent,
     (gp_parentHash genParams <> emptyHash ->
      GetBlockByHash (chain w) (gp_parentHash genParams) = Some parent) /\
     (gp_parentHash genParams = emptyHash -> parent = CurrentBlock (chain w)) /\
     gp_timestamp genParams <= b_Time parent) \/
  (exists h h', Prepare (engine w) (chain w) h = (h', Some err)) \/
  (exists parent h, makeEnv w parent h (gp_coinbase genParams) = inl err).
Proof.
  unfold prepareWork.
  case_bool_decide as Hhash.
  - destruct (GetBlockByHash (chain w) (gp_parentHash genParams)) as [parent | ] eqn:Hp.
    2: { intros [= <-]. left. done. }
    destruct (GetBlockBuildParameters _) as [[[bi bgl] rate] pct].
    destruct IsPoW eqn:Hpow; cbn [andb negb].
    + destruct (Z.leb_spec (gp_timestamp genParams) (b_Time parent)) as [Hle | Hgt];
        cbn [andb].
      * destruct (gp_forceTime genParams) eqn:Hforce.
        { intros [= <-]. right. left. split_and!; try done. exists parent. done. }
        destruct (Prepare _ _ _) as [h' [e | ]] eqn:Hprep.
        { intros [= <-]. right. right. left. eauto. }
        destruct (makeEnv w parent h' _) as [e | env] eqn:Hmake.
        { intros [= <-]. right. right. right. eauto. }
        destruct (negb (gp_noUncle genParams)); discriminate.
      * destruct (Prepare _ _ _) as [h' [e | ]] eqn:Hprep.
        { intros [= <-]. right. right. left. eauto. }
        destruct (makeEnv w parent h' _) as [e | env] eqn:Hmake.
        { intros [= <-]. right. right. right. eauto. }
        destruct (negb (gp_noUncle genParams)); discriminate.
    + destruct (timeIt w now bi) as [timestamp till0].
      destruct (Prepare _ _ _) as [h' [e | ]] eqn:Hprep.
      { intros [= <-]. right. right. left. eauto. }
      destruct (makeEnv w parent h' _) as [e | env] eqn:Hmake.
      { intros [= <-]. right. right. right. eauto. }
      destruct (negb (gp_noUncle genParams)); discriminate.
  - destruct (GetBlockBuildParameters _) as [[[bi bgl] rate] pct].
    destruct IsPoW eqn:Hpow; cbn [andb negb].
    + destruct (Z.leb_spec (gp_timestamp genParams) (b_Time (CurrentBlock (chain w))))
        as [Hle | Hgt]; cbn [andb].
      * destruct (gp_forceTime genParams) eqn:Hforce.
        { intros [= <-]. right. left. split_and!; try done.
          exists (CurrentBlock (chain w)). done. }
        destruct (Prepare _ _ _) as [h' [e | ]] eqn:Hprep.
        { intros [= <-]. right. right. left. eauto. }
        destruct (makeEnv w _ h' _) as [e | env] eqn:Hmake.
        { intros [= <-]. right. right. right. eauto. }
        destruct (negb (gp_noUncle genParams)); discriminate.
      * destruct (Prepare _ _ _) as [h' [e | ]] eqn:Hprep.
        { intros [= <-]. right. right. left. eauto. }
        destruct (makeEnv w _ h' _) as [e | env] eqn:Hmake.
        { intros [= <-]. right. right. right. eauto. }
        destruct (negb (gp_noUncle genParams)); discriminate.
    + destruct (timeIt w now bi) as [timestamp till0].
      destruct (Prepare _ _ _) as [h' [e | ]] eqn:Hprep.
      { intros [= <-]. right. right. left. eauto. }
      destruct (makeEnv w _ h' _) as [e | env] eqn:Hmake.
      { intros [= <-]. right. right. right. eauto. }
      destruct (negb (gp_noUncle genParams)); discriminate.
Qed.

(** X28: [prepareWork] fails for one of four reasons only: the parent asked
    for is unknown; the chain is proof-of-work and the timestamp, which may
    not be changed, is not after that of the parent; the engine refuses the
    header; the state of the parent is missing.  A request made through
    [getSealingBlock] for an unknown parent fails as "missing parent", and on
    a proof-of-work chain one whose timestamp is not after its parent's
    fails as "invalid timestamp"; the work [commitWork] prepares is never
    refused for its parent or its timestamp. *)
Theorem prepareWork_refusals (w : worker) (now : Time) :
  (forall genParams err,
      prepareWork w now genParams = inl err ->
      (err = ErrMsg "missing parent" /\ gp_parentHash genParams <> emptyHash /\
       GetBlockByHash (chain w) (gp_parentHash genParams) = None) \/
      (err = ErrMsg "invalid timestamp" /\ IsPoW = true /\
       gp_forceTime genParams = true /\
       exists parent,
         (gp_parentHash genParams <> emptyHash ->
          GetBlockByHash (chain w) (gp_parentHash genParams) = Some parent) /\
         (gp_parentHash genParams = emptyHash -> parent = CurrentBlock (chain w)) /\
         gp_timestamp genParams <= b_Time parent) \/
      (exists h h', Prepare (engine w) (chain w) h = (h', Some err)) \/
      (exists parent h, makeEnv w parent h (gp_coinbase genParams) = inl err)) /\
  (forall parent timestamp coinbase random,
      parent <> emptyHash ->
      (GetBlockByHash (chain w) parent = None ->
       prepareWork w now (getSealingBlock_params parent timestamp coinbase random)
       = inl (ErrMsg "missing parent")) /\
      (forall b, GetBlockByHash (chain w) parent = Some b -> IsPoW = true ->
                 timestamp <= b_Time b ->
                 prepareWork w now (getSealingBlock_params parent timestamp coinbase random)
                 = inl (ErrMsg "invalid timestamp"))) /\
  (forall timestamp coinbase err,
      prepareWork w now (commitWork_params timestamp coinbase) = inl err ->
      (exists h h', Prepare (engine w) (chain w) h = (h', Some err)) \/
      (exists parent h, makeEnv w parent h coinbase = inl err)).
Proof.
  split_and!.
  - intros genParams err. apply prepareWork_error_causes.
  - intros parent timestamp coinbase random Hparent. split.
    + intros Hnone. unfold prepareWork, getSealingBlock_params. cbn [gp_parentHash].
      rewrite bool_decide_eq_true_2 by exact Hparent. rewrite Hnone. reflexivity.
    + intros b Hb Hpow Hle. unfold prepareWork, getSealingBlock_params.
      cbn [gp_parentHash gp_timestamp gp_forceTime].
      rewrite bool_decide_eq_true_2 by exact Hparent. rewrite Hb.
      destruct (GetBlockBuildParameters _) as [[[bi bgl] rate] pct].
      rewrite Hpow. cbn [andb].
      destruct (Z.leb_spec timestamp (b_Time b)); [reflexivity | lia].
  - intros timestamp coinbase err Herr.
    apply prepareWork_error_causes in Herr.
    destruct Herr as [(_ & Hd & _) | [(_ & _ & Hd & _) | [Hp | Hm]]].
    + contradiction.
    + discriminate Hd.
    + by left.
    + by right.
Qed.
End Refused.
(** ** The properties on the example chain, continued *)

Lemma commitUncle_refuses_second_time_witness :
  exists env',
    @commitUncle Example.externals Scenario.uncleWorker Scenario.env
      (b_header Scenario.uncleBlock) = (env', None) /\
    uncles env' !! 1601%N = Some (b_header Scenario.uncleBlock) /\
    size (uncles env') = 1%nat /\
    @commitUncle Example.externals Scenario.uncleWorker env' (b_header Scenario.uncleBlock)
    = (env', Some (ErrMsg "uncle not unique")).
Proof.
  destruct (@commitUncle Example.externals Scenario.uncleWorker Scenario.env
              (b_header Scenario.uncleBlock)) as [env' [err | ]] eqn:E;
    [exfalso; vm_compute in E; discriminate E | ].
  exists env'. split; [reflexivity | ].
  exact (@commitUncle_refuses_second_time Example.externals Scenario.uncleWorker
           Scenario.env env' (b_header Scenario.uncleBlock)
           (b_header Scenario.uncleBlock) E eq_refl).
Defined.

Lemma prepareWork_uncles_witness :
  exists env,
    @prepareWork Example.externals Scenario.uncleWorker 0
      (commitWork_params 2000 7%N) = inr env /\
    (size (uncles env) <= 2)%nat.
Proof.
  destruct (@prepareWork Example.externals Scenario.uncleWorker 0
              (commitWork_params 2000 7%N)) as [err | env] eqn:E;
    [exfalso; vm_compute in E; discriminate E | ].
  exists env. split; [reflexivity | ].
  exact (proj1 (@prepareWork_uncles Example.externals Scenario.uncleWorker 0
                  (commitWork_params 2000 7%N) env E)).
Defined.


Lemma committers_skip_replay_protected_witness :
  exists b c,
    @commitTransactions Example.externals Example.queue Example.queue_TxQueue
      Scenario.legacyWorker Example.env101 [[Example.tx 0; Example.tx 1]] None None
      (fun _ => 0) None = Done (b, c) /\
    Forall (fun tx => tx_protected tx = false)
      (drop (length (txs Example.env101)) (txs (c_env c))).
Proof.
  destruct (@commitTransactions Example.externals Example.queue Example.queue_TxQueue
              Scenario.legacyWorker Example.env101 [[Example.tx 0; Example.tx 1]] None
              None (fun _ => 0) None) as [[b c] | | ] eqn:E;
    [ | exfalso; vm_compute in E; discriminate E ..].
  exists b, c. split; [reflexivity | ].
  exact (@committers_skip_replay_protected Example.externals Example.queue
           Example.queue_TxQueue Scenario.legacyWorker None None (fun _ => 0)
           Example.queue_TxOrdering Example.env101 [[Example.tx 0; Example.tx 1]] None b c
           (or_introl E) eq_refl).
Defined.

Lemma commitTransactions_records_committed_witness :
  exists b c,
    @commitTransactions Example.externals Example.queue Example.queue_TxQueue
      Example.theWorker Example.env101 [[Example.tx 0; Example.tx 1]] None None
      (fun _ => 0) (Some ∅) = Done (b, c) /\
    exists m', c_committedTxs c = Some m' /\ dom (∅ : gmap Hash Transaction) ⊆ dom m' /\
               Forall (fun tx => tx_hash tx ∈ dom m')
                 (drop (length (txs Example.env101)) (txs (c_env c))).
Proof.
  destruct (@commitTransactions Example.externals Example.queue Example.queue_TxQueue
              Example.theWorker Example.env101 [[Example.tx 0; Example.tx 1]] None None
              (fun _ => 0) (Some ∅)) as [[b c] | | ] eqn:E;
    [ | exfalso; vm_compute in E; discriminate E ..].
  exists b, c. split; [reflexivity | ].
  exact (@commitTransactions_records_committed Example.externals Example.queue
           Example.queue_TxQueue Example.theWorker None None (fun _ => 0) Example.env101
           [[Example.tx 0; Example.tx 1]] (Some ∅) b c E).
Defined.


Lemma newWorkLoop_stores_interrupt_once_witness :
  wl_cells (@newWorkLoop_rounds Example.externals
              (newWorkLoop_start Example.theWorker 3000000000)
              (take 2 Scenario.occurrences ++ drop 2 Scenario.occurrences)) !! 0%N
  = Some commitInterruptNewHead.
Proof.
  apply (@newWorkLoop_stores_interrupt_once Example.externals Example.theWorker
           3000000000 (take 2 Scenario.occurrences) (drop 2 Scenario.occurrences) 0%N
           commitInterruptNewHead).
  - vm_compute. reflexivity.
  - vm_compute. discriminate.
Defined.

Lemma cleanTicker_evicts_stale_uncles_witness :
  (1601%N, Scenario.uncleBlock) ∈ localUncles (mainLoop_cleanTicker Scenario.uncleWorker)
  <-> (1601%N, Scenario.uncleBlock) ∈ localUncles Scenario.uncleWorker /\
      b_Number (CurrentBlock (chain Scenario.uncleWorker)) - b_Number Scenario.uncleBlock
      < 7.
Proof.
  apply (cleanTicker_evicts_stale_uncles Scenario.uncleWorker
           (1601%N, Scenario.uncleBlock)).
  - vm_compute. discriminate.
  - vm_compute. reflexivity.
  - split; vm_compute; [discriminate | reflexivity].
Defined.

Lemma stampReceipts_places_receipts_witness :
  length (fst (stampReceipts 1616%N 101 (t_receipts Scenario.task101)))
  = length (t_receipts Scenario.task101).
Proof.
  apply (stampReceipts_places_receipts 1616%N 101 (t_receipts Scenario.task101)).
  vm_compute. discriminate.
Defined.

Lemma sealed_block_finds_its_task_witness :
  let w' :=
    tl_worker (@taskLoop None (fun _ _ _ => None) (taskLoop_start Example.theWorker)
                 Scenario.task101) in
  @resultLoop Example.externals
    (set_pendingTasks_newTxs w' (clearPending (pendingTasks w') 100) (newTxs w'))
    (fun _ _ => false) (Some (Example.block 101))
  = Some (mkWritten (Example.block 101)
            (fst (stampReceipts (@Block_Hash Example.externals (Example.block 101)) 101
                    (t_receipts Scenario.task101)))
            (snd (stampReceipts (@Block_Hash Example.externals (Example.block 101)) 101
                    (t_receipts Scenario.task101)))
            Example.genesisState).
Proof.
  refine (proj1 (@sealed_block_finds_its_task Example.externals None (fun _ _ _ => None)
                   (fun _ _ => false) (taskLoop_start Example.theWorker) Scenario.task101
                   100 (Example.block 101) _ I eq_refl eq_refl _ _) eq_refl _).
  - vm_compute. discriminate.
  - vm_compute. discriminate.
  - vm_compute. reflexivity.
  - vm_compute. reflexivity.
Defined.


Lemma resubmitAdjust_increase_never_shortens_witness :
  (Z.min (3000000000 + 19999999) maxRecommitInterval
   <= wl_recommit (@newWorkLoop Example.externals
                     (newWorkLoop_start Example.theWorker 3000000000) 0
                     (resubmitAdjustCh (mkAdjust (1 # 2) true)))
   <= maxRecommitInterval)%Z.
Proof.
  apply (@resubmitAdjust_increase_never_shortens Example.externals
           (newWorkLoop_start Example.theWorker 3000000000) 0 (1 # 2)).
  - simpl. lia.
  - reflexivity.
  - discriminate.
Defined.

Lemma resubmitAdjust_decrease_bounds_witness :
  (1000000000
   <= wl_recommit (@newWorkLoop Example.externals
                     (mkWorkLoop Example.theWorker None 1000000000 3000000000 0 ∅ [] None)
                     0 (resubmitAdjustCh (mkAdjust 0 false)))
   <= Z.max 1000000000 (3000000000 - 19999996))%Z.
Proof.
  apply (@resubmitAdjust_decrease_bounds Example.externals
           (mkWorkLoop Example.theWorker None 1000000000 3000000000 0 ∅ [] None) 0 0).
  - simpl. lia.
  - simpl. lia.
Defined.

Lemma interruptCheck_ratio_in_range_witness :
  let c := mkCommitter (initGasPool Example.env101) ([] : Example.queue) None [] 0%nat
             0%nat [] [] in
  c_resubmitAdjustCh (fst (interruptCheck (Some (fun _ => commitInterruptResubmit)) 63000 c))
  = c_resubmitAdjustCh c \/
  exists ratio,
    c_resubmitAdjustCh
      (fst (interruptCheck (Some (fun _ => commitInterruptResubmit)) 63000 c))
    = c_resubmitAdjustCh c ++ [mkAdjust ratio true] /\
    (Float64.const (1 # 10) <= ratio)%Q /\ (ratio <= 1)%Q /\
    (ratio = Float64.const (1 # 10) \/
     ratio = Float64.fdiv (Float64.of_int (63000 - 63000)) (Float64.of_int 63000)).
Proof.
  apply (@interruptCheck_ratio_in_range Example.queue
           (Some (fun _ => commitInterruptResubmit)) 63000 63000
           (mkCommitter (initGasPool Example.env101) [] None [] 0%nat 0%nat [] [])).
  - reflexivity.
  - lia.
  - lia.
Defined.

Lemma newWorkLoop_interval_at_least_a_second_witness :
  (minRecommitInterval
   <= wl_recommit (@newWorkLoop_rounds Example.externals
                     (newWorkLoop_start Example.theWorker (newWorker_recommit 0))
                     Scenario.occurrences))%Z.
Proof.
  refine (proj1 (proj2 (@newWorkLoop_interval_at_least_a_second Example.externals
                          Example.theWorker 0 Scenario.occurrences _ _))).
  - lia.
  - constructor; [exact I | ].
    constructor; [exact I | ].
    constructor; [intros _; split; [reflexivity | discriminate] | ].
    constructor; [exact I | constructor].
Defined.

Lemma timeIt_deadline_witness :
  1700000000123456789 / 1000000 * 1000000
  <= snd (@timeIt Example.externals Example.theWorker 1700000000123456789 1000).
Proof.
  refine (proj1 (@timeIt_deadline Example.externals Example.theWorker 1700000000123456789
                   1000 _ _ _ _)).
  - lia.
  - lia.
  - simpl. lia.
  - simpl. lia.
Defined.

